(** * Fusion graph builder: a shallow embedding and its properties

    The development follows [utils/fusion_graph_builder/__init__.py],
    [utils/fusion_graph_builder/term_definition_graph.py] and
    [utils/concept_graph_search.py]; [utils/entity_graph_search.py] is taken at
    the interface of [fetch_dbpedia_triples] in the expansion round and
    followed in detail in the module [Dbpedia].

    Python [str] values are Rocq strings; [str.lower], [str.strip] and the
    regular-expression class [\s] are taken on the ASCII range, where Python's
    white space is the characters 9-13, 28-31 and 32.  Bytes above 127 are
    neither white space nor cased. *)

From Stdlib Require Import String Ascii List ZArith QArith Lia Bool Sorted.
From stdpp Require Import gmap strings list.

Open Scope string_scope.
Open Scope list_scope.

(** ** Python strings *)

Module PyStr.

(** [str.isspace] on one character, which is also the class [\s] of [re]. *)
Definition isspace (c : ascii) : bool :=
  let n := nat_of_ascii c in
  ((9 <=? n)%nat && (n <=? 13)%nat) || ((28 <=? n)%nat && (n <=? 32)%nat).

Definition lower_char (c : ascii) : ascii :=
  let n := nat_of_ascii c in
  if ((65 <=? n)%nat && (n <=? 90)%nat) then ascii_of_nat (n + 32) else c.

(** [s.lower()] *)
Fixpoint lower (s : string) : string :=
  match s with
  | EmptyString => EmptyString
  | String c r => String (lower_char c) (lower r)
  end.

(** [s.lstrip()] *)
Fixpoint lstrip (s : string) : string :=
  match s with
  | EmptyString => EmptyString
  | String c r => if isspace c then lstrip r else s
  end.

(** [s.rstrip()] *)
Fixpoint rstrip (s : string) : string :=
  match s with
  | EmptyString => EmptyString
  | String c r =>
      match rstrip r with
      | EmptyString => if isspace c then EmptyString else String c EmptyString
      | r' => String c r'
      end
  end.

(** [s.strip()] *)
Definition strip (s : string) : string := rstrip (lstrip s).

(** [re.sub(r"\s+", " ", s)]: every maximal run of white space becomes one
    space.  [in_run] tells that the previous character belonged to a run that
    has already been replaced. *)
Fixpoint sub_ws (in_run : bool) (s : string) : string :=
  match s with
  | EmptyString => EmptyString
  | String c r =>
      if isspace c
      then if in_run then sub_ws true r else String " " (sub_ws true r)
      else String c (sub_ws false r)
  end.

Definition re_sub_ws (s : string) : string := sub_ws false s.

(** Truthiness of a string: [bool(s)]. *)
Definition truthy (s : string) : bool :=
  match s with EmptyString => false | String _ _ => true end.

(** The first and the last character of a string. *)
Definition head (s : string) : option ascii :=
  match s with EmptyString => None | String c _ => Some c end.

Fixpoint last (s : string) : option ascii :=
  match s with
  | EmptyString => None
  | String c r => match last r with None => Some c | Some d => Some d end
  end.

Definition non_space (o : option ascii) : bool :=
  match o with None => true | Some c => negb (isspace c) end.

(** No white space at either end. *)
Definition is_trimmed (s : string) : bool :=
  non_space (head s) && non_space (last s).

(** Every white-space character is a space, and it is followed by a character
    that is not white space (or by the end of the string). *)
Fixpoint is_collapsed (s : string) : bool :=
  match s with
  | EmptyString => true
  | String c r =>
      (negb (isspace c) || (Ascii.eqb c " " && non_space (head r)))
      && is_collapsed r
  end.

(** [s.rsplit("/", 1)[-1]] and [s.split("/")[-1]]: what follows the last
    slash, the whole string when there is none. *)
Fixpoint last_segment (s : string) : string :=
  match s with
  | EmptyString => EmptyString
  | String c r =>
      if Ascii.eqb c "/" then last_segment r
      else if existsb (Ascii.eqb "/") (list_ascii_of_string r)
           then last_segment r else s
  end.

End PyStr.

(** ** Normalisation: [_norm] *)

(** [re.sub(r"\s+", " ", (s or "").strip())] *)
Definition _norm (s : string) : string := PyStr.re_sub_ws (PyStr.strip s).

(** ** Python values *)

(** The exceptions that leave the modelled functions. *)
Inductive PyExn :=
| APIError        (* the chat-completion call failed: transport, time-out, status *)
| ValueError      (* [json.loads] on text that is not JSON *)
| AttributeError  (* [.get] on a value that is not a dict *)
| TypeError.      (* iteration over a value that is not iterable *)

Inductive Result (A : Type) :=
| Ok (a : A)
| Raise (e : PyExn).
Arguments Ok {A} a.
Arguments Raise {A} e.

(** What [json.loads] returns.  [None], booleans and numbers are observed by
    the program only through their truth value and through [str()]; they are
    kept as [PScalar truth repr]. *)
#[warnings="-register-all"]
Inductive pyval :=
| PStr (s : string)
| PList (l : list pyval)
| PDict (kv : list (string * pyval))
| PScalar (truth : bool) (repr : string).

Definition py_truthy (v : pyval) : bool :=
  match v with
  | PStr s => PyStr.truthy s
  | PList l => match l with [] => false | _ => true end
  | PDict kv => match kv with [] => false | _ => true end
  | PScalar b _ => b
  end.

(** [repr(v)], with strings in single quotes (exact for strings free of quotes,
    backslashes and control characters). *)
Fixpoint py_repr (v : pyval) : string :=
  match v with
  | PStr s => "'" +:+ s +:+ "'"
  | PScalar _ r => r
  | PList l =>
      "[" +:+ (fix items (l : list pyval) : string :=
                 match l with
                 | [] => ""
                 | [x] => py_repr x
                 | x :: r => py_repr x +:+ ", " +:+ items r
                 end) l +:+ "]"
  | PDict kv =>
      "{" +:+ (fix items (l : list (string * pyval)) : string :=
                 match l with
                 | [] => ""
                 | [(k, x)] => "'" +:+ k +:+ "': " +:+ py_repr x
                 | (k, x) :: r => "'" +:+ k +:+ "': " +:+ py_repr x +:+ ", " +:+ items r
                 end) kv +:+ "}"
  end.

(** [str(v)] *)
Definition py_str (v : pyval) : string :=
  match v with
  | PStr s => s
  | _ => py_repr v
  end.

(** [d.get(k)] on a dict given by its items. *)
Definition dict_get {V : Type} (d : list (string * V)) (k : string) : option V :=
  snd <$> find (fun kv => String.eqb (fst kv) k) d.

(** [for t in v]: the items of a list, the characters of a string, the keys of
    a dict; any other value is not iterable. *)
Definition py_iter (v : pyval) : Result (list pyval) :=
  match v with
  | PList l => Ok l
  | PStr s => Ok (map (fun c => PStr (String c EmptyString)) (list_ascii_of_string s))
  | PDict kv => Ok (map (fun p => PStr (fst p)) kv)
  | PScalar _ _ => Raise TypeError
  end.

(** ** Data model *)

(** A triple is a dict with the keys [source], [relation] and [target];
    [source_graph] is added by the expansion round and [weight] is present only
    inside the Concept adapter. *)
Record Triple := mkTriple {
  source : string;
  relation : string;
  target : string;
  source_graph : option string;
  weight : option Q
}.

(** One record of the eventic graph: a dict from strings to strings, in
    insertion order. *)
Definition Row : Type := list (string * string).

(** The result of [build_fusion_graph]: the dict with the one key [edges]. *)
Record FusionGraph := mkGraph { edges : list Triple }.

(** The identity key of the Deduplicator. *)
Abbreviation Sig := (string * string * string * string)%type.

(** ** Seeding *)

Definition _is_agent_key (k : string) : bool :=
  let k_l := PyStr.lower k in
  String.eqb k_l "agent" || String.prefix "agent" k_l.

(** The loop that keeps the first occurrence of every agent, case-insensitively. *)
Fixpoint uniq_agents (seen : gset string) (agents : list string) : list string :=
  match agents with
  | [] => []
  | a :: rest =>
      if PyStr.truthy a && negb (bool_decide (PyStr.lower a ∈ seen))
      then a :: uniq_agents ({[PyStr.lower a]} ∪ seen) rest
      else uniq_agents seen rest
  end.

Definition _extract_agents_from_eventic (eventic_edges : list Row) : list string :=
  let agents :=
    flat_map (fun edge : Row =>
                match find (fun kv => _is_agent_key (fst kv)) edge with
                | Some (_, cand) => if PyStr.truthy cand then [_norm cand] else []
                | None => []
                end) eventic_edges in
  uniq_agents ∅ agents.

(** [row.get(k) or rest] *)
Definition get_or (row : Row) (k : string) (rest : string) : string :=
  match dict_get row k with
  | Some v => if PyStr.truthy v then v else rest
  | None => rest
  end.

Definition _eventic_to_triples (eventic_edges : list Row) : list Triple :=
  flat_map (fun row : Row =>
              let agent := get_or row "Agent" (get_or row "agent"
                             (get_or row "Agent1" (get_or row "agent1" ""))) in
              let deon := get_or row "Deontic" (get_or row "deontic" "") in
              let act := get_or row "Action" (get_or row "action" "") in
              if PyStr.truthy agent && PyStr.truthy deon && PyStr.truthy act
              then [ {| source := _norm agent; relation := _norm deon;
                        target := _norm act; source_graph := Some "eventic";
                        weight := None |} ]
              else []) eventic_edges.

(** ** The Deduplicator *)

Fixpoint dedup_loop (seen : gset Sig) (edges : list Triple) : list Triple :=
  match edges with
  | [] => []
  | e :: rest =>
      let src := _norm (source e) in
      let rel := _norm (relation e) in
      let tgt := _norm (target e) in
      let g := default "" (source_graph e) in
      let sig : Sig := (PyStr.lower src, rel, PyStr.lower tgt, g) in
      if negb (PyStr.truthy src) || negb (PyStr.truthy rel) || negb (PyStr.truthy tgt)
      then dedup_loop seen rest
      else if bool_decide (sig ∈ seen) then dedup_loop seen rest
      else {| source := src; relation := rel; target := tgt;
              source_graph := Some g; weight := None |}
           :: dedup_loop ({[sig]} ∪ seen) rest
  end.

Definition _dedup_edges (edges : list Triple) : list Triple := dedup_loop ∅ edges.

(** The key the loop computes for an edge, the edge it would append, and the
    guard that drops an edge with an empty field. *)
Definition edge_sig (e : Triple) : Sig :=
  (PyStr.lower (_norm (source e)), _norm (relation e),
   PyStr.lower (_norm (target e)), default "" (source_graph e)).

Definition canonical (e : Triple) : Triple :=
  {| source := _norm (source e); relation := _norm (relation e);
     target := _norm (target e); source_graph := Some (default "" (source_graph e));
     weight := None |}.

Definition has_empty_field (e : Triple) : bool :=
  negb (PyStr.truthy (_norm (source e))) || negb (PyStr.truthy (_norm (relation e)))
  || negb (PyStr.truthy (_norm (target e))).

(** The fields of a canonical edge that passed the guard. *)
Definition well_formed (e : Triple) : Prop :=
  source e <> "" /\ relation e <> "" /\ target e <> ""
  /\ PyStr.is_trimmed (source e) = true /\ PyStr.is_collapsed (source e) = true
  /\ PyStr.is_trimmed (relation e) = true /\ PyStr.is_collapsed (relation e) = true
  /\ PyStr.is_trimmed (target e) = true /\ PyStr.is_collapsed (target e) = true.

(** ** External collaborators *)

(** The text of a chat completion, [resp.choices[0].message.content].  The
    program reads it only through [json.loads(text)] and through the search for
    a fenced [json] block followed by [json.loads] of the block, so a text is
    given by the results of these two library calls. *)
Record Text := mkText {
  json_loads : option pyval;          (* [None]: [json.loads(text)] raises *)
  fenced : option (option pyval)      (* [None]: no fenced block;
                                         [Some None]: the block is not JSON *)
}.

(** The two prompts sent to the chat model; each is a fixed function of the
    model name and of the candidates or the keyword. *)
Inductive ChatRequest :=
| FilterPrompt (model : string) (cands : list string)
| DefinePrompt (model : string) (keyword : string).

Inductive ChatOutcome :=
| ChatError                          (* [client.chat.completions.create] raises *)
| ChatContent (text : Text).

(** A node and an edge of a ConceptNet response; every key is optional. *)
Record CNNode := mkNode { label : option string; at_id : option string }.

Record CNEdge := mkCNEdge {
  cn_weight : option Q;
  cn_rel : option CNNode;
  cn_start : option CNNode;
  cn_end : option CNNode
}.

Inductive HttpOutcome :=
| HttpError                          (* [requests.get], [raise_for_status] or [resp.json] raises *)
| HttpJson (cn_edges : list CNEdge). (* [data.get("edges", [])] of the decoded body *)

(** The calls made so far, the newest first, each with what it returned. *)
Inductive Event :=
| EvChat (req : ChatRequest) (out : ChatOutcome)
| EvConcept (keyword : string) (out : HttpOutcome)
| EvEntity (keyword : string) (max_num : option Z) (out : list Triple).

Definition History : Type := list Event.

(** The outside world: what each service answers, given everything that was
    asked before. *)
Record Services := mkServices {
  openai_chat : History -> ChatRequest -> ChatOutcome;
  conceptnet_get : History -> string -> HttpOutcome;
  dbpedia_triples : History -> string -> option Z -> list Triple
}.

(** ** Computations that call services and may raise *)

Definition M (A : Type) : Type := History -> Result A * History.

Definition ret {A : Type} (a : A) : M A := fun h => (Ok a, h).

Definition raise {A : Type} (e : PyExn) : M A := fun h => (Raise e, h).

Definition bind {A B : Type} (c : M A) (k : A -> M B) : M B :=
  fun h => match c h with
           | (Ok a, h') => k a h'
           | (Raise e, h') => (Raise e, h')
           end.

Definition lift {A : Type} (r : Result A) : M A := fun h => (r, h).

Declare Scope py_scope.
Delimit Scope py_scope with py.
Notation "x <- c ;; k" := (bind c (fun x => k))
  (at level 100, c at next level, right associativity) : py_scope.

(** ** The Concept adapter: [fetch_conceptnet_triples] *)

Definition Qltb (x y : Q) : bool := negb (Qle_bool y x).

(** [node.get("label") or node.get("@id", "").rsplit("/", 1)[-1]] *)
Definition _label_of (node : CNNode) : string :=
  match label node with
  | Some l => if PyStr.truthy l then l
              else PyStr.last_segment (default "" (at_id node))
  | None => PyStr.last_segment (default "" (at_id node))
  end.

(** [rid.split("/")[-1] if rid else ""] *)
Definition _rel_of (rel_obj : CNNode) : string :=
  let rid := default "" (at_id rel_obj) in
  if PyStr.truthy rid then PyStr.last_segment rid else "".

Definition empty_node : CNNode := {| label := None; at_id := None |}.

(** The loop over the edges of the response. *)
Fixpoint collect_edges (relations : option (list string)) (min_weight : Q)
    (seen : gset (string * string * string)) (cn_edges : list CNEdge) : list Triple :=
  match cn_edges with
  | [] => []
  | edge :: rest =>
      let w := default 0%Q (cn_weight edge) in
      if Qltb w min_weight then collect_edges relations min_weight seen rest
      else
        let rel := _rel_of (default empty_node (cn_rel edge)) in
        if match relations with
           | Some (r :: rs) => negb (bool_decide (rel ∈ r :: rs))
           | _ => false
           end
        then collect_edges relations min_weight seen rest
        else
          let src := _label_of (default empty_node (cn_start edge)) in
          let tgt := _label_of (default empty_node (cn_end edge)) in
          let sig := (PyStr.lower src, rel, PyStr.lower tgt) in
          if bool_decide (sig ∈ seen)
          then collect_edges relations min_weight seen rest
          else {| source := src; relation := rel; target := tgt;
                  source_graph := None; weight := Some w |}
               :: collect_edges relations min_weight ({[sig]} ∪ seen) rest
  end.

Definition weight_of (t : Triple) : Q := default 0%Q (weight t).

(** [triples.sort(key=lambda x: x["weight"], reverse=True)]: the stable sort by
    descending weight, written as an insertion sort. *)
Fixpoint insert_desc (x : Triple) (l : list Triple) : list Triple :=
  match l with
  | [] => [x]
  | y :: r => if Qltb (weight_of x) (weight_of y) then y :: insert_desc x r
              else x :: y :: r
  end.

Fixpoint sort_desc (l : list Triple) : list Triple :=
  match l with
  | [] => []
  | x :: r => insert_desc x (sort_desc r)
  end.

(** [l[:n]], with Python's meaning of a negative bound. *)
Definition slice_to {A : Type} (n : Z) (l : list A) : list A :=
  if (n <? 0)%Z then firstn (Z.to_nat (Z.of_nat (length l) + n)) l
  else firstn (Z.to_nat n) l.

(** [t.pop("weight", None)] *)
Definition pop_weight (t : Triple) : Triple :=
  {| source := source t; relation := relation t; target := target t;
     source_graph := source_graph t; weight := None |}.

(** What the adapter does with a decoded response. *)
Definition shape_conceptnet (relations : option (list string)) (min_weight : Q)
    (max_num : option Z) (cn_edges : list CNEdge) : list Triple :=
  let triples := collect_edges relations min_weight ∅ cn_edges in
  let triples := sort_desc triples in
  let triples := match max_num with
                 | Some n => slice_to n triples
                 | None => triples
                 end in
  map pop_weight triples.

Section Run.

Context (sv : Services).
Open Scope py_scope.

(** [client.chat.completions.create(...)] followed by the read of the content. *)
Definition chat (req : ChatRequest) : M Text :=
  fun h =>
    let out := openai_chat sv h req in
    match out with
    | ChatError => (Raise APIError, EvChat req out :: h)
    | ChatContent text => (Ok text, EvChat req out :: h)
    end.

Definition fetch_conceptnet_triples (keyword : string)
    (relations : option (list string)) (min_weight : Q) (max_num : option Z)
  : M (list Triple) :=
  fun h =>
    let out := conceptnet_get sv h keyword in
    match out with
    | HttpError => (Ok [], EvConcept keyword out :: h)
    | HttpJson cn_edges =>
        (Ok (shape_conceptnet relations min_weight max_num cn_edges),
         EvConcept keyword out :: h)
    end.

(** The Entity adapter at its interface: every failure path of
    [fetch_dbpedia_triples] returns the empty list. *)
Definition fetch_dbpedia_triples (keyword : string) (max_num : option Z)
  : M (list Triple) :=
  fun h =>
    let out := dbpedia_triples sv h keyword max_num in
    (Ok out, EvEntity keyword max_num out :: h).

(** ** The Term-Definition adapter *)

Definition _from_dict (d : list (string * pyval)) : option Triple :=
  let src := _norm (py_str (default (PStr "") (dict_get d "source"))) in
  let rel := _norm (py_str (default (PStr "") (dict_get d "relation"))) in
  let tgt := _norm (py_str (default (PStr "") (dict_get d "target"))) in
  if PyStr.truthy src && PyStr.truthy tgt && PyStr.truthy rel
  then Some {| source := src; relation := "IsA"; target := tgt;
               source_graph := None; weight := None |}
  else None.

(** A decoded value that is a dict, or a list whose first item is a dict. *)
Definition triple_of_data (data : pyval) : option Triple :=
  match data with
  | PDict d => _from_dict d
  | PList (PDict d :: _) => _from_dict d
  | _ => None
  end.

Definition _coerce_single_triple (text : Text) (keyword : string) : Triple :=
  let fallback := {| source := _norm keyword; relation := "IsA"; target := "";
                     source_graph := None; weight := None |} in
  match match json_loads text with
        | Some data => triple_of_data data
        | None => None
        end with
  | Some tri => tri
  | None =>
      match fenced text with
      | Some (Some data) =>
          match triple_of_data data with
          | Some tri => tri
          | None => fallback
          end
      | _ => fallback
      end
  end.

(** [triple["relation"] = "IsA"; triple["source"] = keyword] *)
Definition pinned (keyword : string) (triple : Triple) : Triple :=
  {| source := keyword; relation := "IsA"; target := target triple;
     source_graph := source_graph triple; weight := weight triple |}.

Definition build_term_definition_triples (keyword : string) (model : string)
  : M (list Triple) :=
  text <- chat (DefinePrompt model keyword) ;;
  let triple := _coerce_single_triple text keyword in
  ret [pinned keyword triple].

(** ** The Relevance Filter *)

(** [{c.lower(): c for c in cands}] *)
Definition cand_map_of (cands : list string) : gmap string string :=
  foldl (fun m c => <[PyStr.lower c := c]> m) ∅ cands.

(** The loop over the [keep] list. *)
Fixpoint pick_loop (cand_map : gmap string string) (seen : gset string)
    (keep : list pyval) : list string :=
  match keep with
  | [] => []
  | t :: rest =>
      let k := PyStr.lower (_norm (py_str t)) in
      match cand_map !! k with
      | Some c =>
          if bool_decide (k ∈ seen) then pick_loop cand_map seen rest
          else c :: pick_loop cand_map ({[k]} ∪ seen) rest
      | None => pick_loop cand_map seen rest
      end
  end.

(** The decoding of the filter's answer, [data]. *)
Definition filter_data (text : Text) : Result pyval :=
  match json_loads text with
  | Some data => Ok data
  | None =>
      match fenced text with
      | Some (Some data) => Ok data
      | Some None => Raise ValueError
      | None => Ok (PDict [("keep", PList [])])
      end
  end.

(** [data.get("keep") or []] *)
Definition keep_of (data : pyval) : Result pyval :=
  match data with
  | PDict kv =>
      match dict_get kv "keep" with
      | Some v => if py_truthy v then Ok v else Ok (PList [])
      | None => Ok (PList [])
      end
  | _ => Raise AttributeError
  end.

Definition _pick_hard_agents_via_gpt (cands : list string) (model : string)
  : M (list string) :=
  match cands with
  | [] => ret []
  | _ =>
      text <- chat (FilterPrompt model cands) ;;
      data <- lift (filter_data text) ;;
      keep <- lift (keep_of data) ;;
      items <- lift (py_iter keep) ;;
      ret (pick_loop (cand_map_of cands) ∅ items)
  end.

(** ** The expansion round *)

Record Config := mkConfig {
  model : string;
  concept_min_weight : Q;
  concept_max : option Z;
  entity_max : option Z;
  include_tdg_edges : bool;
  use_concept_graph : bool;
  use_entity_graph : bool;
  use_term_definition_graph : bool
}.

(** [{**t, "source_graph": g}] *)
Definition tagged (g : string) (t : Triple) : Triple :=
  {| source := source t; relation := relation t; target := target t;
     source_graph := Some g; weight := weight t |}.

(** The body of the loop over [hard_agents]: [acc] holds [edges] and
    [next_queue]. *)
Definition expand_agent (cfg : Config) (agent : string)
    (acc : list Triple * list string) : M (list Triple * list string) :=
  acc <- (if use_concept_graph cfg
          then c_tris <- fetch_conceptnet_triples agent None
                           (concept_min_weight cfg) (concept_max cfg) ;;
               ret ((fst acc ++ map (tagged "concept") c_tris),
                    (snd acc ++ map target c_tris))
          else ret acc) ;;
  acc <- (if use_entity_graph cfg
          then e_tris <- fetch_dbpedia_triples agent (entity_max cfg) ;;
               ret ((fst acc ++ map (tagged "entity") e_tris),
                    (snd acc ++ map target e_tris))
          else ret acc) ;;
  if use_term_definition_graph cfg
  then tdg_tris <- build_term_definition_triples agent (model cfg) ;;
       if include_tdg_edges cfg
       then ret ((fst acc ++ map (tagged "term_definition") tdg_tris), snd acc)
       else ret acc
  else ret acc.

Fixpoint expand_agents (cfg : Config) (hard_agents : list string)
    (acc : list Triple * list string) : M (list Triple * list string) :=
  match hard_agents with
  | [] => ret acc
  | agent :: rest =>
      acc <- expand_agent cfg agent acc ;;
      expand_agents cfg rest acc
  end.

(** The loop that builds the next queue. *)
Fixpoint next_frontier (current_set seen : gset string) (next_queue : list string)
  : list string :=
  match next_queue with
  | [] => []
  | x :: rest =>
      let xn := _norm x in
      if negb (PyStr.truthy xn) then next_frontier current_set seen rest
      else
        let k := PyStr.lower xn in
        if bool_decide (k ∈ current_set) || bool_decide (k ∈ seen)
        then next_frontier current_set seen rest
        else xn :: next_frontier current_set ({[k]} ∪ seen) rest
  end.

Definition _expand_once (cfg : Config) (agent_list : list string)
  : M (list Triple * list string) :=
  hard_agents <- _pick_hard_agents_via_gpt agent_list (model cfg) ;;
  let hard_agents := match hard_agents with [] => agent_list | _ => hard_agents end in
  acc <- expand_agents cfg hard_agents ([], []) ;;
  let current_set : gset string := list_to_set (map PyStr.lower agent_list) in
  let uniq := next_frontier current_set ∅ (snd acc) in
  ret (_dedup_edges (fst acc), uniq).

(** ** The orchestrator *)

(** The loop over [range(max(0, int(rounds)))]. *)
Fixpoint rounds_loop (cfg : Config) (n : nat) (agents_queue : list string)
    (final_edges : list Triple) : M (list Triple) :=
  match n with
  | O => ret final_edges
  | S n' =>
      match agents_queue with
      | [] => ret final_edges
      | _ =>
          step <- _expand_once cfg agents_queue ;;
          rounds_loop cfg n' (snd step) (final_edges ++ fst step)
      end
  end.

Definition build_fusion_graph (eventic_edges : list Row) (rounds : Z) (cfg : Config)
  : M FusionGraph :=
  let final_edges := _eventic_to_triples eventic_edges in
  let agents_queue := _extract_agents_from_eventic eventic_edges in
  final_edges <- rounds_loop cfg (Z.to_nat (Z.max 0 rounds)) agents_queue final_edges ;;
  ret {| edges := _dedup_edges final_edges |}.

End Run.

(** ** Reading a round off the history

    The calls of a round are recorded in the history; the definitions below
    give, for one recorded call, what the adapter returned to the round, which
    edges the round collected from it, and which targets it put in the queue. *)

Definition adapter_result (cfg : Config) (ev : Event) : list Triple :=
  match ev with
  | EvConcept _ HttpError => []
  | EvConcept _ (HttpJson cn_edges) =>
      shape_conceptnet None (concept_min_weight cfg) (concept_max cfg) cn_edges
  | EvEntity _ _ out => out
  | EvChat (DefinePrompt _ keyword) (ChatContent text) =>
      [pinned keyword (_coerce_single_triple text keyword)]
  | EvChat _ _ => []
  end.

Definition collected (cfg : Config) (ev : Event) : list Triple :=
  match ev with
  | EvConcept _ _ => map (tagged "concept") (adapter_result cfg ev)
  | EvEntity _ _ _ => map (tagged "entity") (adapter_result cfg ev)
  | EvChat (DefinePrompt _ _) _ =>
      if include_tdg_edges cfg
      then map (tagged "term_definition") (adapter_result cfg ev)
      else []
  | EvChat (FilterPrompt _ _) _ => []
  end.

Definition enqueued (cfg : Config) (ev : Event) : list string :=
  match ev with
  | EvConcept _ _ | EvEntity _ _ _ => map target (adapter_result cfg ev)
  | EvChat _ _ => []
  end.

(** The calls in the order they were made. *)
Definition chronological (evs : History) : list Event := rev evs.

(** [acc'] and [h'] are [acc] and [h] after the calls [evs]. *)
Definition extends (cfg : Config) (acc : list Triple * list string) (h : History)
    (acc' : list Triple * list string) (h' : History) : Prop :=
  exists evs,
    h' = evs ++ h
    /\ fst acc' = fst acc ++ flat_map (collected cfg) (chronological evs)
    /\ snd acc' = snd acc ++ flat_map (enqueued cfg) (chronological evs).

(** The key under which an item of the [keep] list is looked up. *)
Definition keep_key (t : pyval) : string := PyStr.lower (_norm (py_str t)).

(** The edge lists handed back by the rounds of a run. *)
Definition round_edges (sv : Services) (cfg : Config) (steps : list (list Triple)) : Prop :=
  Forall (fun s => exists q h fr h',
                     _expand_once sv cfg q h = (Ok (s, fr), h')) steps.

(** The calls of the Concept and of the Entity adapter. *)
Definition is_concept_or_entity (ev : Event) : bool :=
  match ev with
  | EvConcept _ _ | EvEntity _ _ _ => true
  | EvChat _ _ => false
  end.

(** The triple the Concept adapter's loop appends for an edge, and the key
    under which the loop deduplicates. *)
Definition shaped_edge (edge : CNEdge) : Triple :=
  {| source := _label_of (default empty_node (cn_start edge));
     relation := _rel_of (default empty_node (cn_rel edge));
     target := _label_of (default empty_node (cn_end edge));
     source_graph := None;
     weight := Some (default 0%Q (cn_weight edge)) |}.

Definition key3 (t : Triple) : string * string * string :=
  (PyStr.lower (source t), relation t, PyStr.lower (target t)).

(** Ranked by descending weight. *)
Definition heavier_first (a b : Triple) : Prop := (weight_of b <= weight_of a)%Q.

(** A relation passes the adapter's optional relation filter. *)
Definition relation_allowed (relations : option (list string)) (rel : string) : bool :=
  match relations with
  | Some (r :: rs) => bool_decide (rel ∈ r :: rs)
  | _ => true
  end.

(** The filter can decode the text: it finds a [keep] value it can iterate. *)
Definition filter_answer_ok (text : Text) : Prop :=
  exists data keep items,
    filter_data text = Ok data /\ keep_of data = Ok keep /\ py_iter keep = Ok items.

(** The chat model answers every request, and the filter can decode its
    answers. *)
Definition model_answers (sv : Services) : Prop :=
  forall h req,
    exists text,
      openai_chat sv h req = ChatContent text
      /\ (forall m cands, req = FilterPrompt m cands -> filter_answer_ok text).

(** ** Scenarios

    Concrete event records, configurations and worlds on which the functions
    are run. *)

Definition controller_event : Row :=
  [("Agent", "Controller"); ("Deontic", "must"); ("Action", "delete personal data")].

Definition gdpr_event : Row :=
  [("Agent", "GDPR"); ("Deontic", "must"); ("Action", "protect  personal data")].

(** The module's defaults. *)
Definition default_config : Config :=
  {| model := "gpt-4o-mini"; concept_min_weight := 4; concept_max := Some 3%Z;
     entity_max := Some 3%Z; include_tdg_edges := false;
     use_concept_graph := true; use_entity_graph := true;
     use_term_definition_graph := true |}.

(** The configuration of [main.py]. *)
Definition main_config : Config :=
  {| model := "gpt-4o-mini"; concept_min_weight := 4; concept_max := Some 3%Z;
     entity_max := Some 3%Z; include_tdg_edges := true;
     use_concept_graph := true; use_entity_graph := true;
     use_term_definition_graph := true |}.

(** Only the Term-Definition graph, with its edges included. *)
Definition tdg_only_config : Config :=
  {| model := "gpt-4o-mini"; concept_min_weight := 4; concept_max := Some 3%Z;
     entity_max := Some 3%Z; include_tdg_edges := true;
     use_concept_graph := false; use_entity_graph := false;
     use_term_definition_graph := true |}.

(** Every external source is unavailable. *)
Definition unavailable : Services :=
  {| openai_chat := fun _ _ => ChatError;
     conceptnet_get := fun _ _ => HttpError;
     dbpedia_triples := fun _ _ _ => [] |}.

(** A text that is neither JSON nor holds a fenced block. *)
Definition prose : Text := {| json_loads := None; fenced := None |}.

(** A text whose fenced block is not JSON. *)
Definition broken_fence : Text := {| json_loads := None; fenced := Some None |}.

(** The JSON text of an object with the one key [keep]. *)
Definition keep_text (items : list string) : Text :=
  {| json_loads := Some (PDict [("keep", PList (map PStr items))]);
     fenced := None |}.

(** The JSON text of a definition triple. *)
Definition definition_text (src rel tgt : string) : Text :=
  {| json_loads :=
       Some (PDict [("source", PStr src); ("relation", PStr rel); ("target", PStr tgt)]);
     fenced := None |}.

(** The filter keeps nothing, and the definition call answers in prose. *)
Definition prose_definitions : Services :=
  {| openai_chat := fun _ req =>
       match req with
       | FilterPrompt _ _ => ChatContent (keep_text [])
       | DefinePrompt _ _ => ChatContent prose
       end;
     conceptnet_get := fun _ _ => HttpError;
     dbpedia_triples := fun _ _ _ => [] |}.

(** The filter answers with the candidates in another order. *)
Definition reordering_filter : Services :=
  {| openai_chat := fun _ _ => ChatContent (keep_text ["B"; "A"]);
     conceptnet_get := fun _ _ => HttpError;
     dbpedia_triples := fun _ _ _ => [] |}.

(** The filter answers with a fenced block that is not JSON. *)
Definition broken_filter : Services :=
  {| openai_chat := fun _ _ => ChatContent broken_fence;
     conceptnet_get := fun _ _ => HttpError;
     dbpedia_triples := fun _ _ _ => [] |}.

Definition node (l : string) : option CNNode :=
  Some {| label := Some l; at_id := None |}.

Definition rel_node (id : string) : option CNNode :=
  Some {| label := None; at_id := Some id |}.

(** A ConceptNet answer for [GDPR]: a weak edge, a duplicate up to case, and an
    edge back to the keyword. *)
Definition gdpr_concept_edges : list CNEdge :=
  [ {| cn_weight := Some 5%Q; cn_rel := rel_node "/r/IsA";
       cn_start := node "GDPR"; cn_end := node "regulation" |};
    {| cn_weight := Some 1%Q; cn_rel := rel_node "/r/RelatedTo";
       cn_start := node "GDPR"; cn_end := node "law" |};
    {| cn_weight := Some 9%Q; cn_rel := rel_node "/r/RelatedTo";
       cn_start := node "GDPR"; cn_end := node "data  protection" |};
    {| cn_weight := Some 6%Q; cn_rel := rel_node "/r/IsA";
       cn_start := node "gdpr"; cn_end := node "Regulation" |};
    {| cn_weight := Some 7%Q; cn_rel := rel_node "/r/Synonym";
       cn_start := node "GDPR"; cn_end := node "gdpr" |} ].

(** A world in which every source answers. *)
Definition answering : Services :=
  {| openai_chat := fun _ req =>
       match req with
       | FilterPrompt _ cands => ChatContent (keep_text cands)
       | DefinePrompt _ keyword =>
           ChatContent (definition_text "the term" "is" "A term  of the regulation.")
       end;
     conceptnet_get := fun _ keyword =>
       if String.eqb keyword "GDPR" then HttpJson gdpr_concept_edges
       else HttpJson [];
     dbpedia_triples := fun _ keyword _ =>
       if String.eqb keyword "GDPR"
       then [ {| source := "General Data Protection Regulation"; relation := "type";
                 target := "Regulation"; source_graph := None; weight := None |} ]
       else [] |}.

(** One round on [GDPR] in the answering world, and what it hands back. *)
Definition answering_round : Result (list Triple * list string) * History :=
  Eval vm_compute in _expand_once answering main_config ["GDPR"] [].

Definition answering_round_edges : list Triple :=
  Eval vm_compute in
    match answering_round with (Ok (es, _), _) => es | _ => [] end.

Definition answering_round_frontier : list string :=
  Eval vm_compute in
    match answering_round with (Ok (_, fr), _) => fr | _ => [] end.

Definition answering_round_history : History :=
  Eval vm_compute in snd answering_round.

(** Two rounds from two equal event records in the answering world. *)
Definition answering_run : Result FusionGraph * History :=
  Eval vm_compute in
    build_fusion_graph answering [gdpr_event; gdpr_event] 2 main_config [].

Definition answering_graph : FusionGraph :=
  Eval vm_compute in
    match answering_run with (Ok g, _) => g | _ => {| edges := [] |} end.

Definition answering_history : History :=
  Eval vm_compute in snd answering_run.

(** ** The event extraction: [_coerce_event_list]

    From [utils/eventic_graph_builder.py].  The text is read through
    [json.loads(text)] and, when that raises, through the search for a
    bracketed array of objects followed by [json.loads] of the match. *)
Record EventText := mkEventText {
  ev_loads : option pyval;            (* [None]: [json.loads(text)] raises *)
  ev_array : option (option pyval)    (* [None]: no bracketed array;
                                         [Some None]: the match is not JSON *)
}.

(** The body of the loop over [events]. *)
Definition event_of (ev : pyval) : list Row :=
  match ev with
  | PDict d =>
      let agent := PyStr.strip (py_str (default (PStr "") (dict_get d "Agent"))) in
      let deon := PyStr.strip (py_str (default (PStr "") (dict_get d "Deontic"))) in
      let act := PyStr.strip (py_str (default (PStr "") (dict_get d "Action"))) in
      if PyStr.truthy agent && PyStr.truthy deon && PyStr.truthy act
      then [ [("Agent", agent); ("Deontic", deon); ("Action", act)] ]
      else []
  | _ => []
  end.

Definition _coerce_event_list (text : EventText) : list Row :=
  match match ev_loads text with
        | Some data => Some data
        | None =>
            match ev_array text with
            | Some (Some data) => Some data
            | _ => None
            end
        end with
  | None => []
  | Some (PDict kv) =>
      match dict_get kv "events" with
      | Some (PList events) => flat_map event_of events
      | _ => []
      end
  | Some (PList events) => flat_map event_of events
  | Some _ => []
  end.

(** A record as [_coerce_event_list] builds it. *)
Definition event_record (agent deon act : string) : Row :=
  [("Agent", agent); ("Deontic", deon); ("Action", act)].

(** A string that is not empty and has no white space at its ends. *)
Definition stripped_nonempty (s : string) : Prop :=
  s <> "" /\ PyStr.is_trimmed s = true.

(** The value of the first agent-like key of a record. *)
Definition first_agent (row : Row) : option string :=
  match find (fun kv => _is_agent_key (fst kv)) row with
  | Some (_, cand) => Some cand
  | None => None
  end.

(** ** The calls of a round

    A call as the round issues it: which service, for which keyword. *)
Inductive Call :=
| CallFilter (cands : list string)
| CallConcept (keyword : string)
| CallEntity (keyword : string) (max_num : option Z)
| CallDefine (keyword : string).

Definition call_of (ev : Event) : Call :=
  match ev with
  | EvChat (FilterPrompt _ cands) _ => CallFilter cands
  | EvChat (DefinePrompt _ keyword) _ => CallDefine keyword
  | EvConcept keyword _ => CallConcept keyword
  | EvEntity keyword max_num _ => CallEntity keyword max_num
  end.

(** The calls the round issues for one agent, in order. *)
Definition calls_for (cfg : Config) (agent : string) : list Call :=
  (if use_concept_graph cfg then [CallConcept agent] else [])
  ++ (if use_entity_graph cfg then [CallEntity agent (entity_max cfg)] else [])
  ++ (if use_term_definition_graph cfg then [CallDefine agent] else []).

Definition is_filter_call (c : Call) : bool :=
  match c with CallFilter _ => true | _ => false end.

(** The keyword a call asks about. *)
Definition call_keyword (c : Call) : option string :=
  match c with
  | CallFilter _ => None
  | CallConcept keyword | CallEntity keyword _ | CallDefine keyword => Some keyword
  end.

(** The four source-graph tags. *)
Definition known_tags : list string :=
  ["eventic"; "concept"; "entity"; "term_definition"].

(** The calls [calls], and no others, lead from the history [h] to [h']. *)
Definition made (calls : list Call) (h h' : History) : Prop :=
  exists evs, h' = evs ++ h /\ map call_of (chronological evs) = calls.

(** The number of filter calls among [calls]: the number of rounds run. *)
Definition filter_calls (calls : list Call) : nat :=
  length (List.filter is_filter_call calls).

(** The Concept and the Entity source give nothing. *)
Definition sources_down (sv : Services) : Prop :=
  (forall h keyword, conceptnet_get sv h keyword = HttpError)
  /\ (forall h keyword max_num, dbpedia_triples sv h keyword max_num = []).

(** The chat model answers; the Concept and the Entity source are down. *)
Definition only_model : Services :=
  {| openai_chat := openai_chat answering;
     conceptnet_get := fun _ _ => HttpError;
     dbpedia_triples := fun _ _ _ => [] |}.

(** Edges of the Term-Definition graph only, and none when they are not
    included. *)
Definition only_definitions (cfg : Config) (l : list Triple) : Prop :=
  Forall (fun e => source_graph e = Some "term_definition") l
  /\ (include_tdg_edges cfg = false -> l = []).

(** No slash occurs in a string. *)
Definition no_slash (s : string) : bool :=
  negb (existsb (Ascii.eqb "/") (list_ascii_of_string s)).

(** The triples of a given weight, in the order of the list. *)
Definition of_weight (w : Q) (l : list Triple) : list Triple :=
  List.filter (fun t => Qeq_bool (weight_of t) w) l.

(** ** The Entity adapter in detail: [utils/entity_graph_search.py]

    The three HTTP exchanges of the adapter (the lookup, the existence query
    and the query for the outgoing relations) are answered by a [World]; the
    expansion round above uses the adapter through [dbpedia_triples]. *)

Module Dbpedia.

Definition is_alnum (c : ascii) : bool :=
  let n := nat_of_ascii c in
  ((48 <=? n)%nat && (n <=? 57)%nat) || ((65 <=? n)%nat && (n <=? 90)%nat)
  || ((97 <=? n)%nat && (n <=? 122)%nat).

Definition upper_char (c : ascii) : ascii :=
  let n := nat_of_ascii c in
  if ((97 <=? n)%nat && (n <=? 122)%nat) then ascii_of_nat (n - 32) else c.

Definition starts_alnum (s : string) : bool :=
  match s with
  | EmptyString => false
  | String c _ => is_alnum c
  end.

(** [re.findall(r"[A-Za-z0-9]+", s)]: the maximal runs of letters and digits. *)
Fixpoint findall_alnum (s : string) : list string :=
  match s with
  | EmptyString => []
  | String c r =>
      if is_alnum c
      then if starts_alnum r
           then match findall_alnum r with
                | t :: ts => String c t :: ts
                | [] => [String c EmptyString]
                end
           else String c EmptyString :: findall_alnum r
      else findall_alnum r
  end.

(** [t.capitalize()] *)
Definition capitalize (t : string) : string :=
  match t with
  | EmptyString => EmptyString
  | String c r => String (upper_char c) (PyStr.lower r)
  end.

(** [sep.join(l)] *)
Fixpoint join (sep : string) (l : list string) : string :=
  match l with
  | [] => EmptyString
  | [x] => x
  | x :: r => String.append x (String.append sep (join sep r))
  end.

(** On ASCII keywords; Python's [str.lower] turns some characters outside
    ASCII into ASCII letters, which the model leaves as they are. *)
Definition _normalize_keyword_for_dbr (keyword : string) : string :=
  let tokenized := findall_alnum (PyStr.lower (PyStr.strip keyword)) in
  match tokenized with
  | [] => PyStr.strip keyword
  | _ => join "_" (map capitalize tokenized)
  end.

(** [s.rstrip("/")] *)
Fixpoint rstrip_slash (s : string) : string :=
  match s with
  | EmptyString => EmptyString
  | String c r =>
      match rstrip_slash r with
      | EmptyString => if Ascii.eqb c "/" then EmptyString else String c EmptyString
      | r' => String c r'
      end
  end.

Definition _localname (uri : string) : string :=
  if PyStr.truthy uri then PyStr.last_segment (rstrip_slash uri) else "".

(** [s.replace("_", " ")] *)
Fixpoint underscores_to_spaces (s : string) : string :=
  match s with
  | EmptyString => EmptyString
  | String c r =>
      String (if Ascii.eqb c "_" then " "%char else c) (underscores_to_spaces r)
  end.

(** [sub in s] *)
Fixpoint contains (sub s : string) : bool :=
  String.prefix sub s
  || match s with
     | EmptyString => false
     | String _ r => contains sub r
     end.

Definition WIKI_REL_LOCAL_PREFIX : string := "wikiPage".

Definition WIKI_REL_LOCAL_BLOCKLIST : list string :=
  [ "wikiPageWikiLink"; "wikiPageExternalLink"; "wikiPageRedirects";
    "wikiPageDisambiguates"; "wikiPageInterLanguageLink"; "wikiPageUsesTemplate";
    "wikiPageEditLink"; "wikiPageHistoryLink"; "wikiPageRevisionLink";
    "wikiPageWikiLinkText"; "wikiPageID"; "wikiPageRevisionID";
    "wikidataSplitIri"; "22-rdf-syntax-ns#type"; "rdf-schema#seeAlso" ].

Definition _is_wiki_relation (p_uri rel_local : string) : bool :=
  if negb (PyStr.truthy rel_local) then false
  else if bool_decide (rel_local ∈ WIKI_REL_LOCAL_BLOCKLIST) then true
  else if String.prefix WIKI_REL_LOCAL_PREFIX rel_local then true
  else contains "dbpedia.org/ontology/wikiPage" p_uri.

(** [urllib.parse.quote(s)]: letters, digits and the characters [_.-~/] are
    kept, every other byte becomes a percent sign and two hexadecimal digits. *)
Definition hex_digit (n : nat) : ascii :=
  nth n ["0"; "1"; "2"; "3"; "4"; "5"; "6"; "7"; "8"; "9";
         "A"; "B"; "C"; "D"; "E"; "F"]%char "0"%char.

Definition is_safe (c : ascii) : bool :=
  is_alnum c
  || existsb (Ascii.eqb c) ["_"; "."; "-"; "~"; "/"]%char.

Fixpoint quote (s : string) : string :=
  match s with
  | EmptyString => EmptyString
  | String c r =>
      if is_safe c then String c (quote r)
      else String "%" (String (hex_digit (nat_of_ascii c / 16))
                         (String (hex_digit (nat_of_ascii c mod 16)) (quote r)))
  end.

(** What the three requests give. *)
Inductive LookupOutcome :=
| LookupError                (* [requests.get] or [resp.json] raises *)
| LookupNotOk                (* [resp.ok] is false *)
| LookupJson (data : pyval).

Inductive AskOutcome :=
| AskError
| AskNotOk
| AskJson (res : pyval).

(** One row of the query result; [b.get(name, {}).get("value")] for each of the
    variables, and the type of the object. *)
Record Binding := mkBinding {
  p_value : option string;
  p_label : option string;
  o_value : option string;
  o_type : option string;
  o_label : option string
}.

Inductive SparqlOutcome :=
| SparqlError
| SparqlNotOk
| SparqlBindings (bindings : list Binding).

Record World := mkWorld {
  lookup_get : string -> LookupOutcome;   (* by keyword *)
  ask_get : string -> AskOutcome;         (* by URI *)
  select_get : string -> SparqlOutcome    (* by URI *)
}.

(** The value of [uri] after the loop over the keys [resource] and [uri] of
    one lookup result. *)
Definition doc_uri (r : list (string * pyval)) : option pyval :=
  let pick (key : string) :=
    match dict_get r key with
    | Some (PList (x :: _)) => Some x
    | Some (PStr s) => Some (PStr s)
    | _ => None
    end in
  match pick "resource" with
  | Some u => Some u
  | None => pick "uri"
  end.

(** [uri and isinstance(uri, str) and uri.startswith("http")] *)
Definition accepted_uri (u : option pyval) : option string :=
  match u with
  | Some (PStr s) => if PyStr.truthy s && String.prefix "http" s then Some s else None
  | _ => None
  end.

(** The loop over the lookup results; a result that is not a dict makes
    [r.get] raise, which ends the lookup without a URI. *)
Fixpoint first_uri (results : list pyval) : option string :=
  match results with
  | [] => None
  | PDict r :: rest =>
      match accepted_uri (doc_uri r) with
      | Some uri => Some uri
      | None => first_uri rest
      end
  | _ :: _ => None
  end.

(** [(resp.json() or {}).get("docs") or []], as the list the loop runs over;
    [None] when an exception ends the lookup. *)
Definition lookup_results (data : pyval) : option (list pyval) :=
  match (if py_truthy data then data else PDict []) with
  | PDict kv =>
      match dict_get kv "docs" with
      | Some v =>
          if py_truthy v
          then match py_iter v with
               | Ok l => Some l
               | Raise _ => None
               end
          else Some []
      | None => Some []
      end
  | _ => None
  end.

Definition _check_resource_exists (w : World) (uri : string) : bool :=
  match ask_get w uri with
  | AskJson (PDict kv) =>
      match dict_get kv "boolean" with
      | Some v => py_truthy v
      | None => false
      end
  | _ => false
  end.

Definition resource_prefix : string := "http://dbpedia.org/resource/".

Definition resolve_dbpedia_entity (w : World) (keyword : string) : option string :=
  match match lookup_get w keyword with
        | LookupJson data =>
            match lookup_results data with
            | Some results => first_uri results
            | None => None
            end
        | _ => None
        end with
  | Some uri => Some uri
  | None =>
      let local := _normalize_keyword_for_dbr keyword in
      let candidate := String.append resource_prefix (quote local) in
      if _check_resource_exists w candidate then Some candidate else None
  end.

(** [a or b] on strings, [a] possibly missing. *)
Definition or_str (a : option string) (b : string) : string :=
  match a with
  | Some s => if PyStr.truthy s then s else b
  | None => b
  end.

Definition relation_text (b : Binding) : string :=
  or_str (p_label b) (_localname (default "" (p_value b))).

Definition target_text (b : Binding) : string :=
  if String.eqb (default "" (o_type b)) "uri"
  then underscores_to_spaces (or_str (o_label b) (_localname (default "" (o_value b))))
  else or_str (o_label b) (default "" (o_value b)).

(** A binding that the two filters of the loop let through. *)
Definition passes (exclude_wiki : bool) (relations : option (list string))
    (b : Binding) : bool :=
  let p_uri := default "" (p_value b) in
  let rel_local := _localname p_uri in
  negb (exclude_wiki && _is_wiki_relation p_uri rel_local)
  && relation_allowed relations rel_local.

(** The loop over the bindings; [len] is [len(triples)]. *)
Fixpoint collect_bindings (exclude_wiki : bool) (relations : option (list string))
    (max_num : option Z) (source_label : string)
    (seen : gset (string * string * string)) (len : nat)
    (bindings : list Binding) : list Triple :=
  match bindings with
  | [] => []
  | b :: rest =>
      let p_uri := default "" (p_value b) in
      let rel_local := _localname p_uri in
      if exclude_wiki && _is_wiki_relation p_uri rel_local
      then collect_bindings exclude_wiki relations max_num source_label seen len rest
      else if match relations with
              | Some (r :: rs) => negb (bool_decide (rel_local ∈ r :: rs))
              | _ => false
              end
      then collect_bindings exclude_wiki relations max_num source_label seen len rest
      else
        let sig := (PyStr.lower source_label, relation_text b,
                    PyStr.lower (target_text b)) in
        if bool_decide (sig ∈ seen)
        then collect_bindings exclude_wiki relations max_num source_label seen len rest
        else
          {| source := source_label; relation := relation_text b;
             target := target_text b; source_graph := None; weight := None |}
          :: match max_num with
             | Some n =>
                 if (n <=? Z.of_nat (S len))%Z then []
                 else collect_bindings exclude_wiki relations max_num source_label
                        ({[sig]} ∪ seen) (S len) rest
             | None =>
                 collect_bindings exclude_wiki relations max_num source_label
                   ({[sig]} ∪ seen) (S len) rest
             end
  end.

Definition source_label_of (uri : string) : string :=
  underscores_to_spaces (_localname uri).

Definition fetch_dbpedia_triples (w : World) (keyword : string)
    (relations : option (list string)) (max_num : option Z) (exclude_wiki : bool)
  : list Triple :=
  match resolve_dbpedia_entity w keyword with
  | None => []
  | Some uri =>
      if negb (PyStr.truthy uri) then []
      else
        match select_get w uri with
        | SparqlBindings bindings =>
            collect_bindings exclude_wiki relations max_num (source_label_of uri)
              ∅ 0 bindings
        | _ => []
        end
  end.

(** The triple the loop builds for a binding. *)
Definition shaped_binding (source_label : string) (b : Binding) : Triple :=
  {| source := source_label; relation := relation_text b; target := target_text b;
     source_graph := None; weight := None |}.

(** Some character is a letter or a digit. *)
Definition has_alnum (s : string) : bool :=
  existsb is_alnum (list_ascii_of_string s).

(** Only letters, digits and underscores. *)
Definition is_word (s : string) : bool :=
  forallb (fun c => is_alnum c || Ascii.eqb c "_") (list_ascii_of_string s).

(** The entries of the blocklist that the prefix rule does not cover. *)
Definition blocklist_beyond_prefix : list string :=
  ["wikidataSplitIri"; "22-rdf-syntax-ns#type"; "rdf-schema#seeAlso"].

(** A world for the scenarios: the lookup finds nothing, the resource
    [New_York_City] exists, and it has four outgoing relations. *)
Definition new_york_uri : string := "http://dbpedia.org/resource/New_York_City".

Definition new_york : World :=
  {| lookup_get := fun _ => LookupJson (PDict [("docs", PList [])]);
     ask_get := fun uri =>
       AskJson (PDict [("boolean",
                        if String.eqb uri new_york_uri then PScalar true "True"
                        else PScalar false "False")]);
     select_get := fun uri =>
       if String.eqb uri new_york_uri
       then SparqlBindings
         [ {| p_value := Some "http://dbpedia.org/ontology/wikiPageWikiLink";
              p_label := None; o_value := Some "http://dbpedia.org/resource/Manhattan";
              o_type := Some "uri"; o_label := None |};
           {| p_value := Some "http://dbpedia.org/ontology/country";
              p_label := Some "country";
              o_value := Some "http://dbpedia.org/resource/United_States";
              o_type := Some "uri"; o_label := None |};
           {| p_value := Some "http://dbpedia.org/ontology/country";
              p_label := Some "country";
              o_value := Some "http://dbpedia.org/resource/United_states";
              o_type := Some "uri"; o_label := None |};
           {| p_value := Some "http://dbpedia.org/property/populationTotal";
              p_label := None; o_value := Some "8804190";
              o_type := Some "typed-literal"; o_label := None |} ]
       else SparqlBindings [] |}.

End Dbpedia.

(** A token: not empty, letters and digits only. *)
Definition is_token (t : string) : Prop :=
  t <> "" /\ forallb Dbpedia.is_alnum (list_ascii_of_string t) = true.

(** ** The term of a keyword in the Concept adapter's URL

    [quote] is the function of [urllib.parse] that both adapters import. *)

(** [s.replace(" ", "_")] *)
Fixpoint spaces_to_underscores (s : string) : string :=
  match s with
  | EmptyString => EmptyString
  | String c r =>
      String (if Ascii.eqb c " " then "_"%char else c) (spaces_to_underscores r)
  end.

Definition _norm_term (term : string) : string :=
  Dbpedia.quote (spaces_to_underscores (PyStr.lower (PyStr.strip term))).

(** Some character is white space. *)
Definition has_space (s : string) : bool :=
  existsb PyStr.isspace (list_ascii_of_string s).

(** The services in which the Entity adapter is the detailed one, called as
    the round calls it: no relation filter, wiki relations excluded. *)
Definition with_dbpedia (w : Dbpedia.World) (sv : Services) : Services :=
  {| openai_chat := openai_chat sv;
     conceptnet_get := conceptnet_get sv;
     dbpedia_triples := fun _ keyword max_num =>
       Dbpedia.fetch_dbpedia_triples w keyword None max_num true |}.

(** An Entity event holds what the service gave for its keyword and bound;
    [answered sv h h'] tells that for the events that lead from [h] to [h']. *)
Definition entity_from (sv : Services) (ev : Event) : Prop :=
  match ev with
  | EvEntity keyword max_num out =>
      exists h, out = dbpedia_triples sv h keyword max_num
  | _ => True
  end.

Definition answered (sv : Services) (h h' : History) : Prop :=
  exists evs, h' = evs ++ h /\ Forall (entity_from sv) evs.

(** One round on [new york city] with the adapter on the world [new_york]. *)
Definition new_york_round : Result (list Triple * list string) * History :=
  Eval vm_compute in
    _expand_once (with_dbpedia Dbpedia.new_york answering) main_config
      ["new york city"] [].

Definition new_york_round_edges : list Triple :=
  Eval vm_compute in
    match new_york_round with (Ok (es, _), _) => es | _ => [] end.

Definition new_york_round_frontier : list string :=
  Eval vm_compute in
    match new_york_round with (Ok (_, fr), _) => fr | _ => [] end.

Definition new_york_round_history : History :=
  Eval vm_compute in snd new_york_round.

Definition country_triple : Triple :=
  {| source := "New York City"; relation := "country"; target := "United States";
     source_graph := None; weight := None |}.

(** ** The rounds of a run

    [rounds_run sv cfg n queue h steps h'] tells that, from the queue [queue]
    and the history [h], the orchestrator's loop with a budget of [n] rounds
    ran the rounds whose edge lists are [steps], each on the frontier handed
    back by the one before it, and left the history [h']: it stops when the
    budget is used up or the queue is empty. *)
Inductive rounds_run (sv : Services) (cfg : Config)
  : nat -> list string -> History -> list (list Triple) -> History -> Prop :=
| run_budget queue h :
    rounds_run sv cfg 0 queue h [] h
| run_empty n h :
    rounds_run sv cfg n [] h [] h
| run_round n agent queue h es fr h1 steps h' :
    _expand_once sv cfg (agent :: queue) h = (Ok (es, fr), h1) ->
    rounds_run sv cfg n fr h1 steps h' ->
    rounds_run sv cfg (S n) (agent :: queue) h (es :: steps) h'.

(** ** The seed edges of a list of event records *)

(** The record holds the value [v] under one of the keys [keys]. *)
Definition holds (row : Row) (keys : list string) (v : string) : Prop :=
  exists k, k ∈ keys /\ dict_get row k = Some v.

(** The seed edge of an agent, a deontic and an action. *)
Definition seed_triple (a d c : string) : Triple :=
  {| source := _norm a; relation := _norm d; target := _norm c;
     source_graph := Some "eventic"; weight := None |}.

(** [o] is the seed edge of the record [row]. *)
Definition seed_of (row : Row) (o : Triple) : Prop :=
  exists a d c,
    holds row ["Agent"; "agent"; "Agent1"; "agent1"] a
    /\ holds row ["Deontic"; "deontic"] d
    /\ holds row ["Action"; "action"] c
    /\ o = seed_triple a d c.

(** [out] is a list of deduplicated seed edges of the records: its edges are
    seed edges of records, in the order of the records, with non-empty,
    normalised fields; no two of them agree on source and target up to case and
    on the relation; and every record that holds an agent, a deontic and an
    action that are not blank is represented. *)
Definition seeded (eventic_edges : list Row) (out : list Triple) : Prop :=
  (exists rows, rows `sublist_of` eventic_edges /\ Forall2 seed_of rows out)
  /\ Forall well_formed out
  /\ NoDup (map key3 out)
  /\ forall row a d c,
       row ∈ eventic_edges ->
       dict_get row "Agent" = Some a -> dict_get row "Deontic" = Some d ->
       dict_get row "Action" = Some c ->
       _norm a <> "" -> _norm d <> "" -> _norm c <> "" ->
       exists o, o ∈ out /\ key3 o = key3 (seed_triple a d c).

(** ** Names in the Concept adapter *)

(** [r] is what follows the last slash of [id]: the whole of [id] when it has
    no slash. *)
Definition after_last_slash (id r : string) : Prop :=
  no_slash r = true
  /\ exists p, id = (p ++ r)%string /\ (p = "" \/ exists q, p = (q ++ "/")%string).

(** [s] names the node: its label when it has one that is not empty, and what
    follows the last slash of its id otherwise. *)
Definition names_node (n : CNNode) (s : string) : Prop :=
  match label n with
  | Some (String c l) => s = String c l
  | _ => after_last_slash (default "" (at_id n)) s
  end.

(** ** ASCII strings *)

Definition is_ascii (s : string) : bool :=
  forallb (fun c => (nat_of_ascii c <? 128)%nat) (list_ascii_of_string s).

(** ** More scenarios *)

(** A record without an action, and a second record for [GDPR] that differs
    from [gdpr_event] in case and white space only. *)
Definition incomplete_event : Row := [("Agent", "Processor"); ("Deontic", "must")].

Definition gdpr_event_again : Row :=
  [("Agent", " gdpr"); ("Deontic", "must"); ("Action", "Protect personal  data")].

Definition four_events : list Row :=
  [gdpr_event; incomplete_event; controller_event; gdpr_event_again].

Definition four_events_graph : FusionGraph :=
  {| edges :=
       [ {| source := "GDPR"; relation := "must"; target := "protect personal data";
            source_graph := Some "eventic"; weight := None |};
         {| source := "Controller"; relation := "must";
            target := "delete personal data";
            source_graph := Some "eventic"; weight := None |} ] |}.

(** A record whose first agent-like key holds nothing. *)
Definition shadowed_agent_event : Row :=
  [("Agent", ""); ("agent1", "Processor"); ("Deontic", "must");
   ("Action", "inform the controller")].

Definition shadowed_agent_graph : FusionGraph :=
  {| edges :=
       [ {| source := "Processor"; relation := "must";
            target := "inform the controller";
            source_graph := Some "eventic"; weight := None |} ] |}.

(** A triple of the Concept adapter's answer for [GDPR]. *)
Definition gdpr_related : Triple :=
  {| source := "GDPR"; relation := "RelatedTo"; target := "data  protection";
     source_graph := None; weight := None |}.

Section NormFacts.
Import PyStr.

Lemma lstrip_head s : non_space (head (lstrip s)) = true.
Proof.
  induction s as [|c r IH]; simpl; [reflexivity|].
  destruct (isspace c) eqn:E; [exact IH|]. simpl. now rewrite E.
Qed.

Lemma rstrip_last s : non_space (last (rstrip s)) = true.
Proof.
  induction s as [|c r IH]; simpl; [reflexivity|].
  destruct (rstrip r) as [|d r'] eqn:E.
  - destruct (isspace c) eqn:Ec; simpl; [reflexivity|now rewrite Ec].
  - change (last (String c (String d r'))) with
      (match last (String d r') with None => Some c | Some x => Some x end).
    destruct (last (String d r')) eqn:El; [exact IH|].
    simpl in El. destruct (last r'); discriminate.
Qed.

Lemma rstrip_head s :
  non_space (head s) = true -> non_space (head (rstrip s)) = true.
Proof.
  destruct s as [|c r]; simpl; [reflexivity|]. intros Hc.
  destruct (rstrip r); [|exact Hc].
  destruct (isspace c) eqn:E; [reflexivity|]. simpl. now rewrite E.
Qed.

Lemma strip_trimmed s : is_trimmed (strip s) = true.
Proof.
  unfold is_trimmed, strip. apply andb_true_intro. split.
  - apply rstrip_head, lstrip_head.
  - apply rstrip_last.
Qed.

Lemma sub_ws_collapsed s :
  forall b, is_collapsed (sub_ws b s) = true
            /\ (b = true -> non_space (head (sub_ws b s)) = true).
Proof.
  induction s as [|c r IH]; intros b; simpl; [split; reflexivity|].
  destruct (isspace c) eqn:Ec.
  - destruct b.
    + apply IH.
    + destruct (IH true) as [H1 H2]. split; [|discriminate].
      simpl. rewrite H1, (H2 eq_refl). reflexivity.
  - destruct (IH false) as [H1 _]. simpl. rewrite Ec, H1. simpl.
    split; [reflexivity|]. intros _. reflexivity.
Qed.

Lemma sub_ws_head s :
  non_space (head s) = true -> non_space (head (sub_ws false s)) = true.
Proof.
  destruct s as [|c r]; simpl; [reflexivity|]. intros Hc.
  destruct (isspace c) eqn:E; [discriminate|]. simpl. now rewrite E.
Qed.

Lemma last_cons c r :
  last (String c r) = match last r with None => Some c | Some d => Some d end.
Proof. reflexivity. Qed.

Lemma last_None s : last s = None -> s = EmptyString.
Proof.
  destruct s as [|c r]; [reflexivity|]. rewrite last_cons.
  destruct (last r); discriminate.
Qed.

Lemma sub_ws_last s :
  forall b c, last s = Some c -> isspace c = false ->
              last (sub_ws b s) = Some c.
Proof.
  induction s as [|a r IH]; intros b c Hl Hc; [discriminate|].
  rewrite last_cons in Hl. destruct (last r) as [d|] eqn:El.
  - injection Hl as ->. simpl.
    destruct (isspace a); [destruct b|]; rewrite ?last_cons;
      rewrite (IH _ c eq_refl Hc); reflexivity.
  - injection Hl as ->. apply last_None in El. subst r. simpl.
    rewrite Hc. reflexivity.
Qed.

Lemma sub_ws_last_ok s :
  non_space (last s) = true -> non_space (last (sub_ws false s)) = true.
Proof.
  destruct (last s) as [c|] eqn:El; simpl.
  - intros Hc. apply negb_true_iff in Hc.
    rewrite (sub_ws_last s false c El Hc). simpl. now rewrite Hc.
  - intros _. apply last_None in El. subst s. reflexivity.
Qed.

(** The result of [_norm] is trimmed, with single spaces inside. *)
Lemma norm_trimmed s : is_trimmed (_norm s) = true.
Proof.
  pose proof (strip_trimmed s) as H. unfold is_trimmed in *.
  apply andb_prop in H. destruct H as [Hh Hl].
  unfold _norm, re_sub_ws. apply andb_true_intro. split.
  - now apply sub_ws_head.
  - now apply sub_ws_last_ok.
Qed.

Lemma norm_collapsed s : is_collapsed (_norm s) = true.
Proof. unfold _norm, re_sub_ws. apply sub_ws_collapsed. Qed.

Lemma lstrip_id s : non_space (head s) = true -> lstrip s = s.
Proof.
  destruct s as [|c r]; simpl; [reflexivity|]. intros Hc.
  apply negb_true_iff in Hc. now rewrite Hc.
Qed.

Lemma rstrip_id s : non_space (last s) = true -> rstrip s = s.
Proof.
  induction s as [|c r IH]; [reflexivity|]. rewrite last_cons. simpl.
  destruct (last r) as [d|] eqn:El.
  - intros Hd. rewrite IH by exact Hd. destruct r; [discriminate|reflexivity].
  - intros Hc. apply last_None in El. subst r. simpl.
    simpl in Hc. apply negb_true_iff in Hc. now rewrite Hc.
Qed.

Lemma sub_ws_id s :
  forall b, is_collapsed s = true ->
            (b = true -> non_space (head s) = true) ->
            sub_ws b s = s.
Proof.
  induction s as [|c r IH]; intros b Hc Hb; [reflexivity|].
  simpl in Hc. apply andb_prop in Hc. destruct Hc as [Hc Hr]. simpl.
  destruct (isspace c) eqn:Ec.
  - simpl in Hc. apply andb_prop in Hc. destruct Hc as [Hsp Hn].
    apply Ascii.eqb_eq in Hsp. subst c.
    destruct b.
    + specialize (Hb eq_refl). vm_compute in Hb. discriminate.
    + f_equal. apply IH; [exact Hr|]. intros _. exact Hn.
  - f_equal. apply IH; [exact Hr|discriminate].
Qed.

(** [_norm] is idempotent. *)
Lemma norm_idem s : _norm (_norm s) = _norm s.
Proof.
  pose proof (norm_trimmed s) as Ht. pose proof (norm_collapsed s) as Hc.
  unfold is_trimmed in Ht. apply andb_prop in Ht. destruct Ht as [Hh Hl].
  set (t := _norm s) in *. unfold _norm at 1, strip, re_sub_ws.
  rewrite (lstrip_id t) by exact Hh. rewrite (rstrip_id t) by exact Hl.
  apply sub_ws_id; [exact Hc|discriminate].
Qed.

End NormFacts.

Example norm_example : _norm "  Data   Subject " = "Data Subject".
Proof. reflexivity. Qed.

(** ** The Deduplicator *)

(** Membership goals over the sets of seen keys. *)
Ltac set_tac := set_unfold; intuition (eauto; congruence).

Section DedupFacts.

Implicit Types (e o : Triple) (seen : gset Sig) (l : list Triple).

Lemma dedup_loop_cons seen e l :
  dedup_loop seen (e :: l) =
    if has_empty_field e then dedup_loop seen l
    else if bool_decide (edge_sig e ∈ seen) then dedup_loop seen l
         else canonical e :: dedup_loop ({[edge_sig e]} ∪ seen) l.
Proof. reflexivity. Qed.

Lemma edge_sig_canonical e : edge_sig (canonical e) = edge_sig e.
Proof. unfold edge_sig, canonical. simpl. now rewrite !norm_idem. Qed.

Lemma has_empty_field_canonical e :
  has_empty_field (canonical e) = has_empty_field e.
Proof. unfold has_empty_field, canonical. simpl. now rewrite !norm_idem. Qed.

Lemma canonical_idem e : canonical (canonical e) = canonical e.
Proof. unfold canonical. simpl. now rewrite !norm_idem. Qed.

(** Every edge of the result is the canonical form of an input edge that passed
    the guard and whose key had not been seen. *)
Lemma dedup_loop_elem l : forall seen o,
  o ∈ dedup_loop seen l ->
  exists e, e ∈ l /\ has_empty_field e = false /\ o = canonical e
            /\ (edge_sig e ∉ seen).
Proof.
  induction l as [|e l IH]; intros seen o Ho.
  - simpl in Ho. inversion Ho.
  - rewrite dedup_loop_cons in Ho.
    destruct (has_empty_field e) eqn:He.
    + destruct (IH _ _ Ho) as (x & ? & ? & ? & ?). exists x.
      split; [now right|auto].
    + case_bool_decide as Hs.
      * destruct (IH _ _ Ho) as (x & ? & ? & ? & ?). exists x.
        split; [now right|auto].
      * apply elem_of_cons in Ho. destruct Ho as [->|Ho].
        -- exists e. split; [left|auto].
        -- destruct (IH _ _ Ho) as (x & ? & ? & ? & Hx). exists x.
           split; [now right|]. repeat split; auto. set_tac.
Qed.

Lemma dedup_loop_NoDup l : forall seen,
  NoDup (map edge_sig (dedup_loop seen l)).
Proof.
  induction l as [|e l IH]; intros seen; [constructor|].
  rewrite dedup_loop_cons. destruct (has_empty_field e); [apply IH|].
  case_bool_decide as Hs; [apply IH|]. simpl. constructor; [|apply IH].
  rewrite edge_sig_canonical. intros Hin.
  apply list_elem_of_fmap in Hin. destruct Hin as (o & Ho & Hin).
  apply dedup_loop_elem in Hin. destruct Hin as (x & _ & _ & -> & Hx).
  rewrite edge_sig_canonical in Ho. set_tac.
Qed.

(** An edge that passes the guard is represented in the result, unless its key
    was seen before. *)
Lemma dedup_loop_complete l : forall seen e,
  e ∈ l -> has_empty_field e = false -> edge_sig e ∉ seen ->
  exists o, o ∈ dedup_loop seen l /\ edge_sig o = edge_sig e.
Proof.
  induction l as [|x l IH]; intros seen e Hin He Hs; [inversion Hin|].
  rewrite dedup_loop_cons. apply elem_of_cons in Hin.
  destruct (decide (edge_sig x = edge_sig e)) as [Heq|Hne].
  - destruct (has_empty_field x) eqn:Hx.
    + destruct Hin as [->|Hin]; [congruence|]. now apply IH.
    + rewrite bool_decide_eq_false_2 by (rewrite Heq; exact Hs).
      exists (canonical x). split; [left|]. now rewrite edge_sig_canonical.
  - destruct Hin as [->|Hin]; [congruence|].
    destruct (has_empty_field x); [now apply IH|].
    case_bool_decide as Hd; [now apply IH|].
    destruct (IH ({[edge_sig x]} ∪ seen) e Hin He) as (o & Ho & Hk);
      [set_tac|].
    exists o. split; [now right|exact Hk].
Qed.

(** The retained edge is the canonical form of the first occurrence. *)
Lemma dedup_loop_first l1 : forall seen e l2,
  (forall x, x ∈ l1 -> edge_sig x <> edge_sig e) ->
  has_empty_field e = false -> edge_sig e ∉ seen ->
  canonical e ∈ dedup_loop seen (l1 ++ e :: l2).
Proof.
  induction l1 as [|x l1 IH]; intros seen e l2 Hl1 He Hs.
  - simpl app. rewrite dedup_loop_cons, He.
    rewrite bool_decide_eq_false_2 by exact Hs. left.
  - change ((x :: l1) ++ e :: l2)%list with (x :: (l1 ++ e :: l2))%list.
    rewrite dedup_loop_cons.
    assert (Hx : edge_sig x <> edge_sig e) by (apply Hl1; left).
    assert (Hl1' : forall y, y ∈ l1 -> edge_sig y <> edge_sig e)
      by (intros y Hy; apply Hl1; now right).
    destruct (has_empty_field x); [now apply IH|].
    case_bool_decide as Hd; [now apply IH|].
    right. apply IH; [exact Hl1'|exact He|set_tac].
Qed.

Lemma dedup_loop_app l1 : forall seen l2,
  dedup_loop seen (l1 ++ l2) =
    (dedup_loop seen l1
      ++ dedup_loop (list_to_set (map edge_sig (dedup_loop seen l1)) ∪ seen) l2)%list.
Proof.
  induction l1 as [|x l1 IH]; intros seen l2.
  - simpl. f_equal. apply set_eq. intros k. set_tac.
  - change ((x :: l1) ++ l2)%list with (x :: (l1 ++ l2))%list.
    rewrite !dedup_loop_cons. destruct (has_empty_field x); [apply IH|].
    case_bool_decide as Hd; [apply IH|].
    rewrite IH. simpl. rewrite edge_sig_canonical. do 3 f_equal.
    apply set_eq. intros k. set_tac.
Qed.


Lemma truthy_nonempty s : PyStr.truthy s = true <-> s <> "".
Proof. destruct s; simpl; split; congruence. Qed.

Lemma canonical_well_formed e :
  has_empty_field e = false -> well_formed (canonical e).
Proof.
  unfold has_empty_field, well_formed, canonical. simpl. intros H.
  apply orb_false_elim in H. destruct H as [H Ht].
  apply orb_false_elim in H. destruct H as [Hs Hr].
  apply negb_false_iff in Hs, Hr, Ht.
  rewrite truthy_nonempty in Hs, Hr, Ht.
  repeat split; auto using norm_trimmed, norm_collapsed.
Qed.

Lemma dedup_edges_well_formed l : Forall well_formed (_dedup_edges l).
Proof.
  apply Forall_forall. intros o Ho. apply dedup_loop_elem in Ho.
  destruct Ho as (e & _ & He & -> & _). now apply canonical_well_formed.
Qed.

End DedupFacts.

(** ** Computations *)

Lemma bind_Ok {A B : Type} (c : M A) (k : A -> M B) h b h' :
  bind c k h = (Ok b, h') ->
  exists a h1, c h = (Ok a, h1) /\ k a h1 = (Ok b, h').
Proof.
  unfold bind. destruct (c h) as [[a|e] h1]; intros H; [eauto|discriminate].
Qed.

Lemma ret_Ok {A : Type} (a b : A) h h' :
  ret a h = (Ok b, h') -> b = a /\ h' = h.
Proof. unfold ret. intros H. injection H as <- <-. auto. Qed.

Lemma lift_Ok {A : Type} (r : Result A) a h h' :
  lift r h = (Ok a, h') -> r = Ok a /\ h' = h.
Proof. unfold lift. intros H. injection H as -> <-. auto. Qed.

(** ** The round, read off the history *)


Lemma extends_refl cfg acc h : extends cfg acc h acc h.
Proof. exists []. simpl. now rewrite !app_nil_r. Qed.

Lemma extends_trans cfg acc0 h0 acc1 h1 acc2 h2 :
  extends cfg acc0 h0 acc1 h1 -> extends cfg acc1 h1 acc2 h2 ->
  extends cfg acc0 h0 acc2 h2.
Proof.
  intros (e1 & -> & Ha & Hb) (e2 & -> & Hc & Hd). exists (e2 ++ e1).
  unfold chronological in *.
  rewrite rev_app_distr, !flat_map_app, Hc, Hd, Ha, Hb, <- !app_assoc.
  auto.
Qed.

Lemma extends_one cfg acc h ev :
  extends cfg acc h
    (fst acc ++ collected cfg ev, snd acc ++ enqueued cfg ev) (ev :: h).
Proof. exists [ev]. simpl. now rewrite !app_nil_r. Qed.

Section RunFacts.

Context (sv : Services).

Lemma chat_Ok req h text h' :
  chat sv req h = (Ok text, h') ->
  openai_chat sv h req = ChatContent text
  /\ h' = EvChat req (ChatContent text) :: h.
Proof.
  unfold chat. destruct (openai_chat sv h req) as [|t]; intros H;
    [discriminate|]. injection H as -> <-. auto.
Qed.

Lemma build_term_definition_triples_Ok keyword model h l h' :
  build_term_definition_triples sv keyword model h = (Ok l, h') ->
  exists text,
    openai_chat sv h (DefinePrompt model keyword) = ChatContent text
    /\ l = [pinned keyword (_coerce_single_triple text keyword)]
    /\ h' = EvChat (DefinePrompt model keyword) (ChatContent text) :: h.
Proof.
  unfold build_term_definition_triples. intros H.
  apply bind_Ok in H. destruct H as (text & h1 & Hc & H).
  apply chat_Ok in Hc. destruct Hc as [Hc ->].
  apply ret_Ok in H. destruct H as [-> ->]. eauto.
Qed.

Lemma concept_block cfg agent acc h acc' h' :
  (c_tris <- fetch_conceptnet_triples sv agent None
               (concept_min_weight cfg) (concept_max cfg) ;;
   ret (fst acc ++ map (tagged "concept") c_tris,
        snd acc ++ map target c_tris))%py h = (Ok acc', h') ->
  extends cfg acc h acc' h'.
Proof.
  intros H. apply bind_Ok in H. destruct H as (c & h1 & Hf & H).
  apply ret_Ok in H. destruct H as [-> ->].
  unfold fetch_conceptnet_triples in Hf.
  destruct (conceptnet_get sv h agent) as [|es] eqn:E;
    injection Hf as <- <-;
    [apply (extends_one cfg acc h (EvConcept agent HttpError))
    |apply (extends_one cfg acc h (EvConcept agent (HttpJson es)))].
Qed.

Lemma entity_block cfg agent acc h acc' h' :
  (e_tris <- fetch_dbpedia_triples sv agent (entity_max cfg) ;;
   ret (fst acc ++ map (tagged "entity") e_tris,
        snd acc ++ map target e_tris))%py h = (Ok acc', h') ->
  extends cfg acc h acc' h'.
Proof.
  intros H. apply bind_Ok in H. destruct H as (c & h1 & Hf & H).
  apply ret_Ok in H. destruct H as [-> ->].
  unfold fetch_dbpedia_triples in Hf. injection Hf as <- <-.
  apply (extends_one cfg acc h (EvEntity agent (entity_max cfg) _)).
Qed.

Lemma tdg_block cfg agent acc h acc' h' :
  (tdg_tris <- build_term_definition_triples sv agent (model cfg) ;;
   if include_tdg_edges cfg
   then ret (fst acc ++ map (tagged "term_definition") tdg_tris, snd acc)
   else ret acc)%py h = (Ok acc', h') ->
  extends cfg acc h acc' h'.
Proof.
  intros H. apply bind_Ok in H. destruct H as (c & h1 & Hf & H).
  apply build_term_definition_triples_Ok in Hf.
  destruct Hf as (text & Hc & -> & ->).
  exists [EvChat (DefinePrompt (model cfg) agent) (ChatContent text)].
  destruct (include_tdg_edges cfg) eqn:Ei; apply ret_Ok in H;
    destruct H as [-> ->]; simpl; rewrite Ei; simpl;
    rewrite ?app_nil_r; auto.
Qed.

Lemma expand_agent_extends cfg agent acc h acc' h' :
  expand_agent sv cfg agent acc h = (Ok acc', h') -> extends cfg acc h acc' h'.
Proof.
  unfold expand_agent. intros H.
  apply bind_Ok in H. destruct H as (acc1 & h1 & H1 & H).
  apply bind_Ok in H. destruct H as (acc2 & h2 & H2 & H3).
  apply extends_trans with acc1 h1; [|apply extends_trans with acc2 h2].
  - destruct (use_concept_graph cfg); [now apply concept_block with agent|].
    apply ret_Ok in H1. destruct H1 as [-> ->]. apply extends_refl.
  - destruct (use_entity_graph cfg); [now apply entity_block with agent|].
    apply ret_Ok in H2. destruct H2 as [-> ->]. apply extends_refl.
  - destruct (use_term_definition_graph cfg); [now apply tdg_block with agent|].
    apply ret_Ok in H3. destruct H3 as [-> ->]. apply extends_refl.
Qed.

Lemma expand_agents_extends cfg hard_agents : forall acc h acc' h',
  expand_agents sv cfg hard_agents acc h = (Ok acc', h') ->
  extends cfg acc h acc' h'.
Proof.
  induction hard_agents as [|agent rest IH]; intros acc h acc' h' H.
  - apply ret_Ok in H. destruct H as [-> ->]. apply extends_refl.
  - simpl in H. apply bind_Ok in H. destruct H as (acc1 & h1 & H1 & H).
    apply extends_trans with acc1 h1; [now apply expand_agent_extends with agent|].
    now apply IH.
Qed.

End RunFacts.

(** ** The Relevance Filter *)


Lemma cand_map_foldl cands : forall (m : gmap string string) k c,
  foldl (fun m c => <[PyStr.lower c := c]> m) m cands !! k = Some c ->
  m !! k = Some c \/ (c ∈ cands /\ PyStr.lower c = k).
Proof.
  induction cands as [|a l IH]; intros m k c H; [now left|].
  simpl in H. apply IH in H. destruct H as [H|[H1 H2]].
  - destruct (decide (PyStr.lower a = k)) as [<-|Hne].
    + rewrite lookup_insert_eq in H. injection H as <-. right. split; [left|auto].
    + rewrite lookup_insert_ne in H by exact Hne. now left.
  - right. split; [now right|exact H2].
Qed.

Lemma cand_map_lookup cands k c :
  cand_map_of cands !! k = Some c -> c ∈ cands /\ PyStr.lower c = k.
Proof.
  unfold cand_map_of. intros H. apply cand_map_foldl in H.
  destruct H as [H|H]; [|exact H]. rewrite lookup_empty in H. discriminate.
Qed.

Lemma pick_loop_cons cand_map seen t rest :
  pick_loop cand_map seen (t :: rest) =
    match cand_map !! keep_key t with
    | Some c =>
        if bool_decide (keep_key t ∈ seen) then pick_loop cand_map seen rest
        else c :: pick_loop cand_map ({[keep_key t]} ∪ seen) rest
    | None => pick_loop cand_map seen rest
    end.
Proof. reflexivity. Qed.

Lemma pick_loop_elem cand_map keep : forall seen c,
  c ∈ pick_loop cand_map seen keep ->
  exists t, t ∈ keep /\ cand_map !! keep_key t = Some c /\ (keep_key t ∉ seen).
Proof.
  induction keep as [|t rest IH]; intros seen c Hc; [inversion Hc|].
  rewrite pick_loop_cons in Hc.
  destruct (cand_map !! keep_key t) as [c0|] eqn:E.
  - case_bool_decide as Hs.
    + destruct (IH _ _ Hc) as (x & ? & ? & ?). exists x.
      split; [now right|auto].
    + apply elem_of_cons in Hc. destruct Hc as [->|Hc].
      * exists t. split; [left|auto].
      * destruct (IH _ _ Hc) as (x & ? & ? & Hx). exists x.
        split; [now right|]. split; [auto|]. set_tac.
  - destruct (IH _ _ Hc) as (x & ? & ? & ?). exists x. split; [now right|auto].
Qed.

(** The picked candidates follow the order of the [keep] list. *)
Lemma pick_loop_order cand_map keep : forall seen,
  (forall k c, cand_map !! k = Some c -> PyStr.lower c = k) ->
  map PyStr.lower (pick_loop cand_map seen keep) `sublist_of` map keep_key keep.
Proof.
  intros seen Hm. revert seen.
  induction keep as [|t rest IH]; intros seen; [constructor|].
  rewrite pick_loop_cons. simpl.
  destruct (cand_map !! keep_key t) as [c0|] eqn:E.
  - case_bool_decide as Hs; [apply sublist_cons, IH|].
    simpl. rewrite (Hm _ _ E). apply sublist_skip, IH.
  - apply sublist_cons, IH.
Qed.

Lemma pick_loop_NoDup cand_map keep : forall seen,
  (forall k c, cand_map !! k = Some c -> PyStr.lower c = k) ->
  NoDup (map PyStr.lower (pick_loop cand_map seen keep)).
Proof.
  intros seen Hm. revert seen.
  induction keep as [|t rest IH]; intros seen; [constructor|].
  rewrite pick_loop_cons.
  destruct (cand_map !! keep_key t) as [c0|] eqn:E; [|apply IH].
  case_bool_decide as Hs; [apply IH|].
  simpl. constructor; [|apply IH]. rewrite (Hm _ _ E). intros Hin.
  apply list_elem_of_fmap in Hin. destruct Hin as (c & Hk & Hin).
  apply pick_loop_elem in Hin. destruct Hin as (x & _ & Hx & Hns).
  rewrite (Hm _ _ Hx) in Hk. set_tac.
Qed.

(** ** The next frontier *)

Lemma next_frontier_cons cur seen x rest :
  next_frontier cur seen (x :: rest) =
    if negb (PyStr.truthy (_norm x)) then next_frontier cur seen rest
    else if bool_decide (PyStr.lower (_norm x) ∈ cur)
            || bool_decide (PyStr.lower (_norm x) ∈ seen)
         then next_frontier cur seen rest
         else _norm x :: next_frontier cur ({[PyStr.lower (_norm x)]} ∪ seen) rest.
Proof. reflexivity. Qed.

Lemma next_frontier_elem cur queue : forall seen t,
  t ∈ next_frontier cur seen queue ->
  exists x, x ∈ queue /\ t = _norm x /\ t <> ""
            /\ (PyStr.lower t ∉ cur) /\ (PyStr.lower t ∉ seen).
Proof.
  induction queue as [|x rest IH]; intros seen t Ht; [inversion Ht|].
  rewrite next_frontier_cons in Ht.
  destruct (PyStr.truthy (_norm x)) eqn:Etr; simpl in Ht.
  - destruct (bool_decide (PyStr.lower (_norm x) ∈ cur)) eqn:Ec; simpl in Ht.
    + destruct (IH _ _ Ht) as (y & ? & ? & ? & ? & ?). exists y.
      split; [now right|auto].
    + case_bool_decide as Hs.
      * destruct (IH _ _ Ht) as (y & ? & ? & ? & ? & ?). exists y.
        split; [now right|auto].
      * apply elem_of_cons in Ht. destruct Ht as [->|Ht].
        -- exists x. split; [left|]. split; [reflexivity|].
           split; [now apply truthy_nonempty|].
           split; [now apply bool_decide_eq_false in Ec|exact Hs].
        -- destruct (IH _ _ Ht) as (y & ? & ? & ? & ? & Hy). exists y.
           split; [now right|]. repeat split; auto. set_tac.
  - destruct (IH _ _ Ht) as (y & ? & ? & ? & ? & ?). exists y.
    split; [now right|auto].
Qed.

Lemma next_frontier_NoDup cur queue : forall seen,
  NoDup (map PyStr.lower (next_frontier cur seen queue)).
Proof.
  induction queue as [|x rest IH]; intros seen; [constructor|].
  rewrite next_frontier_cons.
  destruct (negb (PyStr.truthy (_norm x))); [apply IH|].
  destruct (bool_decide (PyStr.lower (_norm x) ∈ cur)
            || bool_decide (PyStr.lower (_norm x) ∈ seen)); [apply IH|].
  simpl. constructor; [|apply IH]. intros Hin.
  apply list_elem_of_fmap in Hin. destruct Hin as (t & Hk & Hin).
  apply next_frontier_elem in Hin. destruct Hin as (y & _ & _ & _ & _ & Hs).
  rewrite <- Hk in Hs. set_tac.
Qed.

Lemma in_flat_map_events {A : Type} (f : Event -> list A) (evs : History) x :
  x ∈ flat_map f (chronological evs) -> exists ev, ev ∈ evs /\ x ∈ f ev.
Proof.
  unfold chronological. rewrite list_elem_of_In, in_flat_map.
  intros (ev & Hev & Hx). exists ev. rewrite !list_elem_of_In.
  split; [now apply in_rev|exact Hx].
Qed.

Lemma flat_map_events_in {A : Type} (f : Event -> list A) (evs : History) ev x :
  ev ∈ evs -> x ∈ f ev -> x ∈ flat_map f (chronological evs).
Proof.
  unfold chronological. rewrite !list_elem_of_In, in_flat_map.
  intros Hev Hx. exists ev. split; [now apply in_rev in Hev|exact Hx].
Qed.

(** ** The round and the orchestrator *)

Section RoundFacts.

Context (sv : Services).

(** What a returning filter call has done. *)
Lemma pick_hard_agents_Ok cands model h out h' :
  _pick_hard_agents_via_gpt sv cands model h = (Ok out, h') ->
  (cands = [] /\ out = [] /\ h' = h)
  \/ exists text data keep items,
       openai_chat sv h (FilterPrompt model cands) = ChatContent text
       /\ filter_data text = Ok data /\ keep_of data = Ok keep
       /\ py_iter keep = Ok items
       /\ out = pick_loop (cand_map_of cands) ∅ items
       /\ h' = EvChat (FilterPrompt model cands) (ChatContent text) :: h.
Proof.
  destruct cands as [|c0 cs]; simpl; intros H.
  - apply ret_Ok in H. destruct H as [-> ->]. now left.
  - right.
    apply bind_Ok in H. destruct H as (text & h1 & Hc & H).
    apply chat_Ok in Hc. destruct Hc as [Hc ->].
    apply bind_Ok in H. destruct H as (data & h2 & Hd & H).
    apply lift_Ok in Hd. destruct Hd as [Hd ->].
    apply bind_Ok in H. destruct H as (keep & h3 & Hk & H).
    apply lift_Ok in Hk. destruct Hk as [Hk ->].
    apply bind_Ok in H. destruct H as (items & h4 & Hi & H).
    apply lift_Ok in Hi. destruct Hi as [Hi ->].
    apply ret_Ok in H. destruct H as [-> ->].
    exists text, data, keep, items. repeat split; auto.
Qed.

Lemma pick_hard_agents_extends cfg cands model h out h' acc :
  _pick_hard_agents_via_gpt sv cands model h = (Ok out, h') ->
  extends cfg acc h acc h'.
Proof.
  intros H. apply pick_hard_agents_Ok in H.
  destruct H as [(_ & _ & ->)|(text & _ & _ & _ & _ & _ & _ & _ & _ & ->)].
  - apply extends_refl.
  - exists [EvChat (FilterPrompt model cands) (ChatContent text)].
    simpl. now rewrite !app_nil_r.
Qed.

(** A returning round, in terms of the calls it made. *)
Lemma expand_once_Ok cfg agent_list h es fr h' :
  _expand_once sv cfg agent_list h = (Ok (es, fr), h') ->
  exists evs,
    h' = evs ++ h
    /\ es = _dedup_edges (flat_map (collected cfg) (chronological evs))
    /\ fr = next_frontier (list_to_set (map PyStr.lower agent_list)) ∅
              (flat_map (enqueued cfg) (chronological evs)).
Proof.
  unfold _expand_once. intros H.
  apply bind_Ok in H. destruct H as (hard & h1 & Hp & H).
  apply bind_Ok in H. destruct H as (acc & h2 & He & H).
  apply ret_Ok in H. destruct H as [H ->]. injection H as -> ->.
  apply (pick_hard_agents_extends cfg _ _ _ _ _ ([], [])) in Hp.
  apply expand_agents_extends in He.
  destruct (extends_trans _ _ _ _ _ _ _ Hp He) as (evs & -> & Ha & Hb).
  exists evs. simpl in Ha, Hb. rewrite Ha, Hb. auto.
Qed.

(** The edges a returning round hands back have passed the Deduplicator. *)
Lemma expand_once_edges cfg agent_list h es fr h' :
  _expand_once sv cfg agent_list h = (Ok (es, fr), h') ->
  exists raw, es = _dedup_edges raw.
Proof.
  intros H. apply expand_once_Ok in H. destruct H as (evs & _ & -> & _). eauto.
Qed.


Lemma rounds_loop_Ok cfg n : forall queue acc h acc' h',
  rounds_loop sv cfg n queue acc h = (Ok acc', h') ->
  exists steps, acc' = acc ++ concat steps /\ round_edges sv cfg steps.
Proof.
  induction n as [|n IH]; intros queue acc h acc' h' H.
  - apply ret_Ok in H. destruct H as [-> ->].
    exists []. simpl. rewrite app_nil_r. split; [auto|constructor].
  - simpl in H. destruct queue as [|a q].
    + apply ret_Ok in H. destruct H as [-> ->].
      exists []. simpl. rewrite app_nil_r. split; [auto|constructor].
    + apply bind_Ok in H. destruct H as ([s fr] & h1 & Hs & H).
      apply IH in H. destruct H as (steps & -> & Hst).
      exists (s :: steps). simpl. rewrite <- app_assoc. split; [auto|].
      constructor; [|exact Hst]. eauto.
Qed.

Lemma build_fusion_graph_Ok eventic_edges rounds cfg h g h' :
  build_fusion_graph sv eventic_edges rounds cfg h = (Ok g, h') ->
  exists steps,
    edges g = _dedup_edges (_eventic_to_triples eventic_edges ++ concat steps)
    /\ round_edges sv cfg steps.
Proof.
  unfold build_fusion_graph. intros H.
  apply bind_Ok in H. destruct H as (acc & h1 & Hr & H).
  apply ret_Ok in H. destruct H as [-> ->].
  apply rounds_loop_Ok in Hr. destruct Hr as (steps & -> & Hst).
  exists steps. auto.
Qed.

(** The rounds the loop runs, one after the other. *)
Lemma rounds_loop_run cfg n : forall queue acc h acc' h',
  rounds_loop sv cfg n queue acc h = (Ok acc', h') ->
  exists steps,
    rounds_run sv cfg n queue h steps h' /\ acc' = acc ++ concat steps.
Proof.
  induction n as [|n IH]; intros queue acc h acc' h' H.
  - apply ret_Ok in H. destruct H as [-> ->].
    exists []. simpl. rewrite app_nil_r. split; [constructor|reflexivity].
  - simpl in H. destruct queue as [|a q].
    + apply ret_Ok in H. destruct H as [-> ->].
      exists []. simpl. rewrite app_nil_r. split; [constructor|reflexivity].
    + apply bind_Ok in H. destruct H as ([s fr] & h1 & Hs & H).
      apply IH in H. destruct H as (steps & Hrun & ->).
      exists (s :: steps). simpl. rewrite <- app_assoc.
      split; [|reflexivity]. now apply run_round with fr h1.
Qed.

(** They are determined by the budget, the queue and the history. *)
Lemma rounds_run_unique cfg n queue h steps h' :
  rounds_run sv cfg n queue h steps h' ->
  forall steps2 h2,
    rounds_run sv cfg n queue h steps2 h2 -> steps2 = steps /\ h2 = h'.
Proof.
  induction 1 as [queue h|n h|n a queue h es fr h1 steps h' Hs Hrun IH];
    intros steps2 h2 H2.
  - inversion H2; subst; auto.
  - inversion H2; subst; auto.
  - inversion H2 as [| |n0 a0 q0 h0 es2 fr2 h12 st2 h2' Hs2 Hrun2]; subst.
    rewrite Hs in Hs2. injection Hs2 as <- <- <-.
    destruct (IH _ _ Hrun2) as [-> ->]. auto.
Qed.

Lemma rounds_run_round_edges cfg n queue h steps h' :
  rounds_run sv cfg n queue h steps h' -> round_edges sv cfg steps.
Proof.
  unfold round_edges.
  induction 1 as [queue h|n h|n a queue h es fr h1 steps h' Hs Hrun IH];
    [constructor|constructor|].
  constructor; [|exact IH]. eauto.
Qed.

Lemma build_fusion_graph_run eventic_edges rounds cfg h g h' :
  build_fusion_graph sv eventic_edges rounds cfg h = (Ok g, h') ->
  exists steps,
    rounds_run sv cfg (Z.to_nat (Z.max 0 rounds))
      (_extract_agents_from_eventic eventic_edges) h steps h'
    /\ edges g = _dedup_edges (_eventic_to_triples eventic_edges ++ concat steps).
Proof.
  unfold build_fusion_graph. intros H.
  apply bind_Ok in H. destruct H as (acc & h1 & Hr & H).
  apply ret_Ok in H. destruct H as [-> ->].
  apply rounds_loop_run in Hr. destruct Hr as (steps & Hrun & ->).
  exists steps. auto.
Qed.

End RoundFacts.

(** ** Runs that return

    When the chat model answers, nothing raises: the failures of the Concept
    and of the Entity source are absorbed by their adapters. *)

Section Returns.

Context (sv : Services) (Hsv : model_answers sv).

Lemma pick_hard_agents_returns cands model h :
  exists out h', _pick_hard_agents_via_gpt sv cands model h = (Ok out, h').
Proof.
  destruct cands as [|c cs]; [simpl; unfold ret; eauto|].
  destruct (Hsv h (FilterPrompt model (c :: cs))) as (text & Hc & Hok).
  destruct (Hok _ _ eq_refl) as (data & keep & items & Hd & Hk & Hi).
  unfold _pick_hard_agents_via_gpt, bind, chat, lift, ret.
  rewrite Hc, Hd, Hk, Hi. eauto.
Qed.

Lemma build_term_definition_triples_returns keyword model h :
  exists l h', build_term_definition_triples sv keyword model h = (Ok l, h').
Proof.
  destruct (Hsv h (DefinePrompt model keyword)) as (text & Hc & _).
  unfold build_term_definition_triples, bind, chat, ret. rewrite Hc. eauto.
Qed.

Lemma expand_agent_returns cfg agent acc h :
  exists acc' h', expand_agent sv cfg agent acc h = (Ok acc', h').
Proof.
  unfold expand_agent, bind.
  destruct (use_concept_graph cfg).
  - unfold fetch_conceptnet_triples at 1.
    destruct (conceptnet_get sv h agent); unfold ret at 1;
      (destruct (use_entity_graph cfg);
       [unfold fetch_dbpedia_triples at 1, ret at 1|unfold ret at 1]);
      (destruct (use_term_definition_graph cfg); [|unfold ret; eauto]);
      match goal with
      | |- context [build_term_definition_triples sv agent ?m ?h0] =>
          destruct (build_term_definition_triples_returns agent m h0)
            as (l & h1 & ->)
      end;
      destruct (include_tdg_edges cfg); unfold ret; eauto.
  - unfold ret at 1.
    (destruct (use_entity_graph cfg);
     [unfold fetch_dbpedia_triples at 1, ret at 1|unfold ret at 1]);
    (destruct (use_term_definition_graph cfg); [|unfold ret; eauto]);
    match goal with
    | |- context [build_term_definition_triples sv agent ?m ?h0] =>
        destruct (build_term_definition_triples_returns agent m h0)
          as (l & h1 & ->)
    end;
    destruct (include_tdg_edges cfg); unfold ret; eauto.
Qed.

Lemma expand_agents_returns cfg hard_agents : forall acc h,
  exists acc' h', expand_agents sv cfg hard_agents acc h = (Ok acc', h').
Proof.
  induction hard_agents as [|agent rest IH]; intros acc h; simpl.
  - unfold ret. eauto.
  - unfold bind.
    destruct (expand_agent_returns cfg agent acc h) as (acc1 & h1 & ->).
    apply IH.
Qed.

Lemma expand_once_returns cfg agent_list h :
  exists step h', _expand_once sv cfg agent_list h = (Ok step, h').
Proof.
  unfold _expand_once, bind.
  destruct (pick_hard_agents_returns agent_list (model cfg) h) as (out & h1 & ->).
  match goal with
  | |- context [expand_agents sv cfg ?l ?a ?h0] =>
      destruct (expand_agents_returns cfg l a h0) as (acc & h2 & ->)
  end.
  unfold ret. eauto.
Qed.

Lemma rounds_loop_returns cfg n : forall queue acc h,
  exists acc' h', rounds_loop sv cfg n queue acc h = (Ok acc', h').
Proof.
  induction n as [|n IH]; intros queue acc h; simpl; [unfold ret; eauto|].
  destruct queue as [|a q]; [unfold ret; eauto|].
  unfold bind.
  destruct (expand_once_returns cfg (a :: q) h) as (step & h1 & ->).
  apply IH.
Qed.

(** With an answering chat model the orchestrator returns a graph, whatever
    the Concept and the Entity source do. *)
Lemma build_fusion_graph_returns eventic_edges rounds cfg h :
  exists g h', build_fusion_graph sv eventic_edges rounds cfg h = (Ok g, h').
Proof.
  unfold build_fusion_graph, bind.
  match goal with
  | |- context [rounds_loop sv cfg ?n ?q ?a ?h0] =>
      destruct (rounds_loop_returns cfg n q a h0) as (acc & h1 & ->)
  end.
  unfold ret. eauto.
Qed.

End Returns.

(** ** Claims about the Deduplicator *)

(** On a canonical edge the key is read off the fields. *)
Lemma edge_sig_of_canonical e :
  edge_sig (canonical e) =
    (PyStr.lower (source (canonical e)), relation (canonical e),
     PyStr.lower (target (canonical e)), default "" (source_graph (canonical e))).
Proof. unfold edge_sig, canonical. simpl. now rewrite !norm_idem. Qed.

(** C3, as stated, fails: two triples that are identical up to case and carry
    different source-graph tags are both dropped when their normalised target
    is empty, and two triples whose sources differ only in the white space they
    contain collapse although their lowercased sources differ. *)
Lemma dedup_identity_key_counterexample :
  let e1 := mkTriple "Art 17" "IsA" " " (Some "concept") None in
  let e2 := mkTriple "art 17" "IsA" " " (Some "entity") None in
  let e3 := mkTriple "Art  17" "cites" "GDPR" (Some "concept") None in
  let e4 := mkTriple "Art 17" "cites" "GDPR" (Some "concept") None in
  (PyStr.lower (source e1) = PyStr.lower (source e2)
   /\ relation e1 = relation e2
   /\ PyStr.lower (target e1) = PyStr.lower (target e2)
   /\ source_graph e1 <> source_graph e2
   /\ _dedup_edges [e1; e2] = [])
  /\ (PyStr.lower (source e3) <> PyStr.lower (source e4)
      /\ _dedup_edges [e3; e4] = [e4]).
Proof.
  simpl. repeat split; try reflexivity; try discriminate.
Qed.

(** C3 (amended): the Deduplicator drops the edges with an empty normalised
    source, relation or target; among the others its identity key is
    (lowercase source, relation, lowercase target, source_graph) taken on the
    whitespace-normalised fields.  No key occurs twice in the result, every
    result edge is the normalised form of a kept input edge, the edge retained
    for a key is the normalised form of its first occurrence, and two kept
    edges with different source-graph tags are both retained, whatever their
    other fields. *)
Theorem dedup_identity_key (l : list Triple) :
  NoDup (map edge_sig (_dedup_edges l))
  /\ (forall o, o ∈ _dedup_edges l ->
        exists e, e ∈ l /\ has_empty_field e = false /\ o = canonical e)
  /\ (forall l1 e l2,
        l = l1 ++ e :: l2 -> has_empty_field e = false ->
        (forall x, x ∈ l1 -> edge_sig x <> edge_sig e) ->
        canonical e ∈ _dedup_edges l
        /\ forall o, o ∈ _dedup_edges l -> edge_sig o = edge_sig e -> o = canonical e)
  /\ (forall e1 e2,
        e1 ∈ l -> e2 ∈ l ->
        has_empty_field e1 = false -> has_empty_field e2 = false ->
        default "" (source_graph e1) <> default "" (source_graph e2) ->
        exists o1 o2,
          o1 ∈ _dedup_edges l /\ o2 ∈ _dedup_edges l /\ o1 <> o2
          /\ edge_sig o1 = edge_sig e1 /\ edge_sig o2 = edge_sig e2).
Proof.
  unfold _dedup_edges. split; [apply dedup_loop_NoDup|]. split; [|split].
  - intros o Ho. apply dedup_loop_elem in Ho.
    destruct Ho as (e & ? & ? & ? & _). eauto.
  - intros l1 e l2 -> He Hfirst.
    assert (Hin : canonical e ∈ dedup_loop ∅ (l1 ++ e :: l2))
      by (apply dedup_loop_first; [exact Hfirst|exact He|apply not_elem_of_empty]).
    split; [exact Hin|]. intros o Ho Hk.
    pose proof (dedup_loop_NoDup (l1 ++ e :: l2) ∅) as Hnd.
    change (NoDup (edge_sig <$> dedup_loop ∅ (l1 ++ e :: l2))) in Hnd.
    rewrite <- (edge_sig_canonical e) in Hk.
    apply list_elem_of_lookup in Ho. destruct Ho as (i & Hi).
    apply list_elem_of_lookup in Hin. destruct Hin as (j & Hj).
    assert (i = j).
    { eapply NoDup_lookup; [exact Hnd| |].
      - rewrite list_lookup_fmap, Hi. reflexivity.
      - rewrite list_lookup_fmap, Hj. simpl. now rewrite Hk. }
    subst j. congruence.
  - intros e1 e2 H1 H2 He1 He2 Hg.
    destruct (dedup_loop_complete l ∅ e1 H1 He1) as (o1 & Ho1 & Hk1);
      [apply not_elem_of_empty|].
    destruct (dedup_loop_complete l ∅ e2 H2 He2) as (o2 & Ho2 & Hk2);
      [apply not_elem_of_empty|].
    exists o1, o2. repeat split; auto.
    intros ->. rewrite Hk1 in Hk2. unfold edge_sig in Hk2.
    injection Hk2 as _ _ _ Hg'. contradiction.
Qed.

(** C10: the Deduplicator drops every edge whose normalised source, relation
    or target is empty and hands back normalised edges, so every edge of a
    graph returned by [build_fusion_graph] has a non-empty source, relation and
    target, each trimmed and with single spaces inside. *)
Theorem output_edges_well_formed :
  (forall l,
      Forall well_formed (_dedup_edges l)
      /\ forall o, o ∈ _dedup_edges l ->
           exists e, e ∈ l /\ has_empty_field e = false /\ o = canonical e)
  /\ (forall sv eventic_edges rounds cfg h g h',
        build_fusion_graph sv eventic_edges rounds cfg h = (Ok g, h') ->
        Forall well_formed (edges g)).
Proof.
  split.
  - intros l. split; [apply dedup_edges_well_formed|].
    intros o Ho. apply dedup_loop_elem in Ho.
    destruct Ho as (e & ? & ? & ? & _). eauto.
  - intros sv eventic_edges rounds cfg h g h' H.
    apply build_fusion_graph_Ok in H. destruct H as (steps & -> & _).
    apply dedup_edges_well_formed.
Qed.


(** ** Claims about the model calls *)

Lemma from_dict_Some d tri :
  _from_dict d = Some tri ->
  relation tri = "IsA" /\ target tri <> "" /\ source_graph tri = None
  /\ weight tri = None.
Proof.
  unfold _from_dict.
  destruct (PyStr.truthy (_norm (py_str (default (PStr "") (dict_get d "source"))))
            && PyStr.truthy (_norm (py_str (default (PStr "") (dict_get d "target"))))
            && PyStr.truthy (_norm (py_str (default (PStr "") (dict_get d "relation")))))
    eqn:E; [|discriminate].
  intros H. injection H as <-. simpl.
  apply andb_prop in E. destruct E as [E _].
  apply andb_prop in E. destruct E as [_ E].
  apply truthy_nonempty in E. auto.
Qed.

Lemma triple_of_data_Some data tri :
  triple_of_data data = Some tri ->
  relation tri = "IsA" /\ target tri <> "" /\ source_graph tri = None
  /\ weight tri = None.
Proof.
  destruct data as [s|[|[s|l0|d|b r] l]|d|b r]; simpl; try discriminate;
    apply from_dict_Some.
Qed.

Lemma coerce_single_triple_fields text keyword :
  relation (_coerce_single_triple text keyword) = "IsA"
  /\ source_graph (_coerce_single_triple text keyword) = None
  /\ weight (_coerce_single_triple text keyword) = None.
Proof.
  unfold _coerce_single_triple.
  destruct (match json_loads text with
            | Some data => triple_of_data data
            | None => None
            end) as [tri|] eqn:E.
  - assert (exists data, triple_of_data data = Some tri) as (data & Hd).
    { destruct (json_loads text) as [data|]; [eauto|discriminate]. }
    apply triple_of_data_Some in Hd. tauto.
  - destruct (fenced text) as [[data|]|]; simpl; auto.
    destruct (triple_of_data data) as [tri|] eqn:Hd; simpl; auto.
    apply triple_of_data_Some in Hd. tauto.
Qed.

Lemma norm_truthy s : _norm s <> "" -> PyStr.truthy (_norm s) = true.
Proof. apply truthy_nonempty. Qed.

(** C7 fails on the code when the model call fails.  What the adapter does
    with the outcome of the call: when the call gives a text, whatever the
    text, it returns exactly one triple, whose source is the keyword itself
    and whose relation is "IsA"; the target is empty when the text is not JSON
    and holds no fenced JSON, and it is the normalised target of the model's
    object when the text is such an object with three fields that are not
    blank.  When the call fails the adapter raises and returns no triple. *)
Theorem term_definition_call_outcomes sv keyword model h :
  match openai_chat sv h (DefinePrompt model keyword) with
  | ChatContent text =>
      exists tgt,
        build_term_definition_triples sv keyword model h =
          (Ok [ {| source := keyword; relation := "IsA"; target := tgt;
                   source_graph := None; weight := None |} ],
           EvChat (DefinePrompt model keyword) (ChatContent text) :: h)
        /\ (json_loads text = None ->
            fenced text = None \/ fenced text = Some None -> tgt = "")
        /\ (forall s r t,
              json_loads text =
                Some (PDict [("source", PStr s); ("relation", PStr r);
                             ("target", PStr t)]) ->
              _norm s <> "" -> _norm r <> "" -> _norm t <> "" -> tgt = _norm t)
  | ChatError =>
      build_term_definition_triples sv keyword model h =
        (Raise APIError, EvChat (DefinePrompt model keyword) ChatError :: h)
  end.
Proof.
  destruct (openai_chat sv h (DefinePrompt model keyword)) as [|text] eqn:Hc.
  - unfold build_term_definition_triples, bind, chat. now rewrite Hc.
  - exists (target (_coerce_single_triple text keyword)).
    destruct (coerce_single_triple_fields text keyword) as (_ & Hg & Hw).
    split; [|split].
    + unfold build_term_definition_triples, bind, chat. rewrite Hc.
      unfold ret, pinned. now rewrite Hg, Hw.
    + intros Hl Hf. unfold _coerce_single_triple. rewrite Hl.
      destruct Hf as [-> | ->]; reflexivity.
    + intros s r t Hl Hs Hr Ht. unfold _coerce_single_triple. rewrite Hl.
      unfold triple_of_data, _from_dict, dict_get. simpl.
      now rewrite (norm_truthy _ Hs), (norm_truthy _ Ht), (norm_truthy _ Hr).
Qed.

(** C1 fails on the code: with every external source unavailable the first
    model call of the round, the filter's, raises and nothing catches it, so
    [build_fusion_graph] raises instead of returning the seed edges; the
    Term-Definition adapter raises in the same way, and so does the filter on
    an answer whose fenced block is not JSON. *)
Theorem unavailable_sources_raise :
  build_fusion_graph unavailable [controller_event] 1 default_config [] =
    (Raise APIError, [EvChat (FilterPrompt "gpt-4o-mini" ["Controller"]) ChatError])
  /\ build_term_definition_triples unavailable "GDPR" "gpt-4o-mini" [] =
       (Raise APIError, [EvChat (DefinePrompt "gpt-4o-mini" "GDPR") ChatError])
  /\ build_fusion_graph broken_filter [controller_event] 1 default_config [] =
       (Raise ValueError,
        [EvChat (FilterPrompt "gpt-4o-mini" ["Controller"]) (ChatContent broken_fence)]).
Proof. repeat split; vm_compute; reflexivity. Qed.

(** C6, as stated, fails: the filter answers in the order of the model's
    [keep] list, which need not be the order of the candidates. *)
Lemma filter_order_counterexample :
  fst (_pick_hard_agents_via_gpt reordering_filter ["A"; "B"] "gpt-4o-mini" [])
    = Ok ["B"; "A"]
  /\ ~ (["B"; "A"] `sublist_of` ["A"; "B"]).
Proof.
  split; [vm_compute; reflexivity|].
  intros H. apply sublist_cons_r in H.
  destruct H as [H|(l' & Heq & H)].
  - apply sublist_cons_r in H. destruct H as [H|(l' & Heq & H)].
    + apply sublist_nil_r in H. discriminate.
    + injection Heq as <-. apply sublist_nil_r in H. discriminate.
  - discriminate Heq.
Qed.

(** C6 (amended): every string the filter returns is one of the candidates,
    no two of them are equal up to case, and they come in the order in which
    their keys occur in the model's [keep] list (not necessarily the order of
    the candidates). *)
Theorem filter_subset_in_keep_order sv cands model h out h' :
  _pick_hard_agents_via_gpt sv cands model h = (Ok out, h') ->
  (forall c, c ∈ out -> c ∈ cands)
  /\ NoDup (map PyStr.lower out)
  /\ exists items,
       (cands = [] /\ items = []
        \/ exists text data keep,
             openai_chat sv h (FilterPrompt model cands) = ChatContent text
             /\ filter_data text = Ok data /\ keep_of data = Ok keep
             /\ py_iter keep = Ok items)
       /\ map PyStr.lower out `sublist_of` map keep_key items.
Proof.
  intros H. apply pick_hard_agents_Ok in H.
  destruct H as [(-> & -> & _)|(text & data & keep & items & Hc & Hd & Hk & Hi & -> & _)].
  - split; [intros c Hc; inversion Hc|]. split; [constructor|].
    exists []. split; [now left|constructor].
  - assert (Hm : forall k c, cand_map_of cands !! k = Some c -> PyStr.lower c = k)
      by (intros k c Hl; now apply cand_map_lookup in Hl).
    split; [|split].
    + intros c Hin. apply pick_loop_elem in Hin.
      destruct Hin as (t & _ & Hl & _). now apply cand_map_lookup in Hl.
    + now apply pick_loop_NoDup.
    + exists items. split; [right; eauto 10|]. now apply pick_loop_order.
Qed.

(** ** Claims about the round and the orchestrator *)

Lemma truthy_lower s : PyStr.truthy (PyStr.lower s) = PyStr.truthy s.
Proof. destruct s; reflexivity. Qed.

(** Whether the guard drops an edge can be read off its key. *)
Lemma has_empty_field_sig e1 e2 :
  edge_sig e1 = edge_sig e2 -> has_empty_field e1 = has_empty_field e2.
Proof.
  unfold edge_sig, has_empty_field. intros H. injection H as Hs Hr Ht _.
  rewrite <- (truthy_lower (_norm (source e1))), <- (truthy_lower (_norm (target e1))).
  rewrite <- (truthy_lower (_norm (source e2))), <- (truthy_lower (_norm (target e2))).
  now rewrite Hs, Hr, Ht.
Qed.

Lemma dedup_edges_kept l o : o ∈ _dedup_edges l -> has_empty_field o = false.
Proof.
  intros Ho. apply dedup_loop_elem in Ho. destruct Ho as (e & _ & He & -> & _).
  now rewrite has_empty_field_canonical.
Qed.

Lemma dedup_edges_complete l e :
  e ∈ l -> has_empty_field e = false ->
  exists o, o ∈ _dedup_edges l /\ edge_sig o = edge_sig e.
Proof.
  intros Hin He. apply dedup_loop_complete; [exact Hin|exact He|].
  apply not_elem_of_empty.
Qed.

Lemma output_edges_target sv eventic_edges rounds cfg h g h' o :
  build_fusion_graph sv eventic_edges rounds cfg h = (Ok g, h') ->
  o ∈ edges g -> target o <> "".
Proof.
  intros H Ho. apply build_fusion_graph_Ok in H. destruct H as (steps & Hg & _).
  rewrite Hg in Ho. pose proof (dedup_edges_well_formed
    (_eventic_to_triples eventic_edges ++ concat steps)) as Hwf.
  rewrite Forall_forall in Hwf. apply Hwf in Ho. apply Ho.
Qed.

(** C4: the next frontier of a round holds only normalised targets of triples
    returned in this round by the Concept or the Entity adapter; its terms are
    non-empty, trimmed and single-spaced, none equals an input agent up to
    case, and no two of them are equal up to case. *)
Theorem expand_once_frontier sv cfg agent_list h es fr h' :
  _expand_once sv cfg agent_list h = (Ok (es, fr), h') ->
  exists evs,
    h' = evs ++ h
    /\ (forall t, t ∈ fr ->
          (exists ev tr,
              ev ∈ evs /\ is_concept_or_entity ev = true
              /\ tr ∈ adapter_result cfg ev /\ t = _norm (target tr))
          /\ t <> "" /\ PyStr.is_trimmed t = true /\ PyStr.is_collapsed t = true
          /\ forall a, a ∈ agent_list -> PyStr.lower a <> PyStr.lower t)
    /\ NoDup (map PyStr.lower fr).
Proof.
  intros H. apply expand_once_Ok in H. destruct H as (evs & -> & _ & ->).
  exists evs. split; [reflexivity|]. split; [|apply next_frontier_NoDup].
  intros t Ht. apply next_frontier_elem in Ht.
  destruct Ht as (x & Hx & -> & Hne & Hcur & _).
  apply in_flat_map_events in Hx. destruct Hx as (ev & Hev & Hx).
  split; [|split; [exact Hne|split; [apply norm_trimmed|split; [apply norm_collapsed|]]]].
  - exists ev.
    destruct ev as [req out|kw out|kw mx out]; simpl in Hx;
      [inversion Hx| |];
      apply list_elem_of_fmap in Hx; destruct Hx as (tr & -> & Htr);
      exists tr; auto.
  - intros a Ha Heq. apply Hcur. apply elem_of_list_to_set.
    rewrite <- Heq. apply list_elem_of_fmap. eauto.
Qed.

(** C2, as stated, fails: with the Term-Definition graph in use and its edges
    included, the adapter hands back the placeholder with the empty target,
    and the final graph holds the seed edge only. *)
Lemma tdg_placeholder_counterexample :
  use_term_definition_graph tdg_only_config = true
  /\ include_tdg_edges tdg_only_config = true
  /\ fst (build_term_definition_triples prose_definitions "GDPR" "gpt-4o-mini" [])
       = Ok [ {| source := "GDPR"; relation := "IsA"; target := "";
                 source_graph := None; weight := None |} ]
  /\ fst (build_fusion_graph prose_definitions [gdpr_event] 1 tdg_only_config [])
       = Ok {| edges := [ {| source := "GDPR"; relation := "must";
                             target := "protect personal data";
                             source_graph := Some "eventic"; weight := None |} ] |}.
Proof. repeat split; vm_compute; reflexivity. Qed.

(** C2 (amended): a Term-Definition triple is collected by the round when
    [include_tdg_edges] is true, and the Deduplicator then decides: the round
    hands back an edge with its key when its normalised source and target are
    non-empty, and no edge with its key when one of them is empty.  No edge of
    a final graph has an empty target, so the placeholder never appears. *)
Theorem tdg_edges_pass_dedup :
  (forall sv cfg agent_list h es fr h',
      _expand_once sv cfg agent_list h = (Ok (es, fr), h') ->
      exists evs,
        h' = evs ++ h
        /\ forall m keyword text,
             EvChat (DefinePrompt m keyword) (ChatContent text) ∈ evs ->
             let t := tagged "term_definition"
                        (pinned keyword (_coerce_single_triple text keyword)) in
             (include_tdg_edges cfg = true -> has_empty_field t = false ->
              exists o, o ∈ es /\ edge_sig o = edge_sig t)
             /\ (has_empty_field t = true ->
                 forall o, o ∈ es -> edge_sig o <> edge_sig t))
  /\ (forall sv eventic_edges rounds cfg h g h',
        build_fusion_graph sv eventic_edges rounds cfg h = (Ok g, h') ->
        forall o, o ∈ edges g -> target o <> "").
Proof.
  split.
  - intros sv cfg agent_list h es fr h' H.
    apply expand_once_Ok in H. destruct H as (evs & -> & -> & _).
    exists evs. split; [reflexivity|]. intros m keyword text Hev t. split.
    + intros Hinc Ht. apply dedup_edges_complete; [|exact Ht].
      apply flat_map_events_in with (1 := Hev). simpl. rewrite Hinc. left.
    + intros Ht o Ho Heq. apply dedup_edges_kept in Ho.
      apply has_empty_field_sig in Heq. congruence.
  - intros sv eventic_edges rounds cfg h g h' H o Ho.
    apply output_edges_target with (1 := H) (2 := Ho).
Qed.

(** C5, as stated, fails: two equal event records give two seed edges, and the
    graph built from them has one edge. *)
Lemma monotonic_count_counterexample :
  let eventic_edges := [controller_event; controller_event] in
  length (_eventic_to_triples eventic_edges) = 2
  /\ exists g,
       fst (build_fusion_graph unavailable eventic_edges 0 default_config []) = Ok g
       /\ length (edges g) = 1.
Proof.
  split; [reflexivity|]. eexists. split; [vm_compute; reflexivity|reflexivity].
Qed.

(** C5 (amended): the final graph is the deduplicated list of the seed edges
    followed by the edges of the rounds the run executed, one after the other
    from the initial queue; it starts with the deduplicated seed edges, so it
    has at least as many edges as there are deduplicated seed edges, and every
    seed edge that passes the Deduplicator's guard and every edge handed back
    by one of these rounds is present under its key. *)
Theorem monotonic_accumulation sv eventic_edges rounds cfg h g h' :
  build_fusion_graph sv eventic_edges rounds cfg h = (Ok g, h') ->
  let seed := _eventic_to_triples eventic_edges in
  let budget := Z.to_nat (Z.max 0 rounds) in
  let queue := _extract_agents_from_eventic eventic_edges in
  _dedup_edges seed `prefix_of` edges g
  /\ length (_dedup_edges seed) <= length (edges g)
  /\ (forall e, e ∈ seed -> has_empty_field e = false ->
        exists o, o ∈ edges g /\ edge_sig o = edge_sig e)
  /\ exists steps,
       rounds_run sv cfg budget queue h steps h'
       /\ (forall steps2 h2,
             rounds_run sv cfg budget queue h steps2 h2 -> steps2 = steps)
       /\ edges g = _dedup_edges (seed ++ concat steps)
       /\ forall s e, s ∈ steps -> e ∈ s ->
            exists o, o ∈ edges g /\ edge_sig o = edge_sig e.
Proof.
  intros H seed budget queue. apply build_fusion_graph_run in H.
  destruct H as (steps & Hrun & Hg). fold seed in Hg. fold budget queue in Hrun.
  assert (Hpre : _dedup_edges seed `prefix_of` edges g).
  { rewrite Hg. unfold _dedup_edges. rewrite dedup_loop_app. eexists. reflexivity. }
  split; [exact Hpre|]. split; [now apply prefix_length|]. split.
  - intros e He Hk. rewrite Hg. apply dedup_edges_complete; [|exact Hk].
    apply elem_of_app. now left.
  - exists steps. split; [exact Hrun|]. split.
    { intros steps2 h2 H2.
      exact (proj1 (rounds_run_unique sv _ _ _ _ _ _ Hrun _ _ H2)). }
    split; [exact Hg|].
    intros s e Hs He. rewrite Hg.
    pose proof (rounds_run_round_edges sv _ _ _ _ _ _ Hrun) as Hst.
    unfold round_edges in Hst. rewrite Forall_forall in Hst.
    destruct (Hst s Hs) as (q & h0 & fr & h1 & Hstep).
    apply expand_once_edges in Hstep. destruct Hstep as (raw & ->).
    apply dedup_edges_complete; [|now apply dedup_edges_kept with raw].
    apply elem_of_app. right. rewrite list_elem_of_In. apply in_concat.
    exists (_dedup_edges raw). rewrite <- !list_elem_of_In. auto.
Qed.

(** ** The seed graph *)

Lemma get_or_cases (row : Row) k rest :
  get_or row k rest = rest \/ dict_get row k = Some (get_or row k rest).
Proof.
  unfold get_or. destruct (dict_get row k) as [v|]; [|auto].
  destruct (PyStr.truthy v); auto.
Qed.

Lemma get_or_holds (row : Row) k keys rest :
  PyStr.truthy (get_or row k rest) = true ->
  (PyStr.truthy rest = true -> holds row keys rest) ->
  holds row (k :: keys) (get_or row k rest).
Proof.
  intros Ht Hrest. destruct (get_or_cases row k rest) as [E|E].
  - rewrite E in *. destruct (Hrest Ht) as (k' & Hk & Hg).
    exists k'. split; [now right|exact Hg].
  - exists k. split; [now left|exact E].
Qed.

Lemma holds_nil (row : Row) : PyStr.truthy "" = true -> holds row [] "".
Proof. discriminate. Qed.

Lemma eventic_to_triples_cons row rest :
  _eventic_to_triples (row :: rest) =
    _eventic_to_triples [row] ++ _eventic_to_triples rest.
Proof. unfold _eventic_to_triples. simpl. now rewrite app_nil_r. Qed.

(** A record gives no seed edge or one. *)
Lemma eventic_row row :
  _eventic_to_triples [row] = []
  \/ exists a d c,
       holds row ["Agent"; "agent"; "Agent1"; "agent1"] a
       /\ holds row ["Deontic"; "deontic"] d
       /\ holds row ["Action"; "action"] c
       /\ _eventic_to_triples [row] = [seed_triple a d c].
Proof.
  unfold _eventic_to_triples. simpl flat_map. rewrite app_nil_r.
  set (agent := get_or row "Agent" (get_or row "agent"
                  (get_or row "Agent1" (get_or row "agent1" "")))).
  set (deon := get_or row "Deontic" (get_or row "deontic" "")).
  set (act := get_or row "Action" (get_or row "action" "")).
  destruct (PyStr.truthy agent && PyStr.truthy deon && PyStr.truthy act) eqn:E;
    [|now left].
  apply andb_prop in E. destruct E as [E Hc].
  apply andb_prop in E. destruct E as [Ha Hd].
  right. exists agent, deon, act. repeat split.
  - apply get_or_holds; [exact Ha|]. intros H1.
    apply get_or_holds; [exact H1|]. intros H2.
    apply get_or_holds; [exact H2|]. intros H3.
    apply get_or_holds; [exact H3|]. apply holds_nil.
  - apply get_or_holds; [exact Hd|]. intros H1.
    apply get_or_holds; [exact H1|]. apply holds_nil.
  - apply get_or_holds; [exact Hc|]. intros H1.
    apply get_or_holds; [exact H1|]. apply holds_nil.
Qed.

Lemma get_or_found (row : Row) k rest v :
  dict_get row k = Some v -> PyStr.truthy v = true -> get_or row k rest = v.
Proof. unfold get_or. now intros -> ->. Qed.

(** A record with the three keys gives the seed edge of their values. *)
Lemma eventic_row_standard (row : Row) a d c :
  dict_get row "Agent" = Some a -> dict_get row "Deontic" = Some d ->
  dict_get row "Action" = Some c ->
  a <> "" -> d <> "" -> c <> "" ->
  _eventic_to_triples [row] = [seed_triple a d c].
Proof.
  intros Ha Hd Hc Hna Hnd Hnc. apply truthy_nonempty in Hna, Hnd, Hnc.
  unfold _eventic_to_triples. simpl flat_map. rewrite app_nil_r.
  rewrite !(get_or_found row "Agent" _ a Ha Hna).
  rewrite !(get_or_found row "Deontic" _ d Hd Hnd).
  rewrite !(get_or_found row "Action" _ c Hc Hnc).
  now rewrite Hna, Hnd, Hnc.
Qed.

Lemma eventic_to_triples_elem row eventic_edges t :
  row ∈ eventic_edges -> t ∈ _eventic_to_triples [row] ->
  t ∈ _eventic_to_triples eventic_edges.
Proof.
  intros Hrow Ht. induction eventic_edges as [|r rest IH]; [inversion Hrow|].
  rewrite eventic_to_triples_cons. apply elem_of_app.
  apply elem_of_cons in Hrow. destruct Hrow as [->|Hrow]; [now left|].
  right. now apply IH.
Qed.

Lemma canonical_seed a d c : canonical (seed_triple a d c) = seed_triple a d c.
Proof. unfold canonical, seed_triple. simpl. now rewrite !norm_idem. Qed.

Lemma edge_sig_seed a d c :
  edge_sig (seed_triple a d c) = (key3 (seed_triple a d c), "eventic").
Proof. unfold edge_sig, key3, seed_triple. simpl. now rewrite !norm_idem. Qed.

Lemma norm_empty : _norm "" = "".
Proof. reflexivity. Qed.

(** The kept seed edges come from the records, in their order. *)
Lemma dedup_seed_rows eventic_edges : forall seen,
  exists rows,
    rows `sublist_of` eventic_edges
    /\ Forall2 seed_of rows (dedup_loop seen (_eventic_to_triples eventic_edges)).
Proof.
  induction eventic_edges as [|row rest IH]; intros seen.
  - exists []. split; constructor.
  - rewrite eventic_to_triples_cons.
    destruct (eventic_row row) as [E|(a & d & c & Ha & Hd & Hc & E)]; rewrite E.
    + destruct (IH seen) as (rows & Hsub & HF).
      exists rows. split; [now apply sublist_cons|exact HF].
    + simpl app. rewrite dedup_loop_cons.
      destruct (has_empty_field (seed_triple a d c)).
      { destruct (IH seen) as (rows & Hsub & HF).
        exists rows. split; [now apply sublist_cons|exact HF]. }
      case_bool_decide as Hs.
      { destruct (IH seen) as (rows & Hsub & HF).
        exists rows. split; [now apply sublist_cons|exact HF]. }
      destruct (IH ({[edge_sig (seed_triple a d c)]} ∪ seen)) as (rows & Hsub & HF).
      exists (row :: rows). split; [now apply sublist_skip|].
      constructor; [|exact HF]. rewrite canonical_seed. exists a, d, c. auto.
Qed.

Lemma forall2_seed_elem rows out o :
  Forall2 seed_of rows out -> o ∈ out -> exists a d c, o = seed_triple a d c.
Proof.
  induction 1 as [|row x rows out (a & d & c & _ & _ & _ & Hx) _ IH];
    intros Ho; [inversion Ho|].
  apply elem_of_cons in Ho. destruct Ho as [->|Ho]; eauto.
Qed.

(** The deduplicated seed edges, described by the records alone. *)
Lemma seed_graph_seeded eventic_edges :
  seeded eventic_edges (_dedup_edges (_eventic_to_triples eventic_edges)).
Proof.
  destruct (dedup_seed_rows eventic_edges ∅) as (rows & Hsub & HF).
  fold (_dedup_edges (_eventic_to_triples eventic_edges)) in HF.
  set (out := _dedup_edges (_eventic_to_triples eventic_edges)) in *.
  assert (Hsig : forall o, o ∈ out -> edge_sig o = (key3 o, "eventic")).
  { intros o Ho. destruct (forall2_seed_elem _ _ _ HF Ho) as (a & d & c & ->).
    apply edge_sig_seed. }
  split; [eauto|]. split; [apply dedup_edges_well_formed|]. split.
  - pose proof (dedup_loop_NoDup (_eventic_to_triples eventic_edges) ∅) as Hnd.
    fold (_dedup_edges (_eventic_to_triples eventic_edges)) in Hnd. fold out in Hnd.
    assert (Hmap : map edge_sig out = map (fun k => (k, "eventic")) (map key3 out)).
    { rewrite map_map. apply map_ext_in. intros o Ho.
      apply Hsig. now apply list_elem_of_In. }
    rewrite Hmap in Hnd.
    change (NoDup ((fun k : string * string * string => (k, "eventic"))
                     <$> map key3 out)) in Hnd.
    now apply NoDup_fmap_1 in Hnd.
  - intros row a d c Hrow Ha Hd Hc Hna Hnd Hnc.
    assert (Hin : seed_triple a d c ∈ _eventic_to_triples eventic_edges).
    { apply eventic_to_triples_elem with row; [exact Hrow|].
      rewrite (eventic_row_standard row a d c Ha Hd Hc);
        [now left| | |]; intros ->; auto using norm_empty. }
    assert (Hk : has_empty_field (seed_triple a d c) = false).
    { unfold has_empty_field, seed_triple. simpl. rewrite !norm_idem.
      apply truthy_nonempty in Hna, Hnd, Hnc. now rewrite Hna, Hnd, Hnc. }
    destruct (dedup_edges_complete _ _ Hin Hk) as (o & Ho & Hs).
    exists o. split; [exact Ho|].
    fold out in Ho. rewrite (Hsig o Ho), edge_sig_seed in Hs.
    exact (f_equal fst Hs).
Qed.

(** C8: with [rounds = 0] the run returns without having made any call (the
    history is unchanged), and its graph holds the deduplicated seed edges of
    the event records: seed edges of records, in the order of the records,
    with non-empty normalised fields and no key twice, one for every record
    that holds an agent, a deontic and an action. *)
Theorem zero_rounds_seed_only sv eventic_edges cfg h :
  exists out,
    build_fusion_graph sv eventic_edges 0 cfg h = (Ok {| edges := out |}, h)
    /\ out = _dedup_edges (_eventic_to_triples eventic_edges)
    /\ seeded eventic_edges out.
Proof.
  exists (_dedup_edges (_eventic_to_triples eventic_edges)).
  split; [reflexivity|]. split; [reflexivity|]. apply seed_graph_seeded.
Qed.

(** ** Claims about the Concept adapter *)

Lemma Qltb_false x y : Qltb x y = false <-> (y <= x)%Q.
Proof. unfold Qltb. rewrite negb_false_iff. apply Qle_bool_iff. Qed.

Lemma Qltb_true x y : Qltb x y = true -> (x <= y)%Q.
Proof.
  unfold Qltb. rewrite negb_true_iff. intros H.
  apply Qlt_le_weak, Qnot_le_lt. intros Hle.
  apply Qle_bool_iff in Hle. congruence.
Qed.

Lemma collect_edges_cons relations min_weight seen edge rest :
  collect_edges relations min_weight seen (edge :: rest) =
    if Qltb (weight_of (shaped_edge edge)) min_weight
    then collect_edges relations min_weight seen rest
    else if negb (relation_allowed relations (relation (shaped_edge edge)))
         then collect_edges relations min_weight seen rest
         else if bool_decide (key3 (shaped_edge edge) ∈ seen)
              then collect_edges relations min_weight seen rest
              else shaped_edge edge
                   :: collect_edges relations min_weight
                        ({[key3 (shaped_edge edge)]} ∪ seen) rest.
Proof.
  simpl. unfold weight_of, relation_allowed, key3. simpl.
  destruct (Qltb (default 0%Q (cn_weight edge)) min_weight); [reflexivity|].
  destruct relations as [[|r rs]|]; reflexivity.
Qed.

Lemma collect_edges_elem relations min_weight cn_edges : forall seen t,
  t ∈ collect_edges relations min_weight seen cn_edges ->
  exists edge,
    edge ∈ cn_edges /\ t = shaped_edge edge /\ (min_weight <= weight_of t)%Q
    /\ relation_allowed relations (relation t) = true /\ (key3 t ∉ seen).
Proof.
  induction cn_edges as [|edge rest IH]; intros seen t Ht; [inversion Ht|].
  rewrite collect_edges_cons in Ht.
  assert (Hrest : forall seen',
            t ∈ collect_edges relations min_weight seen' rest ->
            (forall k, k ∈ seen -> k ∈ seen') ->
            exists edge0,
              edge0 ∈ edge :: rest /\ t = shaped_edge edge0
              /\ (min_weight <= weight_of t)%Q
              /\ relation_allowed relations (relation t) = true
              /\ (key3 t ∉ seen)).
  { intros seen' Hin Hsub. destruct (IH _ _ Hin) as (x & ? & ? & ? & ? & Hx).
    exists x. split; [now right|]. repeat split; auto. }
  destruct (Qltb (weight_of (shaped_edge edge)) min_weight) eqn:Ew;
    [now apply (Hrest seen)|].
  destruct (relation_allowed relations (relation (shaped_edge edge))) eqn:Er;
    simpl in Ht; [|now apply (Hrest seen)].
  case_bool_decide as Hs; [now apply (Hrest seen)|].
  apply elem_of_cons in Ht. destruct Ht as [->|Ht].
  - exists edge. split; [left|]. apply Qltb_false in Ew. auto.
  - apply (Hrest _ Ht). intros k Hk. set_tac.
Qed.

Lemma collect_edges_NoDup relations min_weight cn_edges : forall seen,
  NoDup (map key3 (collect_edges relations min_weight seen cn_edges)).
Proof.
  induction cn_edges as [|edge rest IH]; intros seen; [constructor|].
  rewrite collect_edges_cons.
  destruct (Qltb (weight_of (shaped_edge edge)) min_weight); [apply IH|].
  destruct (negb (relation_allowed relations (relation (shaped_edge edge))));
    [apply IH|].
  case_bool_decide as Hs; [apply IH|].
  simpl. constructor; [|apply IH]. intros Hin.
  apply list_elem_of_fmap in Hin. destruct Hin as (t & Hk & Hin).
  apply collect_edges_elem in Hin. destruct Hin as (x & _ & _ & _ & _ & Hx).
  rewrite <- Hk in Hx. set_tac.
Qed.

Lemma collect_edges_complete relations min_weight cn_edges : forall seen edge,
  edge ∈ cn_edges ->
  (min_weight <= weight_of (shaped_edge edge))%Q ->
  relation_allowed relations (relation (shaped_edge edge)) = true ->
  key3 (shaped_edge edge) ∉ seen ->
  exists t, t ∈ collect_edges relations min_weight seen cn_edges
            /\ key3 t = key3 (shaped_edge edge).
Proof.
  induction cn_edges as [|x rest IH]; intros seen edge Hin Hw Hr Hs;
    [inversion Hin|].
  rewrite collect_edges_cons. apply elem_of_cons in Hin.
  destruct (decide (key3 (shaped_edge x) = key3 (shaped_edge edge))) as [Heq|Hne].
  - destruct (Qltb (weight_of (shaped_edge x)) min_weight) eqn:Ew.
    + destruct Hin as [->|Hin]; [|now apply IH].
      apply Qltb_false in Hw. congruence.
    + destruct (relation_allowed relations (relation (shaped_edge x))) eqn:Er; simpl.
      * rewrite bool_decide_eq_false_2 by (rewrite Heq; exact Hs).
        exists (shaped_edge x). split; [left|exact Heq].
      * destruct Hin as [->|Hin]; [congruence|now apply IH].
  - destruct Hin as [->|Hin]; [congruence|].
    destruct (Qltb (weight_of (shaped_edge x)) min_weight); [now apply IH|].
    destruct (negb (relation_allowed relations (relation (shaped_edge x))));
      [now apply IH|].
    case_bool_decide as Hd; [now apply IH|].
    destruct (IH ({[key3 (shaped_edge x)]} ∪ seen) edge Hin Hw Hr) as (t & Ht & Hk);
      [set_tac|].
    exists t. split; [now right|exact Hk].
Qed.

Lemma insert_desc_perm x l : insert_desc x l ≡ₚ x :: l.
Proof.
  induction l as [|y r IH]; simpl; [reflexivity|].
  destruct (Qltb (weight_of x) (weight_of y)); [|reflexivity].
  rewrite IH. apply Permutation_swap.
Qed.

Lemma sort_desc_perm l : sort_desc l ≡ₚ l.
Proof.
  induction l as [|x r IH]; simpl; [reflexivity|].
  rewrite insert_desc_perm. now rewrite IH.
Qed.

Lemma insert_desc_sorted x l :
  StronglySorted heavier_first l -> StronglySorted heavier_first (insert_desc x l).
Proof.
  induction l as [|y r IH]; intros Hs; simpl.
  - repeat constructor.
  - apply StronglySorted_inv in Hs. destruct Hs as [Hr Hy].
    destruct (Qltb (weight_of x) (weight_of y)) eqn:E.
    + constructor; [now apply IH|].
      rewrite insert_desc_perm. constructor; [|exact Hy].
      now apply Qltb_true.
    + apply Qltb_false in E. constructor; [now constructor|].
      constructor; [exact E|].
      eapply Forall_impl; [exact Hy|]. intros z Hz. unfold heavier_first in *.
      now apply Qle_trans with (weight_of y).
Qed.

Lemma sort_desc_sorted l : StronglySorted heavier_first (sort_desc l).
Proof.
  induction l as [|x r IH]; simpl; [constructor|now apply insert_desc_sorted].
Qed.

Lemma slice_to_nonneg {A : Type} (n : Z) (l : list A) :
  (0 <= n)%Z -> slice_to n l = firstn (Z.to_nat n) l.
Proof.
  intros Hn. unfold slice_to.
  destruct (n <? 0)%Z eqn:E; [|reflexivity]. apply Z.ltb_lt in E. lia.
Qed.

(** C9: on a successful response the Concept adapter returns the first
    [max_num] triples (all of them when no bound is given) of a ranking that
    holds only edges whose weight is not below [min_weight], holds no two edges
    with the same (lowercase source, relation, lowercase target), represents
    every such edge, and is in descending order of weight; the triples it
    returns carry no weight. *)
Theorem concept_adapter_result sv keyword relations min_weight max_num h cn_edges :
  conceptnet_get sv h keyword = HttpJson cn_edges ->
  (forall n, max_num = Some n -> (0 <= n)%Z) ->
  exists ranked out,
    fetch_conceptnet_triples sv keyword relations min_weight max_num h =
      (Ok out, EvConcept keyword (HttpJson cn_edges) :: h)
    /\ out = map pop_weight
               (match max_num with
                | Some n => firstn (Z.to_nat n) ranked
                | None => ranked
                end)
    /\ (forall t, t ∈ ranked ->
          exists edge, edge ∈ cn_edges /\ t = shaped_edge edge
                       /\ (min_weight <= weight_of t)%Q)
    /\ (forall edge, edge ∈ cn_edges ->
          (min_weight <= weight_of (shaped_edge edge))%Q ->
          relation_allowed relations (relation (shaped_edge edge)) = true ->
          exists t, t ∈ ranked /\ key3 t = key3 (shaped_edge edge))
    /\ NoDup (map key3 ranked)
    /\ StronglySorted heavier_first ranked
    /\ (forall n, max_num = Some n -> length out <= Z.to_nat n)
    /\ (forall t, t ∈ out -> weight t = None).
Proof.
  intros Hresp Hcount.
  set (kept := collect_edges relations min_weight ∅ cn_edges).
  exists (sort_desc kept),
         (shape_conceptnet relations min_weight max_num cn_edges).
  assert (Hperm : sort_desc kept ≡ₚ kept) by apply sort_desc_perm.
  split; [|split; [|split; [|split; [|split; [|split; [|split]]]]]].
  - unfold fetch_conceptnet_triples. now rewrite Hresp.
  - unfold shape_conceptnet. fold kept. destruct max_num as [n|]; [|reflexivity].
    now rewrite slice_to_nonneg by now apply Hcount.
  - intros t Ht. rewrite Hperm in Ht. apply collect_edges_elem in Ht.
    destruct Ht as (edge & ? & ? & ? & _). eauto.
  - intros edge Hin Hw Hr.
    destruct (collect_edges_complete relations min_weight cn_edges ∅ edge Hin Hw Hr)
      as (t & Ht & Hk); [apply not_elem_of_empty|].
    exists t. split; [now rewrite Hperm|exact Hk].
  - change (NoDup (key3 <$> sort_desc kept)). rewrite Hperm.
    apply collect_edges_NoDup.
  - apply sort_desc_sorted.
  - intros n ->. unfold shape_conceptnet. fold kept.
    rewrite length_map, slice_to_nonneg by now apply Hcount.
    rewrite length_firstn. lia.
  - intros t Ht. unfold shape_conceptnet in Ht.
    apply list_elem_of_fmap in Ht. destruct Ht as (t0 & -> & _). reflexivity.
Qed.

(** ** The theorems at work on the scenarios *)

(** Two edges that differ in case and in their tag are both retained. *)
Lemma dedup_identity_key_witness :
  let e1 := mkTriple "Controller" "RelatedTo" "data" (Some "concept") None in
  let e2 := mkTriple "controller" "RelatedTo" "Data" (Some "entity") None in
  exists o1 o2,
    o1 ∈ _dedup_edges [e1; e2] /\ o2 ∈ _dedup_edges [e1; e2] /\ o1 <> o2
    /\ edge_sig o1 = edge_sig e1 /\ edge_sig o2 = edge_sig e2.
Proof.
  intros e1 e2.
  destruct (dedup_identity_key [e1; e2]) as (_ & _ & _ & H).
  apply H; [left|right; left|reflexivity|reflexivity|discriminate].
Defined.

(** The graph of the two-round run has well-formed edges only. *)
Lemma output_edges_well_formed_witness :
  build_fusion_graph answering [gdpr_event; gdpr_event] 2 main_config [] =
    (Ok answering_graph, answering_history)
  /\ Forall well_formed (edges answering_graph).
Proof.
  assert (H : build_fusion_graph answering [gdpr_event; gdpr_event] 2 main_config [] =
                (Ok answering_graph, answering_history))
    by (vm_compute; reflexivity).
  split; [exact H|].
  exact (proj2 output_edges_well_formed _ _ _ _ _ _ _ H).
Defined.

(** The reordering filter hands back candidates only, without duplicates. *)
Lemma filter_subset_in_keep_order_witness :
  _pick_hard_agents_via_gpt reordering_filter ["A"; "B"] "gpt-4o-mini" [] =
    (Ok ["B"; "A"],
     [EvChat (FilterPrompt "gpt-4o-mini" ["A"; "B"]) (ChatContent (keep_text ["B"; "A"]))])
  /\ (forall c, c ∈ ["B"; "A"] -> c ∈ ["A"; "B"])
  /\ NoDup (map PyStr.lower ["B"; "A"]).
Proof.
  assert (H : _pick_hard_agents_via_gpt reordering_filter ["A"; "B"] "gpt-4o-mini" [] =
                (Ok ["B"; "A"],
                 [EvChat (FilterPrompt "gpt-4o-mini" ["A"; "B"])
                    (ChatContent (keep_text ["B"; "A"]))]))
    by (vm_compute; reflexivity).
  split; [exact H|].
  destruct (filter_subset_in_keep_order _ _ _ _ _ _ H) as (Hsub & Hnd & _).
  split; [exact Hsub|exact Hnd].
Defined.

(** The round on [GDPR]: the rediscovered [gdpr] and the second [Regulation]
    are not in the frontier. *)
Lemma expand_once_frontier_witness :
  _expand_once answering main_config ["GDPR"] [] =
    (Ok (answering_round_edges, answering_round_frontier), answering_round_history)
  /\ answering_round_frontier = ["data protection"; "regulation"]
  /\ NoDup (map PyStr.lower answering_round_frontier)
  /\ forall t, t ∈ answering_round_frontier -> PyStr.lower "GDPR" <> PyStr.lower t.
Proof.
  assert (H : _expand_once answering main_config ["GDPR"] [] =
                (Ok (answering_round_edges, answering_round_frontier),
                 answering_round_history))
    by (vm_compute; reflexivity).
  split; [exact H|]. split; [reflexivity|].
  destruct (expand_once_frontier _ _ _ _ _ _ _ H) as (evs & _ & Hfr & Hnd).
  split; [exact Hnd|].
  intros t Ht. destruct (Hfr t Ht) as (_ & _ & _ & _ & Ha). apply Ha. left.
Defined.

(** The round on [GDPR] hands back the definition edge, whose target is not
    empty. *)
Lemma tdg_edges_pass_dedup_witness :
  let text := definition_text "the term" "is" "A term  of the regulation." in
  let t := tagged "term_definition"
             (pinned "GDPR" (_coerce_single_triple text "GDPR")) in
  _expand_once answering main_config ["GDPR"] [] =
    (Ok (answering_round_edges, answering_round_frontier), answering_round_history)
  /\ has_empty_field t = false
  /\ exists o, o ∈ answering_round_edges /\ edge_sig o = edge_sig t.
Proof.
  intros text t.
  assert (H : _expand_once answering main_config ["GDPR"] [] =
                (Ok (answering_round_edges, answering_round_frontier),
                 answering_round_history))
    by (vm_compute; reflexivity).
  assert (Ht : has_empty_field t = false) by (vm_compute; reflexivity).
  split; [exact H|]. split; [exact Ht|].
  destruct (proj1 tdg_edges_pass_dedup _ _ _ _ _ _ _ H) as (evs & Hh & Hev).
  rewrite app_nil_r in Hh. subst evs.
  destruct (Hev "gpt-4o-mini" "GDPR" text) as [Hin _]; [left|].
  exact (Hin eq_refl Ht).
Defined.

(** The two-round run keeps the deduplicated seed edge and adds to it the
    edges of its two rounds. *)
Lemma monotonic_accumulation_witness :
  build_fusion_graph answering [gdpr_event; gdpr_event] 2 main_config [] =
    (Ok answering_graph, answering_history)
  /\ let seed := _eventic_to_triples [gdpr_event; gdpr_event] in
     let budget := Z.to_nat (Z.max 0 2) in
     let queue := _extract_agents_from_eventic [gdpr_event; gdpr_event] in
     _dedup_edges seed `prefix_of` edges answering_graph
     /\ length (_dedup_edges seed) <= length (edges answering_graph)
     /\ (forall e, e ∈ seed -> has_empty_field e = false ->
           exists o, o ∈ edges answering_graph /\ edge_sig o = edge_sig e)
     /\ exists steps,
          rounds_run answering main_config budget queue [] steps answering_history
          /\ (forall steps2 h2,
                rounds_run answering main_config budget queue [] steps2 h2 ->
                steps2 = steps)
          /\ edges answering_graph = _dedup_edges (seed ++ concat steps)
          /\ forall s e, s ∈ steps -> e ∈ s ->
               exists o, o ∈ edges answering_graph /\ edge_sig o = edge_sig e.
Proof.
  assert (H : build_fusion_graph answering [gdpr_event; gdpr_event] 2 main_config [] =
                (Ok answering_graph, answering_history))
    by (vm_compute; reflexivity).
  split; [exact H|].
  exact (monotonic_accumulation _ _ _ _ _ _ _ H).
Defined.

(** The Concept adapter on [GDPR] with at most three triples. *)
Lemma concept_adapter_result_witness :
  conceptnet_get answering [] "GDPR" = HttpJson gdpr_concept_edges
  /\ exists out,
       fst (fetch_conceptnet_triples answering "GDPR" None 4 (Some 3%Z) []) = Ok out
       /\ length out <= 3
       /\ forall t, t ∈ out -> weight t = None.
Proof.
  assert (H : conceptnet_get answering [] "GDPR" = HttpJson gdpr_concept_edges)
    by reflexivity.
  split; [exact H|].
  assert (Hc : forall n : Z, Some 3%Z = Some n -> (0 <= n)%Z)
    by (intros n Hn; injection Hn as <-; lia).
  destruct (concept_adapter_result answering "GDPR" None 4 (Some 3%Z) [] _ H Hc)
    as (ranked & out & Hrun & _ & _ & _ & _ & _ & Hlen & Hw).
  exists out. split; [now rewrite Hrun|]. split; [|exact Hw].
  apply (Hlen 3%Z). reflexivity.
Defined.

(** No round on four records: the incomplete record is dropped and the second
    record for [GDPR] collapses with the first. *)
Lemma zero_rounds_seed_only_witness :
  build_fusion_graph unavailable four_events 0 main_config [] =
    (Ok four_events_graph, [])
  /\ seeded four_events (edges four_events_graph).
Proof.
  destruct (zero_rounds_seed_only unavailable four_events main_config [])
    as (out & Hrun & Hout & Hs).
  assert (out = edges four_events_graph) as ->
    by (rewrite Hout; vm_compute; reflexivity).
  split; [exact Hrun|exact Hs].
Defined.

(** ** More on the Deduplicator *)

(** A second pass over a result of the loop changes nothing that the outer
    pass would not have done itself. *)
Lemma dedup_loop_absorb l : forall (s0 seen : gset Sig),
  (forall k, k ∈ s0 -> k ∈ seen) ->
  dedup_loop seen (dedup_loop s0 l) = dedup_loop seen l.
Proof.
  induction l as [|e l IH]; intros s0 seen Hsub; [reflexivity|].
  rewrite !dedup_loop_cons. destruct (has_empty_field e) eqn:He; [now apply IH|].
  case_bool_decide as H0.
  - rewrite bool_decide_eq_true_2 by now apply Hsub. now apply IH.
  - rewrite dedup_loop_cons, has_empty_field_canonical, He, edge_sig_canonical.
    rewrite canonical_idem.
    case_bool_decide as Hs.
    + apply IH. intros k Hk. set_tac.
    + f_equal. apply IH. intros k Hk. set_tac.
Qed.

(** X1: the Deduplicator is idempotent. *)
Theorem dedup_edges_idempotent l :
  _dedup_edges (_dedup_edges l) = _dedup_edges l.
Proof. unfold _dedup_edges. now apply dedup_loop_absorb. Qed.

(** X2: the Deduplicator keeps the order of its input and invents nothing:
    its result is a subsequence of the normalised input edges. *)
Theorem dedup_edges_in_input_order l :
  _dedup_edges l `sublist_of` map canonical l.
Proof.
  unfold _dedup_edges. generalize (∅ : gset Sig).
  induction l as [|e l IH]; intros seen; [constructor|].
  rewrite dedup_loop_cons. simpl.
  destruct (has_empty_field e); [apply sublist_cons, IH|].
  case_bool_decide as Hs; [apply sublist_cons, IH|apply sublist_skip, IH].
Qed.

(** X3: deduplicating a part of the list first does not change the result, so
    the per-round pass of [_expand_once] is absorbed by the final pass of
    [build_fusion_graph]. *)
Theorem dedup_edges_absorbs_inner l1 l2 :
  _dedup_edges (l1 ++ _dedup_edges l2) = _dedup_edges (l1 ++ l2)
  /\ _dedup_edges (_dedup_edges l1 ++ l2) = _dedup_edges (l1 ++ l2).
Proof.
  unfold _dedup_edges. split.
  - rewrite !dedup_loop_app. f_equal. apply dedup_loop_absorb.
    intros k Hk. set_tac.
  - rewrite !dedup_loop_app.
    rewrite (dedup_loop_absorb l1 ∅ ∅) by auto. reflexivity.
Qed.

(** ** Seeding and the event extraction *)

Lemma uniq_agents_cons (seen : gset string) a rest :
  uniq_agents seen (a :: rest) =
    if PyStr.truthy a && negb (bool_decide (PyStr.lower a ∈ seen))
    then a :: uniq_agents ({[PyStr.lower a]} ∪ seen) rest
    else uniq_agents seen rest.
Proof. reflexivity. Qed.

Lemma uniq_agents_elem agents : forall (seen : gset string) a,
  a ∈ uniq_agents seen agents ->
  a ∈ agents /\ a <> "" /\ (PyStr.lower a ∉ seen).
Proof.
  induction agents as [|x rest IH]; intros seen a Ha; [inversion Ha|].
  rewrite uniq_agents_cons in Ha.
  destruct (PyStr.truthy x) eqn:Ex; simpl in Ha.
  - case_bool_decide as Hs; simpl in Ha.
    + destruct (IH _ _ Ha) as (? & ? & ?). split; [now right|auto].
    + apply elem_of_cons in Ha. destruct Ha as [->|Ha].
      * split; [left|]. split; [now apply truthy_nonempty|exact Hs].
      * destruct (IH _ _ Ha) as (? & ? & Hn). split; [now right|].
        split; [auto|]. set_tac.
  - destruct (IH _ _ Ha) as (? & ? & ?). split; [now right|auto].
Qed.

Lemma uniq_agents_NoDup agents : forall (seen : gset string),
  NoDup (map PyStr.lower (uniq_agents seen agents)).
Proof.
  induction agents as [|x rest IH]; intros seen; [constructor|].
  rewrite uniq_agents_cons.
  destruct (PyStr.truthy x && negb (bool_decide (PyStr.lower x ∈ seen)));
    [|apply IH].
  simpl. constructor; [|apply IH]. intros Hin.
  apply list_elem_of_fmap in Hin. destruct Hin as (y & Hy & Hin).
  apply uniq_agents_elem in Hin. destruct Hin as (_ & _ & Hn).
  rewrite <- Hy in Hn. set_tac.
Qed.

Lemma uniq_agents_complete agents : forall (seen : gset string) a,
  a ∈ agents -> a <> "" -> PyStr.lower a ∉ seen ->
  exists b, b ∈ uniq_agents seen agents /\ PyStr.lower b = PyStr.lower a.
Proof.
  induction agents as [|x rest IH]; intros seen a Ha Hne Hs; [inversion Ha|].
  rewrite uniq_agents_cons. apply elem_of_cons in Ha.
  destruct (decide (PyStr.lower x = PyStr.lower a)) as [Heq|Hneq].
  - destruct (PyStr.truthy x) eqn:Ex; simpl.
    + rewrite bool_decide_eq_false_2 by (rewrite Heq; exact Hs). simpl.
      exists x. split; [left|exact Heq].
    + destruct Ha as [->|Ha]; [|now apply IH].
      apply truthy_nonempty in Hne. congruence.
  - destruct Ha as [->|Ha]; [congruence|].
    destruct (PyStr.truthy x && negb (bool_decide (PyStr.lower x ∈ seen)));
      [|now apply IH].
    destruct (IH ({[PyStr.lower x]} ∪ seen) a Ha Hne) as (b & Hb & Hk);
      [set_tac|].
    exists b. split; [now right|exact Hk].
Qed.

Lemma norm_nonempty s : stripped_nonempty s -> _norm s <> "".
Proof.
  intros [Hne Htr]. unfold PyStr.is_trimmed in Htr.
  apply andb_prop in Htr. destruct Htr as [Hh Hl].
  unfold _norm, PyStr.strip, PyStr.re_sub_ws.
  rewrite (lstrip_id s) by exact Hh. rewrite (rstrip_id s) by exact Hl.
  destruct s as [|c r]; [congruence|]. simpl in Hh. simpl.
  apply negb_true_iff in Hh. rewrite Hh. discriminate.
Qed.

(** X4: the initial queue holds non-empty, normalised terms, no two of them
    equal up to case, and each is the normalised value found under the first
    agent-like key of some record. *)
Theorem extract_agents_queue (eventic_edges : list Row) :
  let queue := _extract_agents_from_eventic eventic_edges in
  NoDup (map PyStr.lower queue)
  /\ forall a, a ∈ queue ->
       a <> "" /\ _norm a = a
       /\ exists row cand, row ∈ eventic_edges /\ first_agent row = Some cand
                           /\ a = _norm cand.
Proof.
  unfold _extract_agents_from_eventic. split; [apply uniq_agents_NoDup|].
  intros a Ha. apply uniq_agents_elem in Ha. destruct Ha as (Hin & Hne & _).
  split; [exact Hne|].
  rewrite list_elem_of_In, in_flat_map in Hin. destruct Hin as (row & Hrow & Hin).
  apply list_elem_of_In in Hrow.
  assert (Hcand : exists cand, first_agent row = Some cand /\ a = _norm cand).
  { unfold first_agent.
    destruct (find (fun kv => _is_agent_key (fst kv)) row) as [[k cand]|];
      [|inversion Hin].
    destruct (PyStr.truthy cand); [|inversion Hin].
    destruct Hin as [<-|[]]. eauto. }
  destruct Hcand as (cand & Hf & ->).
  split; [apply norm_idem|]. eauto.
Qed.

Lemma event_of_elem ev row :
  row ∈ event_of ev ->
  exists agent deon act,
    row = event_record agent deon act
    /\ stripped_nonempty agent /\ stripped_nonempty deon /\ stripped_nonempty act.
Proof.
  destruct ev as [s|l|d|b r]; simpl; try (intros H; inversion H; fail).
  set (agent := PyStr.strip (py_str (default (PStr "") (dict_get d "Agent")))).
  set (deon := PyStr.strip (py_str (default (PStr "") (dict_get d "Deontic")))).
  set (act := PyStr.strip (py_str (default (PStr "") (dict_get d "Action")))).
  destruct (PyStr.truthy agent && PyStr.truthy deon && PyStr.truthy act) eqn:E;
    [|intros H; inversion H].
  intros H. apply list_elem_of_singleton in H. subst row.
  apply andb_prop in E. destruct E as [E Hc].
  apply andb_prop in E. destruct E as [Ha Hd].
  apply truthy_nonempty in Ha, Hd, Hc.
  exists agent, deon, act. unfold stripped_nonempty.
  repeat split; auto; apply strip_trimmed.
Qed.

(** The records of [_coerce_event_list]. *)
Lemma coerce_event_list_elem (text : EventText) row :
  row ∈ _coerce_event_list text ->
  exists agent deon act,
    row = event_record agent deon act
    /\ stripped_nonempty agent /\ stripped_nonempty deon
    /\ stripped_nonempty act.
Proof.
  unfold _coerce_event_list.
  assert (Hflat : forall events, row ∈ flat_map event_of events ->
            exists agent deon act,
              row = event_record agent deon act
              /\ stripped_nonempty agent /\ stripped_nonempty deon
              /\ stripped_nonempty act).
  { intros events Hin. rewrite list_elem_of_In, in_flat_map in Hin.
    destruct Hin as (ev & _ & Hin). apply list_elem_of_In in Hin.
    now apply event_of_elem with ev. }
  destruct (match ev_loads text with
            | Some data => Some data
            | None => match ev_array text with
                      | Some (Some data) => Some data
                      | _ => None
                      end
            end) as [[s|events|kv|b r]|]; try (intros H; inversion H; fail).
  - apply Hflat.
  - destruct (dict_get kv "events") as [[s|events|kv'|b r]|];
      try (intros H; inversion H; fail). apply Hflat.
Qed.

(** X5: whatever the text, every record returned by [_coerce_event_list] has
    exactly the keys Agent, Deontic and Action, each with a non-empty value
    without white space at its ends; a text that cannot be decoded gives no
    record. *)
Theorem coerce_event_list_records (text : EventText) :
  (forall row, row ∈ _coerce_event_list text ->
     exists agent deon act,
       row = event_record agent deon act
       /\ stripped_nonempty agent /\ stripped_nonempty deon
       /\ stripped_nonempty act)
  /\ (ev_loads text = None ->
      ev_array text = None \/ ev_array text = Some None ->
      _coerce_event_list text = []).
Proof.
  split.
  - intros row. apply coerce_event_list_elem.
  - intros Hl Ha. unfold _coerce_event_list. rewrite Hl.
    destruct Ha as [-> | ->]; reflexivity.
Qed.

Lemma eventic_to_triples_record agent deon act rest :
  stripped_nonempty agent -> stripped_nonempty deon -> stripped_nonempty act ->
  _eventic_to_triples (event_record agent deon act :: rest) =
    {| source := _norm agent; relation := _norm deon; target := _norm act;
       source_graph := Some "eventic"; weight := None |}
    :: _eventic_to_triples rest.
Proof.
  intros [Ha _] [Hd _] [Hc _].
  apply truthy_nonempty in Ha, Hd, Hc.
  unfold _eventic_to_triples at 1. simpl flat_map.
  unfold get_or, dict_get, event_record. simpl.
  rewrite Ha, Hd, Hc. simpl. rewrite Ha, Hd, Hc. reflexivity.
Qed.

Lemma extract_agents_record agent deon act rest :
  stripped_nonempty agent ->
  flat_map (fun edge : Row =>
              match find (fun kv => _is_agent_key (fst kv)) edge with
              | Some (_, cand) => if PyStr.truthy cand then [_norm cand] else []
              | None => []
              end) (event_record agent deon act :: rest) =
    _norm agent
    :: flat_map (fun edge : Row =>
                   match find (fun kv => _is_agent_key (fst kv)) edge with
                   | Some (_, cand) => if PyStr.truthy cand then [_norm cand] else []
                   | None => []
                   end) rest.
Proof.
  intros [Ha _]. apply truthy_nonempty in Ha. simpl. now rewrite Ha.
Qed.

(** X6: the two seeding functions agree on the records of
    [_coerce_event_list]: every record gives one seed edge, in order, that the
    Deduplicator's guard lets through, and the initial queue is the list of the
    seed sources without repetitions up to case. *)
Theorem seeding_of_extracted_events (text : EventText) :
  let records := _coerce_event_list text in
  let seed := _eventic_to_triples records in
  length seed = length records
  /\ Forall (fun e => has_empty_field e = false
                      /\ source_graph e = Some "eventic") seed
  /\ _extract_agents_from_eventic records = uniq_agents ∅ (map source seed)
  /\ (forall e, e ∈ seed ->
        exists a, a ∈ _extract_agents_from_eventic records
                  /\ PyStr.lower a = PyStr.lower (source e)).
Proof.
  intros records seed.
  pose proof (coerce_event_list_elem text) as Hrec.
  fold records in Hrec. subst seed. clearbody records.
  assert (Hall : length (_eventic_to_triples records) = length records
                 /\ Forall (fun e => has_empty_field e = false
                                     /\ source_graph e = Some "eventic")
                      (_eventic_to_triples records)
                 /\ flat_map (fun edge : Row =>
                       match find (fun kv => _is_agent_key (fst kv)) edge with
                       | Some (_, cand) => if PyStr.truthy cand then [_norm cand] else []
                       | None => []
                       end) records = map source (_eventic_to_triples records)).
  { induction records as [|row rest IH]; [repeat split; constructor|].
    destruct (Hrec row) as (a & d & c & -> & Ha & Hd & Hc); [left|].
    destruct IH as (IH1 & IH2 & IH3); [intros r Hr; apply Hrec; now right|].
    rewrite eventic_to_triples_record by assumption.
    rewrite extract_agents_record by assumption.
    split; [simpl; now rewrite IH1|]. split.
    - constructor; [|exact IH2]. split; [|reflexivity].
      unfold has_empty_field. simpl. rewrite !norm_idem.
      apply norm_nonempty in Ha, Hd, Hc. apply truthy_nonempty in Ha, Hd, Hc.
      now rewrite Ha, Hd, Hc.
    - rewrite IH3. reflexivity. }
  destruct Hall as (H1 & H2 & H3).
  assert (Hq : _extract_agents_from_eventic records =
               uniq_agents ∅ (map source (_eventic_to_triples records)))
    by (unfold _extract_agents_from_eventic; now rewrite H3).
  repeat split; auto.
  intros e He. rewrite Hq.
  rewrite Forall_forall in H2. destruct (H2 e He) as [Hk _].
  apply uniq_agents_complete; [apply list_elem_of_fmap; eauto| |apply not_elem_of_empty].
  assert (Hwf : well_formed (canonical e)) by now apply canonical_well_formed.
  intros Hs. destruct Hwf as (Hsrc & _). simpl in Hsrc. rewrite Hs in Hsrc.
  now apply Hsrc.
Qed.

(** ** The calls of a round *)

Lemma made_nil h : made [] h h.
Proof. exists []. auto. Qed.

Lemma made_trans c1 c2 h0 h1 h2 :
  made c1 h0 h1 -> made c2 h1 h2 -> made (c1 ++ c2) h0 h2.
Proof.
  intros (e1 & -> & H1) (e2 & -> & H2). exists (e2 ++ e1).
  unfold chronological in *.
  rewrite app_assoc, rev_app_distr, map_app, H1, H2. auto.
Qed.

(** The events that lead from one history to a later one are determined. *)
Lemma history_suffix_unique (e1 e2 h : History) : e1 ++ h = e2 ++ h -> e1 = e2.
Proof. apply app_inv_tail. Qed.

Section CallFacts.

Context (sv : Services).

Lemma fetch_conceptnet_triples_call keyword relations min_weight max_num h out h' :
  fetch_conceptnet_triples sv keyword relations min_weight max_num h = (Ok out, h') ->
  made [CallConcept keyword] h h'.
Proof.
  unfold fetch_conceptnet_triples. intros H.
  exists [EvConcept keyword (conceptnet_get sv h keyword)].
  split; [|reflexivity].
  destruct (conceptnet_get sv h keyword); injection H as _ <-; reflexivity.
Qed.

Lemma fetch_dbpedia_triples_call keyword max_num h out h' :
  fetch_dbpedia_triples sv keyword max_num h = (Ok out, h') ->
  made [CallEntity keyword max_num] h h'.
Proof.
  unfold fetch_dbpedia_triples. intros H. injection H as _ <-.
  exists [EvEntity keyword max_num (dbpedia_triples sv h keyword max_num)].
  split; reflexivity.
Qed.

Lemma build_term_definition_triples_call keyword model0 h out h' :
  build_term_definition_triples sv keyword model0 h = (Ok out, h') ->
  made [CallDefine keyword] h h'.
Proof.
  intros H. apply build_term_definition_triples_Ok in H.
  destruct H as (text & _ & _ & ->).
  exists [EvChat (DefinePrompt model0 keyword) (ChatContent text)].
  split; reflexivity.
Qed.

Lemma expand_agent_calls cfg agent acc h acc' h' :
  expand_agent sv cfg agent acc h = (Ok acc', h') ->
  made (calls_for cfg agent) h h'.
Proof.
  unfold expand_agent, calls_for. intros H.
  apply bind_Ok in H. destruct H as (acc1 & h1 & H1 & H).
  apply bind_Ok in H. destruct H as (acc2 & h2 & H2 & H3).
  apply made_trans with h1; [|apply made_trans with h2].
  - destruct (use_concept_graph cfg).
    + apply bind_Ok in H1. destruct H1 as (c & hc & Hc & Hr).
      apply ret_Ok in Hr. destruct Hr as [_ ->].
      now apply fetch_conceptnet_triples_call in Hc.
    + apply ret_Ok in H1. destruct H1 as [_ ->]. apply made_nil.
  - destruct (use_entity_graph cfg).
    + apply bind_Ok in H2. destruct H2 as (c & hc & Hc & Hr).
      apply ret_Ok in Hr. destruct Hr as [_ ->].
      now apply fetch_dbpedia_triples_call in Hc.
    + apply ret_Ok in H2. destruct H2 as [_ ->]. apply made_nil.
  - destruct (use_term_definition_graph cfg).
    + apply bind_Ok in H3. destruct H3 as (c & hc & Hc & Hr).
      assert (h' = hc) as ->
        by (destruct (include_tdg_edges cfg); apply ret_Ok in Hr; tauto).
      now apply build_term_definition_triples_call in Hc.
    + apply ret_Ok in H3. destruct H3 as [_ ->]. apply made_nil.
Qed.

Lemma expand_agents_calls cfg hard_agents : forall acc h acc' h',
  expand_agents sv cfg hard_agents acc h = (Ok acc', h') ->
  made (flat_map (calls_for cfg) hard_agents) h h'.
Proof.
  induction hard_agents as [|agent rest IH]; intros acc h acc' h' H.
  - apply ret_Ok in H. destruct H as [-> ->]. apply made_nil.
  - simpl in H. apply bind_Ok in H. destruct H as (acc1 & h1 & H1 & H).
    simpl. apply made_trans with h1; [now apply expand_agent_calls with acc acc1|].
    now apply IH with acc1 acc'.
Qed.

Lemma pick_hard_agents_calls cands model0 h out h' :
  _pick_hard_agents_via_gpt sv cands model0 h = (Ok out, h') ->
  made (match cands with [] => [] | _ => [CallFilter cands] end) h h'.
Proof.
  destruct cands as [|c cs]; intros H.
  - apply ret_Ok in H. destruct H as [_ ->]. apply made_nil.
  - apply pick_hard_agents_Ok in H.
    destruct H as [(Hnil & _)|(text & _ & _ & _ & _ & _ & _ & _ & _ & ->)];
      [discriminate|].
    exists [EvChat (FilterPrompt model0 (c :: cs)) (ChatContent text)].
    split; reflexivity.
Qed.

End CallFacts.

(** ** More on the round and the orchestrator *)

Section RoundExtras.

Context (sv : Services).

(** The calls of a round, in order. *)
Lemma expand_once_made cfg agent_list h es fr h' :
  _expand_once sv cfg agent_list h = (Ok (es, fr), h') ->
  exists picked,
    fst (_pick_hard_agents_via_gpt sv agent_list (model cfg) h) = Ok picked
    /\ made ((match agent_list with [] => [] | _ => [CallFilter agent_list] end)
             ++ flat_map (calls_for cfg)
                  (match picked with [] => agent_list | _ => picked end))
         h h'.
Proof.
  unfold _expand_once. intros H.
  apply bind_Ok in H. destruct H as (picked & h1 & Hp & H).
  apply bind_Ok in H. destruct H as (acc & h2 & He & H).
  apply ret_Ok in H. destruct H as [_ ->].
  exists picked. rewrite Hp. split; [reflexivity|].
  apply made_trans with h1; [exact (pick_hard_agents_calls _ _ _ _ _ _ Hp)|].
  exact (expand_agents_calls _ _ _ _ _ _ _ He).
Qed.

(** X7: a round first asks the filter (unless its input is empty) and then,
    for every agent the filter picked, or for every input agent when it picked
    none, calls the enabled adapters in the order Concept, Entity,
    Term-Definition; it makes no other call. *)
Theorem expand_once_calls cfg agent_list h es fr h' :
  _expand_once sv cfg agent_list h = (Ok (es, fr), h') ->
  exists picked,
    fst (_pick_hard_agents_via_gpt sv agent_list (model cfg) h) = Ok picked
    /\ made ((match agent_list with [] => [] | _ => [CallFilter agent_list] end)
             ++ flat_map (calls_for cfg)
                  (match picked with [] => agent_list | _ => picked end))
         h h'.
Proof.
  unfold _expand_once. intros H.
  apply bind_Ok in H. destruct H as (picked & h1 & Hp & H).
  apply bind_Ok in H. destruct H as (acc & h2 & He & H).
  apply ret_Ok in H. destruct H as [_ ->].
  exists picked. rewrite Hp. split; [reflexivity|].
  apply made_trans with h1; [exact (pick_hard_agents_calls _ _ _ _ _ _ Hp)|].
  exact (expand_agents_calls _ _ _ _ _ _ _ He).
Qed.

Lemma picked_are_candidates cands model0 h picked :
  fst (_pick_hard_agents_via_gpt sv cands model0 h) = Ok picked ->
  forall a, a ∈ picked -> a ∈ cands.
Proof.
  destruct (_pick_hard_agents_via_gpt sv cands model0 h) as [r h1] eqn:E.
  simpl. intros ->. apply pick_hard_agents_Ok in E.
  destruct E as [(_ & -> & _)|(text & data & keep & items & _ & _ & _ & _ & -> & _)].
  - intros a Ha. inversion Ha.
  - intros a Ha. apply pick_loop_elem in Ha. destruct Ha as (t & _ & Hl & _).
    now apply cand_map_lookup in Hl.
Qed.

Lemma calls_for_keyword cfg agent c kw :
  c ∈ calls_for cfg agent -> call_keyword c = Some kw -> kw = agent.
Proof.
  unfold calls_for. intros Hc Hk.
  destruct (use_concept_graph cfg), (use_entity_graph cfg),
    (use_term_definition_graph cfg); simpl in Hc;
    repeat (apply elem_of_cons in Hc; destruct Hc as [->|Hc]);
    try (inversion Hc; fail); simpl in Hk; congruence.
Qed.

(** X8: every keyword a round sends to an adapter is one of its input agents,
    spelled as in the input: the filter cannot make the round query a term of
    the model's own. *)
Theorem expand_once_queries_input_agents cfg agent_list h es fr h' :
  _expand_once sv cfg agent_list h = (Ok (es, fr), h') ->
  exists evs,
    h' = evs ++ h
    /\ forall ev kw, ev ∈ evs -> call_keyword (call_of ev) = Some kw ->
         kw ∈ agent_list.
Proof.
  intros H. apply expand_once_made in H.
  destruct H as (picked & Hp & evs & -> & Hcalls).
  exists evs. split; [reflexivity|]. intros ev kw Hev Hk.
  assert (Hin : call_of ev ∈ map call_of (chronological evs)).
  { apply list_elem_of_fmap. exists ev. split; [reflexivity|].
    unfold chronological. rewrite list_elem_of_In, <- in_rev, <- list_elem_of_In.
    exact Hev. }
  rewrite Hcalls in Hin. apply elem_of_app in Hin. destruct Hin as [Hin|Hin].
  - destruct agent_list; [inversion Hin|].
    apply list_elem_of_singleton in Hin. rewrite Hin in Hk. discriminate.
  - rewrite list_elem_of_In, in_flat_map in Hin.
    destruct Hin as (a & Ha & Hc). rewrite <- !list_elem_of_In in *.
    rewrite (calls_for_keyword _ _ _ _ Hc Hk).
    destruct picked as [|p ps]; [exact Ha|].
    now apply (picked_are_candidates _ _ _ _ Hp).
Qed.

(** Where the edges of a round come from. *)
Lemma expand_once_edge_origin cfg agent_list h es fr h' o :
  _expand_once sv cfg agent_list h = (Ok (es, fr), h') ->
  o ∈ es ->
  canonical o = o /\ has_empty_field o = false /\ weight o = None
  /\ (source_graph o = Some "concept" /\ use_concept_graph cfg = true
      \/ source_graph o = Some "entity" /\ use_entity_graph cfg = true
      \/ source_graph o = Some "term_definition"
         /\ use_term_definition_graph cfg = true
         /\ include_tdg_edges cfg = true).
Proof.
  intros H Ho. pose proof H as Hc. apply expand_once_made in Hc.
  destruct Hc as (picked & _ & evs' & Hh' & Hcalls).
  apply expand_once_Ok in H. destruct H as (evs & Hh & -> & _).
  assert (evs' = evs) as -> by (apply (history_suffix_unique _ _ h); congruence).
  apply dedup_loop_elem in Ho. destruct Ho as (e & He & Hk & -> & _).
  split; [apply canonical_idem|]. split; [now rewrite has_empty_field_canonical|].
  split; [reflexivity|].
  apply in_flat_map_events in He. destruct He as (ev & Hev & He).
  assert (Hin : call_of ev ∈ map call_of (chronological evs)).
  { apply list_elem_of_fmap. exists ev. split; [reflexivity|].
    unfold chronological. rewrite list_elem_of_In, <- in_rev, <- list_elem_of_In.
    exact Hev. }
  rewrite Hcalls in Hin.
  assert (Hfor : exists a, call_of ev ∈ calls_for cfg a
                           \/ exists l, call_of ev = CallFilter l).
  { apply elem_of_app in Hin. destruct Hin as [Hin|Hin].
    - exists "". right. destruct agent_list; [inversion Hin|].
      apply list_elem_of_singleton in Hin. eauto.
    - rewrite list_elem_of_In, in_flat_map in Hin.
      destruct Hin as (a & _ & Hc). rewrite <- list_elem_of_In in Hc. eauto. }
  destruct Hfor as (a & Hfor).
  unfold calls_for in Hfor.
  destruct ev as [[m cands|m kw] out|kw out|kw mx out]; simpl in He.
  - inversion He.
  - destruct (include_tdg_edges cfg) eqn:Ei; [|inversion He].
    apply list_elem_of_fmap in He. destruct He as (t & -> & _).
    right; right. simpl. split; [reflexivity|]. split; [|reflexivity].
    destruct Hfor as [Hfor|(l & Hl)]; [|discriminate].
    destruct (use_term_definition_graph cfg); [reflexivity|].
    destruct (use_concept_graph cfg), (use_entity_graph cfg); simpl in Hfor;
      repeat (apply elem_of_cons in Hfor; destruct Hfor as [Hfor|Hfor];
              [discriminate|]); inversion Hfor.
  - apply list_elem_of_fmap in He. destruct He as (t & -> & _).
    left. simpl. split; [reflexivity|].
    destruct Hfor as [Hfor|(l & Hl)]; [|discriminate].
    destruct (use_concept_graph cfg); [reflexivity|].
    destruct (use_entity_graph cfg), (use_term_definition_graph cfg);
      simpl in Hfor;
      repeat (apply elem_of_cons in Hfor; destruct Hfor as [Hfor|Hfor];
              [discriminate|]); inversion Hfor.
  - apply list_elem_of_fmap in He. destruct He as (t & -> & _).
    right; left. simpl. split; [reflexivity|].
    destruct Hfor as [Hfor|(l & Hl)]; [|discriminate].
    destruct (use_entity_graph cfg); [reflexivity|].
    destruct (use_concept_graph cfg), (use_term_definition_graph cfg);
      simpl in Hfor;
      repeat (apply elem_of_cons in Hfor; destruct Hfor as [Hfor|Hfor];
              [discriminate|]); inversion Hfor.
Qed.

(** X9: every edge of a returned graph carries no weight and one of the four
    tags.  An edge tagged eventic is the normalised form of a seed edge; an
    edge tagged concept, entity or term_definition exists only when that graph
    is in use, and for term_definition only when [include_tdg_edges] is set. *)
Theorem fusion_graph_edge_origin eventic_edges rounds cfg h g h' :
  build_fusion_graph sv eventic_edges rounds cfg h = (Ok g, h') ->
  forall o, o ∈ edges g ->
    weight o = None
    /\ (exists tag, source_graph o = Some tag /\ tag ∈ known_tags)
    /\ (source_graph o = Some "eventic" ->
        exists e, e ∈ _eventic_to_triples eventic_edges /\ o = canonical e)
    /\ (source_graph o = Some "concept" -> use_concept_graph cfg = true)
    /\ (source_graph o = Some "entity" -> use_entity_graph cfg = true)
    /\ (source_graph o = Some "term_definition" ->
        use_term_definition_graph cfg = true /\ include_tdg_edges cfg = true).
Proof.
  intros H o Ho. apply build_fusion_graph_Ok in H.
  destruct H as (steps & Hg & Hst). rewrite Hg in Ho.
  apply dedup_loop_elem in Ho. destruct Ho as (e & He & _ & -> & _).
  split; [reflexivity|].
  apply elem_of_app in He. destruct He as [He|He].
  - assert (Htag : source_graph e = Some "eventic").
    { unfold _eventic_to_triples in He. rewrite list_elem_of_In, in_flat_map in He.
      destruct He as (row & _ & He).
      match type of He with
      | In _ (if ?c then _ else _) => destruct c; [|inversion He]
      end.
      destruct He as [<-|[]]. reflexivity. }
    simpl. rewrite Htag. simpl.
    split; [exists "eventic"; split; [reflexivity|left]|].
    split; [eauto|]. repeat split; discriminate.
  - rewrite list_elem_of_In in He. apply in_concat in He.
    destruct He as (s & Hs & He). rewrite <- !list_elem_of_In in *.
    unfold round_edges in Hst. rewrite Forall_forall in Hst.
    destruct (Hst s Hs) as (q & h0 & fr & h1 & Hrun).
    destruct (expand_once_edge_origin _ _ _ _ _ _ _ Hrun He)
      as (_ & _ & _ & [(Ht & Hf)|[(Ht & Hf)|(Ht & Hf & Hi)]]);
      simpl; rewrite Ht; simpl;
      (split; [eexists; split; [reflexivity|unfold known_tags; set_tac]|]);
      repeat split; try discriminate; auto.
Qed.

Lemma rounds_loop_no_agents cfg n acc h :
  rounds_loop sv cfg n [] acc h = (Ok acc, h).
Proof. destruct n; reflexivity. Qed.

(** X10: with a non-positive number of rounds, or when no record gives an
    agent, the run returns without having made any call, and its graph holds
    the deduplicated seed edges of the event records; in particular no records
    give the empty graph. *)
Theorem no_expansion_seed_only eventic_edges rounds cfg h :
  (rounds <= 0)%Z \/ _extract_agents_from_eventic eventic_edges = [] ->
  exists out,
    build_fusion_graph sv eventic_edges rounds cfg h = (Ok {| edges := out |}, h)
    /\ out = _dedup_edges (_eventic_to_triples eventic_edges)
    /\ seeded eventic_edges out
    /\ (eventic_edges = [] -> out = []).
Proof.
  intros Hno. exists (_dedup_edges (_eventic_to_triples eventic_edges)).
  split; [|split; [reflexivity|split; [apply seed_graph_seeded|now intros ->]]].
  unfold build_fusion_graph, bind. destruct Hno as [Hr|Hq].
  - replace (Z.to_nat (Z.max 0 rounds)) with 0 by lia. reflexivity.
  - rewrite Hq, rounds_loop_no_agents. reflexivity.
Qed.

End RoundExtras.

(** ** The round budget and the degraded sources *)

Lemma filter_calls_app c1 c2 :
  filter_calls (c1 ++ c2) = filter_calls c1 + filter_calls c2.
Proof. unfold filter_calls. now rewrite List.filter_app, length_app. Qed.

Lemma filter_calls_for cfg agents : filter_calls (flat_map (calls_for cfg) agents) = 0.
Proof.
  induction agents as [|a l IH]; [reflexivity|].
  simpl. rewrite filter_calls_app, IH. unfold calls_for.
  destruct (use_concept_graph cfg), (use_entity_graph cfg),
    (use_term_definition_graph cfg); reflexivity.
Qed.

Section Budget.

Context (sv : Services).

Lemma rounds_loop_calls cfg n : forall queue acc h acc' h',
  rounds_loop sv cfg n queue acc h = (Ok acc', h') ->
  exists calls, made calls h h' /\ filter_calls calls <= n.
Proof.
  induction n as [|n IH]; intros queue acc h acc' h' H.
  - apply ret_Ok in H. destruct H as [_ ->]. exists []. split; [apply made_nil|auto].
  - simpl in H. destruct queue as [|a q].
    + apply ret_Ok in H. destruct H as [_ ->].
      exists []. split; [apply made_nil|unfold filter_calls; simpl; lia].
    + apply bind_Ok in H. destruct H as ([s fr] & h1 & Hs & H).
      apply expand_once_made in Hs. destruct Hs as (picked & _ & Hm).
      apply IH in H. destruct H as (calls & Hm' & Hle).
      eexists. split; [exact (made_trans _ _ _ _ _ Hm Hm')|].
      rewrite !filter_calls_app, filter_calls_for.
      change (filter_calls [CallFilter (a :: q)]) with 1. lia.
Qed.

(** X11: a run makes at most [rounds] filter calls, that is, it runs at most
    [rounds] expansion rounds (none when [rounds] is negative). *)
Theorem round_budget eventic_edges rounds cfg h g h' :
  build_fusion_graph sv eventic_edges rounds cfg h = (Ok g, h') ->
  exists calls,
    made calls h h' /\ filter_calls calls <= Z.to_nat (Z.max 0 rounds).
Proof.
  unfold build_fusion_graph. intros H.
  apply bind_Ok in H. destruct H as (acc & h1 & Hr & H).
  apply ret_Ok in H. destruct H as [_ ->].
  now apply rounds_loop_calls in Hr.
Qed.

Context (Hdown : sources_down sv).

Lemma expand_agent_degraded cfg agent acc h acc' h' :
  expand_agent sv cfg agent acc h = (Ok acc', h') ->
  snd acc' = snd acc
  /\ exists defs, fst acc' = fst acc ++ defs /\ only_definitions cfg defs.
Proof.
  destruct Hdown as [Hc Hd]. unfold expand_agent. intros H.
  apply bind_Ok in H. destruct H as (acc1 & h1 & H1 & H).
  apply bind_Ok in H. destruct H as (acc2 & h2 & H2 & H3).
  assert (E1 : acc1 = acc).
  { destruct (use_concept_graph cfg).
    - apply bind_Ok in H1. destruct H1 as (c & hc & Hf & Hr).
      unfold fetch_conceptnet_triples in Hf. rewrite Hc in Hf.
      injection Hf as <- _. apply ret_Ok in Hr. destruct Hr as [-> _].
      simpl. rewrite !app_nil_r. now destruct acc.
    - now apply ret_Ok in H1. }
  assert (E2 : acc2 = acc1).
  { destruct (use_entity_graph cfg).
    - apply bind_Ok in H2. destruct H2 as (c & hc & Hf & Hr).
      unfold fetch_dbpedia_triples in Hf. rewrite Hd in Hf.
      injection Hf as <- _. apply ret_Ok in Hr. destruct Hr as [-> _].
      simpl. rewrite !app_nil_r. now destruct acc1.
    - now apply ret_Ok in H2. }
  subst acc2 acc1.
  destruct (use_term_definition_graph cfg).
  - apply bind_Ok in H3. destruct H3 as (l & hl & _ & Hr).
    destruct (include_tdg_edges cfg) eqn:Ei; apply ret_Ok in Hr;
      destruct Hr as [-> _].
    + split; [reflexivity|]. exists (map (tagged "term_definition") l).
      split; [reflexivity|]. split; [|rewrite Ei; discriminate].
      apply Forall_forall. intros e He. apply list_elem_of_fmap in He.
      destruct He as (t & -> & _). reflexivity.
    + split; [reflexivity|]. exists []. rewrite app_nil_r.
      split; [reflexivity|]. split; [constructor|auto].
  - apply ret_Ok in H3. destruct H3 as [-> _]. split; [reflexivity|].
    exists []. rewrite app_nil_r. split; [reflexivity|]. split; [constructor|auto].
Qed.

Lemma expand_agents_degraded cfg hard_agents : forall acc h acc' h',
  expand_agents sv cfg hard_agents acc h = (Ok acc', h') ->
  snd acc' = snd acc
  /\ exists defs, fst acc' = fst acc ++ defs /\ only_definitions cfg defs.
Proof.
  induction hard_agents as [|agent rest IH]; intros acc h acc' h' H.
  - apply ret_Ok in H. destruct H as [-> _]. split; [reflexivity|].
    exists []. rewrite app_nil_r. split; [reflexivity|]. split; [constructor|auto].
  - simpl in H. apply bind_Ok in H. destruct H as (acc1 & h1 & H1 & H).
    apply expand_agent_degraded in H1. destruct H1 as (Hq1 & d1 & Hd1 & Ho1 & Hn1).
    apply IH in H. destruct H as (Hq & d2 & Hd2 & Ho2 & Hn2).
    split; [congruence|]. exists (d1 ++ d2).
    split; [rewrite Hd2, Hd1; now rewrite app_assoc|].
    split; [now apply Forall_app|].
    intros Hi. now rewrite (Hn1 Hi), (Hn2 Hi).
Qed.

Lemma expand_once_degraded cfg agent_list h es fr h' :
  _expand_once sv cfg agent_list h = (Ok (es, fr), h') ->
  fr = [] /\ only_definitions cfg es.
Proof.
  unfold _expand_once. intros H.
  apply bind_Ok in H. destruct H as (picked & h1 & _ & H).
  apply bind_Ok in H. destruct H as (acc & h2 & He & H).
  apply ret_Ok in H. destruct H as [H _]. injection H as -> ->.
  apply expand_agents_degraded in He.
  destruct He as (Hq & defs & Hdefs & Ho & Hn). simpl in Hq, Hdefs.
  rewrite Hq, Hdefs. split; [reflexivity|]. split.
  - apply Forall_forall. intros o Hin. apply dedup_loop_elem in Hin.
    destruct Hin as (e & Hin & _ & -> & _).
    rewrite Forall_forall in Ho. simpl. now rewrite (Ho e Hin).
  - intros Hi. now rewrite (Hn Hi).
Qed.

Lemma rounds_loop_degraded cfg n queue acc h acc' h' :
  rounds_loop sv cfg n queue acc h = (Ok acc', h') ->
  (exists step, acc' = acc ++ step /\ only_definitions cfg step)
  /\ exists calls, made calls h h' /\ filter_calls calls <= 1.
Proof.
  intros H. destruct n as [|n].
  - apply ret_Ok in H. destruct H as [-> ->]. split.
    + exists []. rewrite app_nil_r. split; [reflexivity|]. split; [constructor|auto].
    + exists []. split; [apply made_nil|auto].
  - simpl in H. destruct queue as [|a q].
    + apply ret_Ok in H. destruct H as [-> ->]. split.
      * exists []. rewrite app_nil_r. split; [reflexivity|]. split; [constructor|auto].
      * exists []. split; [apply made_nil|auto].
    + apply bind_Ok in H. destruct H as ([s fr] & h1 & Hs & H).
      pose proof Hs as Hcalls. apply expand_once_made in Hcalls.
      destruct Hcalls as (picked & _ & Hm).
      apply expand_once_degraded in Hs. destruct Hs as (-> & Ho).
      simpl in H. rewrite rounds_loop_no_agents in H. injection H as <- <-.
      split; [eauto|].
      eexists. split; [exact Hm|].
      rewrite filter_calls_app, filter_calls_for. reflexivity.
Qed.

(** X12: when the chat model answers and the Concept and Entity sources give
    nothing, the run returns after at most one round; its graph holds eventic
    and term_definition edges only, and it is the deduplicated seed edges when
    [include_tdg_edges] is off. *)
Theorem degraded_sources_seed_graph (Hsv : model_answers sv)
    eventic_edges rounds cfg h :
  exists g h',
    build_fusion_graph sv eventic_edges rounds cfg h = (Ok g, h')
    /\ (include_tdg_edges cfg = false ->
        edges g = _dedup_edges (_eventic_to_triples eventic_edges))
    /\ (forall o, o ∈ edges g ->
          source_graph o = Some "eventic"
          \/ source_graph o = Some "term_definition")
    /\ exists calls, made calls h h' /\ filter_calls calls <= 1.
Proof.
  destruct (build_fusion_graph_returns sv Hsv eventic_edges rounds cfg h)
    as (g & h' & Hrun).
  exists g, h'. split; [exact Hrun|].
  unfold build_fusion_graph in Hrun.
  apply bind_Ok in Hrun. destruct Hrun as (acc & h1 & Hr & H).
  apply ret_Ok in H. destruct H as [-> ->].
  apply rounds_loop_degraded in Hr.
  destruct Hr as ((step & -> & Ho & Hn) & Hcalls). simpl.
  split; [|split; [|exact Hcalls]].
  - intros Hi. rewrite (Hn Hi), app_nil_r. reflexivity.
  - intros o Hin. apply dedup_loop_elem in Hin.
    destruct Hin as (e & Hin & _ & -> & _). simpl.
    apply elem_of_app in Hin. destruct Hin as [Hin|Hin].
    + left. unfold _eventic_to_triples in Hin.
      rewrite list_elem_of_In, in_flat_map in Hin.
      destruct Hin as (row & _ & Hin).
      match type of Hin with
      | In _ (if ?c then _ else _) => destruct c; [|inversion Hin]
      end.
      destruct Hin as [<-|[]]. reflexivity.
    + right. rewrite Forall_forall in Ho. now rewrite (Ho e Hin).
Qed.

End Budget.

(** ** More on the Concept adapter *)

Lemma insert_desc_of_weight w x l :
  of_weight w (insert_desc x l) = of_weight w (x :: l).
Proof.
  induction l as [|y r IH]; [reflexivity|]. simpl insert_desc.
  destruct (Qltb (weight_of x) (weight_of y)) eqn:E; [|reflexivity].
  unfold of_weight in *. simpl in *. rewrite IH.
  destruct (Qeq_bool (weight_of x) w) eqn:Ex; [|reflexivity].
  destruct (Qeq_bool (weight_of y) w) eqn:Ey; [|reflexivity].
  exfalso. apply Qeq_bool_iff in Ex, Ey.
  unfold Qltb in E. apply negb_true_iff in E.
  assert (Hle : (weight_of y <= weight_of x)%Q)
    by (rewrite Ex, Ey; apply Qle_refl).
  apply Qle_bool_iff in Hle. congruence.
Qed.

(** X13: the ranking is a stable sort: it is a permutation of the kept edges
    in descending order of weight, and edges of equal weight stay in the order
    of the response. *)
Theorem sort_desc_stable l :
  sort_desc l ≡ₚ l
  /\ StronglySorted heavier_first (sort_desc l)
  /\ forall w, of_weight w (sort_desc l) = of_weight w l.
Proof.
  split; [apply sort_desc_perm|]. split; [apply sort_desc_sorted|].
  intros w. induction l as [|x r IH]; [reflexivity|].
  simpl sort_desc. rewrite insert_desc_of_weight.
  unfold of_weight in *. simpl. now rewrite IH.
Qed.

(** X14: how [max_num] truncates.  The bounded result is a prefix of the
    unbounded one; a bound [n >= 0] keeps the first [n] triples, so [0] keeps
    none, and a negative bound [-k] does not bound the count but drops the [k]
    lowest-ranked triples. *)
Theorem concept_truncation relations min_weight n cn_edges :
  let all := shape_conceptnet relations min_weight None cn_edges in
  let out := shape_conceptnet relations min_weight (Some n) cn_edges in
  out `prefix_of` all
  /\ length out =
       if (n <? 0)%Z then length all - Z.to_nat (- n)
       else Nat.min (Z.to_nat n) (length all).
Proof.
  unfold shape_conceptnet, slice_to.
  set (ranked := sort_desc (collect_edges relations min_weight ∅ cn_edges)).
  simpl.
  set (k := if (n <? 0)%Z then Z.to_nat (Z.of_nat (length ranked) + n)
            else Z.to_nat n).
  assert (Hout : (if (n <? 0)%Z
                  then firstn (Z.to_nat (Z.of_nat (length ranked) + n)) ranked
                  else firstn (Z.to_nat n) ranked) = firstn k ranked)
    by (unfold k; now destruct (n <? 0)%Z).
  rewrite Hout. split.
  - exists (map pop_weight (skipn k ranked)).
    now rewrite <- map_app, firstn_skipn.
  - rewrite !length_map, length_firstn. unfold k.
    destruct (n <? 0)%Z eqn:E; [apply Z.ltb_lt in E|]; lia.
Qed.

Lemma elem_of_firstn {A : Type} (x : A) n (l : list A) :
  x ∈ firstn n l -> x ∈ l.
Proof.
  intros H. rewrite <- (firstn_skipn n l). apply elem_of_app. now left.
Qed.

Lemma elem_of_slice_to {A : Type} (x : A) n (l : list A) :
  x ∈ slice_to n l -> x ∈ l.
Proof. unfold slice_to. destruct (n <? 0)%Z; apply elem_of_firstn. Qed.

Lemma collect_edges_no_relations min_weight cn_edges : forall seen,
  collect_edges (Some []) min_weight seen cn_edges =
  collect_edges None min_weight seen cn_edges.
Proof.
  induction cn_edges as [|edge rest IH]; intros seen; [reflexivity|].
  simpl. rewrite !IH. reflexivity.
Qed.

(** X15: the relation filter.  An empty collection of relations filters
    nothing; a non-empty one lets through only triples whose relation it
    holds. *)
Theorem concept_relation_filter min_weight max_num cn_edges :
  shape_conceptnet (Some []) min_weight max_num cn_edges =
    shape_conceptnet None min_weight max_num cn_edges
  /\ forall r rs t,
       t ∈ shape_conceptnet (Some (r :: rs)) min_weight max_num cn_edges ->
       relation t ∈ r :: rs.
Proof.
  split.
  - unfold shape_conceptnet. now rewrite collect_edges_no_relations.
  - intros r rs t Ht. unfold shape_conceptnet in Ht.
    apply list_elem_of_fmap in Ht. destruct Ht as (t0 & -> & Ht).
    assert (Hranked : t0 ∈ sort_desc
              (collect_edges (Some (r :: rs)) min_weight ∅ cn_edges)).
    { destruct max_num as [n|]; [|exact Ht]. now apply elem_of_slice_to in Ht. }
    rewrite sort_desc_perm in Hranked. apply collect_edges_elem in Hranked.
    destruct Hranked as (edge & _ & _ & _ & Hr & _).
    simpl in Hr. now apply bool_decide_eq_true in Hr.
Qed.

Lemma last_segment_no_slash s : no_slash (PyStr.last_segment s) = true.
Proof.
  unfold no_slash. induction s as [|c r IH]; [reflexivity|].
  cbn [PyStr.last_segment]. destruct (Ascii.eqb c "/") eqn:Ec; [exact IH|].
  destruct (existsb (Ascii.eqb "/") (list_ascii_of_string r)) eqn:Er; [exact IH|].
  cbn [list_ascii_of_string existsb]. rewrite Er, Ascii.eqb_sym, Ec. reflexivity.
Qed.

Lemma append_cons c p x :
  String.append (String c p) x = String c (String.append p x).
Proof. reflexivity. Qed.

Lemma last_segment_suffix s :
  exists p, s = (p ++ PyStr.last_segment s)%string
            /\ (p = "" \/ exists q, p = (q ++ "/")%string).
Proof.
  induction s as [|c r IH]; [exists ""; auto|].
  destruct IH as (p & Hp & Hq). cbn [PyStr.last_segment].
  destruct (Ascii.eqb c "/") eqn:Ec.
  - apply Ascii.eqb_eq in Ec. subst c. exists (String "/" p).
    split; [now rewrite append_cons, <- Hp|]. right.
    destruct Hq as [->|(q & ->)]; [exists ""; reflexivity|].
    exists (String "/" q). reflexivity.
  - destruct (existsb (Ascii.eqb "/") (list_ascii_of_string r)) eqn:Er.
    + exists (String c p). split; [now rewrite append_cons, <- Hp|]. right.
      destruct Hq as [->|(q & ->)].
      * exfalso. change (r = PyStr.last_segment r) in Hp.
        pose proof (last_segment_no_slash r) as Hn. unfold no_slash in Hn.
        rewrite <- Hp, Er in Hn. discriminate.
      * exists (String c q). reflexivity.
    + exists "". auto.
Qed.

Lemma after_last_slash_segment id : after_last_slash id (PyStr.last_segment id).
Proof. split; [apply last_segment_no_slash|apply last_segment_suffix]. Qed.

Lemma rel_of_after_last_slash node :
  after_last_slash (default "" (at_id node)) (_rel_of node).
Proof.
  unfold _rel_of. destruct (default "" (at_id node)) as [|c r] eqn:E.
  - split; [reflexivity|]. exists "". auto.
  - cbn [PyStr.truthy]. apply after_last_slash_segment.
Qed.

Lemma label_of_names_node node : names_node node (_label_of node).
Proof.
  unfold names_node, _label_of.
  destruct (label node) as [[|c l]|]; simpl;
    [apply after_last_slash_segment|reflexivity|apply after_last_slash_segment].
Qed.

(** X16: how the adapter names things.  Every returned triple comes from an
    edge of the response; its relation is what follows the last slash of the
    id of the edge's relation, and its source and target name the start and
    the end node of the edge: by the label when the node has one that is not
    empty, and by what follows the last slash of the node's id otherwise. *)
Theorem concept_names relations min_weight max_num cn_edges t :
  t ∈ shape_conceptnet relations min_weight max_num cn_edges ->
  exists edge,
    edge ∈ cn_edges
    /\ after_last_slash (default "" (at_id (default empty_node (cn_rel edge))))
         (relation t)
    /\ names_node (default empty_node (cn_start edge)) (source t)
    /\ names_node (default empty_node (cn_end edge)) (target t).
Proof.
  intros Ht. unfold shape_conceptnet in Ht.
  apply list_elem_of_fmap in Ht. destruct Ht as (t0 & -> & Ht).
  assert (Hranked : t0 ∈ sort_desc (collect_edges relations min_weight ∅ cn_edges)).
  { destruct max_num as [n|]; [|exact Ht]. now apply elem_of_slice_to in Ht. }
  rewrite sort_desc_perm in Hranked. apply collect_edges_elem in Hranked.
  destruct Hranked as (edge & Hedge & -> & _).
  exists edge. split; [exact Hedge|]. simpl.
  split; [apply rel_of_after_last_slash|].
  split; apply label_of_names_node.
Qed.

(** ** The Entity adapter *)

(** Characters and words *)

Lemma is_alnum_lower_char c :
  Dbpedia.is_alnum (PyStr.lower_char c) = Dbpedia.is_alnum c.
Proof. destruct c as [[] [] [] [] [] [] [] []]; reflexivity. Qed.

Lemma is_alnum_upper_char c :
  Dbpedia.is_alnum (Dbpedia.upper_char c) = Dbpedia.is_alnum c.
Proof. destruct c as [[] [] [] [] [] [] [] []]; reflexivity. Qed.

Lemma lower_upper_char c :
  PyStr.lower_char (Dbpedia.upper_char c) = PyStr.lower_char c.
Proof. destruct c as [[] [] [] [] [] [] [] []]; reflexivity. Qed.

Lemma lower_char_idem c :
  PyStr.lower_char (PyStr.lower_char c) = PyStr.lower_char c.
Proof. destruct c as [[] [] [] [] [] [] [] []]; reflexivity. Qed.

Lemma isspace_not_alnum c : PyStr.isspace c = true -> Dbpedia.is_alnum c = false.
Proof. destruct c as [[] [] [] [] [] [] [] []]; vm_compute; congruence. Qed.

Lemma alnum_not_slash c : Dbpedia.is_alnum c = true -> Ascii.eqb c "/" = false.
Proof. destruct c as [[] [] [] [] [] [] [] []]; vm_compute; congruence. Qed.

Lemma word_char_non_space c :
  Dbpedia.is_alnum c || Ascii.eqb c "_" = true -> PyStr.isspace c = false.
Proof. destruct c as [[] [] [] [] [] [] [] []]; vm_compute; congruence. Qed.

Lemma word_char_safe c :
  Dbpedia.is_alnum c || Ascii.eqb c "_" = true -> Dbpedia.is_safe c = true.
Proof. destruct c as [[] [] [] [] [] [] [] []]; vm_compute; congruence. Qed.

Lemma lower_idem s : PyStr.lower (PyStr.lower s) = PyStr.lower s.
Proof.
  induction s as [|c r IH]; [reflexivity|]. simpl. now rewrite lower_char_idem, IH.
Qed.

Lemma lower_app a b :
  PyStr.lower (a ++ b)%string = (PyStr.lower a ++ PyStr.lower b)%string.
Proof.
  induction a as [|c r IH]; [reflexivity|].
  rewrite !append_cons. simpl. now rewrite append_cons, IH.
Qed.

Lemma has_alnum_lower s : Dbpedia.has_alnum (PyStr.lower s) = Dbpedia.has_alnum s.
Proof.
  unfold Dbpedia.has_alnum. induction s as [|c r IH]; [reflexivity|].
  simpl. now rewrite is_alnum_lower_char, IH.
Qed.

Lemma has_alnum_lstrip s : Dbpedia.has_alnum (PyStr.lstrip s) = Dbpedia.has_alnum s.
Proof.
  induction s as [|c r IH]; [reflexivity|]. simpl.
  destruct (PyStr.isspace c) eqn:E; [|reflexivity].
  rewrite IH. unfold Dbpedia.has_alnum. simpl.
  now rewrite (isspace_not_alnum _ E).
Qed.

Lemma has_alnum_rstrip s : Dbpedia.has_alnum (PyStr.rstrip s) = Dbpedia.has_alnum s.
Proof.
  induction s as [|c r IH]; [reflexivity|]. simpl.
  unfold Dbpedia.has_alnum in *. simpl. rewrite <- IH.
  destruct (PyStr.rstrip r) as [|c' r']; [|reflexivity].
  destruct (PyStr.isspace c) eqn:E; simpl; [|reflexivity].
  now rewrite (isspace_not_alnum _ E).
Qed.

Lemma has_alnum_strip s : Dbpedia.has_alnum (PyStr.strip s) = Dbpedia.has_alnum s.
Proof. unfold PyStr.strip. now rewrite has_alnum_rstrip, has_alnum_lstrip. Qed.

Lemma is_word_app a b :
  Dbpedia.is_word (a ++ b)%string = Dbpedia.is_word a && Dbpedia.is_word b.
Proof.
  unfold Dbpedia.is_word. induction a as [|c r IH]; [reflexivity|].
  rewrite append_cons. simpl. now rewrite IH, andb_assoc.
Qed.

Lemma quote_word s : Dbpedia.is_word s = true -> Dbpedia.quote s = s.
Proof.
  unfold Dbpedia.is_word. induction s as [|c r IH]; [reflexivity|].
  simpl. intros H. apply andb_prop in H. destruct H as [Hc Hr].
  now rewrite (word_char_safe _ Hc), IH.
Qed.

Lemma word_ends s :
  Dbpedia.is_word s = true ->
  PyStr.non_space (PyStr.head s) = true /\ PyStr.non_space (PyStr.last s) = true.
Proof.
  unfold Dbpedia.is_word. induction s as [|c r IH]; [auto|].
  simpl. intros H. apply andb_prop in H. destruct H as [Hc Hr].
  rewrite (word_char_non_space _ Hc). split; [reflexivity|].
  destruct (IH Hr) as [_ Hl]. destruct (PyStr.last r); [exact Hl|].
  simpl. now rewrite (word_char_non_space _ Hc).
Qed.

Lemma strip_word s : Dbpedia.is_word s = true -> PyStr.strip s = s.
Proof.
  intros H. destruct (word_ends s H) as [Hh Hl]. unfold PyStr.strip.
  rewrite (lstrip_id s Hh). now apply rstrip_id.
Qed.

Lemma strip_idem s : PyStr.strip (PyStr.strip s) = PyStr.strip s.
Proof.
  pose proof (strip_trimmed s) as H. unfold PyStr.is_trimmed in H.
  apply andb_prop in H. destruct H as [Hh Hl]. unfold PyStr.strip at 1.
  rewrite (lstrip_id _ Hh). now apply rstrip_id.
Qed.

(** The tokens of a keyword *)

Lemma findall_alnum_tokens s : Forall is_token (Dbpedia.findall_alnum s).
Proof.
  induction s as [|c r IH]; [constructor|]. simpl.
  destruct (Dbpedia.is_alnum c) eqn:Ec; [|exact IH].
  destruct (Dbpedia.starts_alnum r).
  - destruct (Dbpedia.findall_alnum r) as [|t ts].
    + repeat constructor; [discriminate|simpl; now rewrite Ec].
    + inversion IH as [|? ? [_ Ht] Hts]; subst. constructor; [|exact Hts].
      split; [discriminate|]. simpl. now rewrite Ec, Ht.
  - constructor; [|exact IH]. split; [discriminate|]. simpl. now rewrite Ec.
Qed.

Lemma findall_alnum_nil s :
  Dbpedia.findall_alnum s = [] <-> Dbpedia.has_alnum s = false.
Proof.
  unfold Dbpedia.has_alnum. induction s as [|c r IH]; [tauto|]. simpl.
  destruct (Dbpedia.is_alnum c); [|exact IH]. simpl.
  split; [|discriminate].
  destruct (Dbpedia.starts_alnum r); [|discriminate].
  destruct (Dbpedia.findall_alnum r); discriminate.
Qed.

Lemma findall_alnum_lower s :
  PyStr.lower s = s ->
  Forall (fun t => PyStr.lower t = t) (Dbpedia.findall_alnum s).
Proof.
  induction s as [|c r IH]; [constructor|]. simpl. intros H.
  injection H as Hc Hr. specialize (IH Hr).
  destruct (Dbpedia.is_alnum c); [|exact IH].
  destruct (Dbpedia.starts_alnum r).
  - destruct (Dbpedia.findall_alnum r) as [|t ts].
    + repeat constructor. simpl. now rewrite Hc.
    + inversion IH as [|? ? Ht Hts]; subst. constructor; [|exact Hts].
      simpl. now rewrite Hc, Ht.
  - constructor; [|exact IH]. simpl. now rewrite Hc.
Qed.

(** A token in front of an underscore is found as it is. *)
Lemma findall_alnum_token t s :
  is_token t ->
  Dbpedia.findall_alnum (t ++ String "_" s)%string = t :: Dbpedia.findall_alnum s
  /\ Dbpedia.findall_alnum t = [t].
Proof.
  intros [Hne Hall]. induction t as [|c r IH]; [congruence|].
  simpl in Hall. apply andb_prop in Hall. destruct Hall as [Hc Hr].
  rewrite append_cons. cbn [Dbpedia.findall_alnum]. rewrite Hc.
  destruct r as [|c' r'].
  - simpl. auto.
  - destruct IH as [IH1 IH2]; [discriminate|exact Hr|].
    rewrite IH1, IH2. simpl in Hr. apply andb_prop in Hr. destruct Hr as [Hc' _].
    rewrite append_cons. cbn [Dbpedia.starts_alnum]. rewrite Hc'. auto.
Qed.

Lemma findall_alnum_join ts :
  Forall is_token ts -> Dbpedia.findall_alnum (Dbpedia.join "_" ts) = ts.
Proof.
  induction ts as [|t ts IH]; [reflexivity|]. intros H.
  inversion H as [|? ? Ht Hts]; subst.
  destruct ts as [|t' ts']; [exact (proj2 (findall_alnum_token t "" Ht))|].
  change (Dbpedia.join "_" (t :: t' :: ts'))
    with (t ++ String "_" (Dbpedia.join "_" (t' :: ts')))%string.
  rewrite (proj1 (findall_alnum_token t _ Ht)). now rewrite IH.
Qed.

Lemma capitalize_word t :
  is_token t -> Dbpedia.is_word (Dbpedia.capitalize t) = true
                /\ Dbpedia.capitalize t <> "".
Proof.
  intros [Hne Hall]. destruct t as [|c r]; [congruence|].
  split; [|discriminate]. simpl in Hall. apply andb_prop in Hall.
  destruct Hall as [Hc Hr]. unfold Dbpedia.is_word. simpl.
  rewrite is_alnum_upper_char, Hc. simpl.
  clear Hne Hc. induction r as [|c' r' IH]; [reflexivity|].
  simpl in *. apply andb_prop in Hr. destruct Hr as [Hc' Hr'].
  now rewrite is_alnum_lower_char, Hc', IH.
Qed.

Lemma lower_capitalize t : PyStr.lower (Dbpedia.capitalize t) = PyStr.lower t.
Proof.
  destruct t as [|c r]; [reflexivity|]. simpl.
  now rewrite lower_upper_char, lower_idem.
Qed.

Lemma join_capitalize_word ts :
  Forall is_token ts -> ts <> [] ->
  Dbpedia.is_word (Dbpedia.join "_" (map Dbpedia.capitalize ts)) = true
  /\ Dbpedia.join "_" (map Dbpedia.capitalize ts) <> "".
Proof.
  induction ts as [|t ts IH]; [congruence|]. intros H _.
  inversion H as [|? ? Ht Hts]; subst.
  destruct (capitalize_word t Ht) as [Hw Hne].
  destruct ts as [|t' ts']; [simpl; auto|].
  destruct IH as [IHw _]; [exact Hts|discriminate|].
  change (Dbpedia.join "_" (map Dbpedia.capitalize (t :: t' :: ts')))
    with (Dbpedia.capitalize t
          ++ String "_" (Dbpedia.join "_" (map Dbpedia.capitalize (t' :: ts'))))%string.
  split.
  - rewrite is_word_app, Hw. simpl. exact IHw.
  - destruct (Dbpedia.capitalize t); [congruence|discriminate].
Qed.

Lemma lower_join_capitalize ts :
  Forall (fun t => PyStr.lower t = t) ts ->
  PyStr.lower (Dbpedia.join "_" (map Dbpedia.capitalize ts)) = Dbpedia.join "_" ts.
Proof.
  induction ts as [|t ts IH]; [reflexivity|]. intros H.
  inversion H as [|? ? Ht Hts]; subst.
  destruct ts as [|t' ts']; [simpl; now rewrite lower_capitalize|].
  change (Dbpedia.join "_" (map Dbpedia.capitalize (t :: t' :: ts')))
    with (Dbpedia.capitalize t
          ++ String "_" (Dbpedia.join "_" (map Dbpedia.capitalize (t' :: ts'))))%string.
  rewrite lower_app, lower_capitalize, Ht.
  change (PyStr.lower (String "_" ?x)) with (String "_" (PyStr.lower x)).
  now rewrite (IH Hts).
Qed.

(** X17: the fallback name of an ASCII keyword.  When the keyword holds a
    letter or a digit the name consists of letters, digits and underscores
    only, so [quote] leaves it as it is; otherwise it is the stripped keyword.
    Normalising a second time changes nothing. *)
Theorem normalize_keyword_for_dbr_word keyword :
  is_ascii keyword = true ->
  let name := Dbpedia._normalize_keyword_for_dbr keyword in
  (if Dbpedia.has_alnum keyword
   then Dbpedia.is_word name = true /\ name <> "" /\ Dbpedia.quote name = name
   else name = PyStr.strip keyword)
  /\ Dbpedia._normalize_keyword_for_dbr name = name.
Proof.
  intros _. unfold Dbpedia._normalize_keyword_for_dbr.
  pose proof (findall_alnum_tokens (PyStr.lower (PyStr.strip keyword))) as Htok.
  pose proof (findall_alnum_lower (PyStr.lower (PyStr.strip keyword))
                (lower_idem _)) as Hlow.
  pose proof (findall_alnum_nil (PyStr.lower (PyStr.strip keyword))) as Hnil.
  rewrite has_alnum_lower, has_alnum_strip in Hnil.
  destruct (Dbpedia.findall_alnum (PyStr.lower (PyStr.strip keyword)))
    as [|t ts] eqn:E.
  - rewrite (proj1 Hnil eq_refl). cbn zeta. split; [reflexivity|].
    rewrite strip_idem, E. reflexivity.
  - destruct (Dbpedia.has_alnum keyword) eqn:Ha;
      [|destruct Hnil as [_ Hnil]; discriminate (Hnil eq_refl)].
    destruct (join_capitalize_word (t :: ts) Htok) as [Hw Hne]; [discriminate|].
    cbn zeta. split; [split; [exact Hw|split; [exact Hne|now apply quote_word]]|].
    rewrite (strip_word _ Hw), (lower_join_capitalize _ Hlow).
    rewrite (findall_alnum_join _ Htok). reflexivity.
Qed.

(** Local names *)

Lemma rstrip_slash_app s :
  Dbpedia.rstrip_slash (s ++ "/")%string = Dbpedia.rstrip_slash s.
Proof.
  induction s as [|c r IH]; [reflexivity|].
  rewrite append_cons. cbn [Dbpedia.rstrip_slash]. now rewrite IH.
Qed.

Lemma no_slash_cons c r :
  no_slash (String c r) = negb (Ascii.eqb c "/") && no_slash r.
Proof.
  unfold no_slash. cbn [list_ascii_of_string existsb].
  rewrite negb_orb, (Ascii.eqb_sym "/" c). reflexivity.
Qed.

Lemma rstrip_slash_id s : no_slash s = true -> Dbpedia.rstrip_slash s = s.
Proof.
  induction s as [|c r IH]; [reflexivity|]. rewrite no_slash_cons.
  intros H. apply andb_prop in H. destruct H as [Hc Hr].
  cbn [Dbpedia.rstrip_slash]. rewrite (IH Hr).
  apply negb_true_iff in Hc. rewrite Hc. now destruct r.
Qed.

Lemma rstrip_slash_prefix p s :
  s <> "" -> no_slash s = true ->
  Dbpedia.rstrip_slash (p ++ s)%string = (p ++ s)%string.
Proof.
  intros Hne Hs. induction p as [|c r IH]; [now apply rstrip_slash_id|].
  rewrite append_cons. cbn [Dbpedia.rstrip_slash]. rewrite IH.
  destruct (r ++ s)%string eqn:E; [|reflexivity].
  exfalso. destruct r; [apply Hne; exact E|].
  rewrite append_cons in E. discriminate.
Qed.

Lemma last_segment_id s : no_slash s = true -> PyStr.last_segment s = s.
Proof.
  destruct s as [|c r]; [reflexivity|]. rewrite no_slash_cons.
  intros H. apply andb_prop in H. destruct H as [Hc Hr].
  apply negb_true_iff in Hc. unfold no_slash in Hr. apply negb_true_iff in Hr.
  cbn [PyStr.last_segment]. now rewrite Hc, Hr.
Qed.

Lemma last_segment_after_slash p s :
  no_slash s = true -> PyStr.last_segment (p ++ String "/" s)%string = s.
Proof.
  intros Hs. induction p as [|c r IH].
  - change (PyStr.last_segment (String "/" s) = s). cbn [PyStr.last_segment].
    rewrite Ascii.eqb_refl. now apply last_segment_id.
  - rewrite append_cons. cbn [PyStr.last_segment].
    destruct (Ascii.eqb c "/"); [exact IH|].
    assert (Hex : existsb (Ascii.eqb "/")
                    (list_ascii_of_string (r ++ String "/" s)%string) = true).
    { clear IH. induction r as [|c' r' IHr]; [reflexivity|].
      rewrite append_cons. cbn [list_ascii_of_string existsb].
      rewrite IHr. apply orb_true_r. }
    now rewrite Hex.
Qed.

Lemma append_slash p s :
  (p ++ String "/" s)%string = ((p ++ "/") ++ s)%string.
Proof.
  induction p as [|c r IH]; [reflexivity|]. rewrite !append_cons. now rewrite IH.
Qed.

(** X18: the local name of a URI is what follows its last slash, trailing
    slashes apart: it holds no slash, a slash at the end of the URI does not
    change it, and a URI that ends in a slash and a non-empty name without
    slashes has that name. *)
Theorem localname_last_token uri :
  no_slash (Dbpedia._localname uri) = true
  /\ Dbpedia._localname (uri ++ "/")%string = Dbpedia._localname uri
  /\ (no_slash uri = true -> Dbpedia._localname uri = uri)
  /\ (forall name, name <> "" -> no_slash name = true ->
        Dbpedia._localname (uri ++ String "/" name)%string = name).
Proof.
  unfold Dbpedia._localname. repeat split.
  - destruct (PyStr.truthy uri); [apply last_segment_no_slash|reflexivity].
  - rewrite rstrip_slash_app. destruct uri; reflexivity.
  - intros H. destruct uri as [|c r]; [reflexivity|].
    cbn [PyStr.truthy]. rewrite (rstrip_slash_id _ H). now apply last_segment_id.
  - intros name Hne Hs.
    assert (Ht : PyStr.truthy (uri ++ String "/" name)%string = true)
      by (now destruct uri).
    rewrite Ht.
    rewrite append_slash, (rstrip_slash_prefix (uri ++ "/") name Hne Hs).
    rewrite <- append_slash. now apply last_segment_after_slash.
Qed.

(** Wiki relations *)

Lemma blocklist_covered rel :
  rel ∈ Dbpedia.WIKI_REL_LOCAL_BLOCKLIST ->
  bool_decide (rel ∈ Dbpedia.blocklist_beyond_prefix)
  || String.prefix Dbpedia.WIKI_REL_LOCAL_PREFIX rel = true.
Proof.
  unfold Dbpedia.WIKI_REL_LOCAL_BLOCKLIST. intros H.
  repeat (apply elem_of_cons in H; destruct H as [->|H]);
    try (vm_compute; reflexivity).
  inversion H.
Qed.

Lemma beyond_prefix_blocked rel :
  rel ∈ Dbpedia.blocklist_beyond_prefix -> rel ∈ Dbpedia.WIKI_REL_LOCAL_BLOCKLIST.
Proof.
  unfold Dbpedia.blocklist_beyond_prefix, Dbpedia.WIKI_REL_LOCAL_BLOCKLIST.
  intros H. repeat (apply elem_of_cons in H; destruct H as [->|H]);
    [| | |inversion H]; apply list_elem_of_In; simpl; tauto.
Qed.

(** X19: which relations count as wiki metadata.  A relation with an empty
    local name never does; otherwise it does when its local name starts with
    [wikiPage], is one of three further names, or its URI holds
    [dbpedia.org/ontology/wikiPage].  The other twelve entries of the
    blocklist are covered by the prefix rule. *)
Theorem is_wiki_relation_cases p_uri rel_local :
  Dbpedia._is_wiki_relation p_uri rel_local =
    PyStr.truthy rel_local
    && (bool_decide (rel_local ∈ Dbpedia.blocklist_beyond_prefix)
        || String.prefix "wikiPage" rel_local
        || Dbpedia.contains "dbpedia.org/ontology/wikiPage" p_uri).
Proof.
  unfold Dbpedia._is_wiki_relation.
  destruct (PyStr.truthy rel_local); [|reflexivity]. cbn [negb andb].
  case_bool_decide as Hb.
  - apply blocklist_covered in Hb.
    change Dbpedia.WIKI_REL_LOCAL_PREFIX with "wikiPage" in Hb. now rewrite Hb.
  - rewrite bool_decide_eq_false_2
      by (intros H; apply Hb; now apply beyond_prefix_blocked).
    change Dbpedia.WIKI_REL_LOCAL_PREFIX with "wikiPage".
    now destruct (String.prefix "wikiPage" rel_local).
Qed.

(** The loop over the bindings *)

Lemma collect_bindings_bound ew rel n label bs : forall seen len,
  Dbpedia.collect_bindings ew rel (Some n) label seen len bs =
  firstn (Z.to_nat (Z.max 1 (n - Z.of_nat len)))
    (Dbpedia.collect_bindings ew rel None label seen len bs).
Proof.
  induction bs as [|b rest IH]; intros seen len; [now rewrite firstn_nil|].
  cbn [Dbpedia.collect_bindings].
  destruct (ew && Dbpedia._is_wiki_relation _ _); [apply IH|].
  destruct (match rel with Some (r :: rs) => _ | _ => false end); [apply IH|].
  case_bool_decide as Hs; [apply IH|].
  replace (Z.to_nat (Z.max 1 (n - Z.of_nat len)))
    with (S (Z.to_nat (Z.max 1 (n - Z.of_nat len)) - 1)) by lia.
  cbn [firstn]. f_equal.
  destruct (n <=? Z.of_nat (S len))%Z eqn:E.
  - apply Z.leb_le in E.
    replace (Z.to_nat (Z.max 1 (n - Z.of_nat len)) - 1) with 0 by lia.
    reflexivity.
  - apply Z.leb_gt in E. rewrite IH. f_equal. lia.
Qed.

Lemma passes_split ew rel b :
  Dbpedia.passes ew rel b =
    negb (ew && Dbpedia._is_wiki_relation (default "" (Dbpedia.p_value b))
                  (Dbpedia._localname (default "" (Dbpedia.p_value b))))
    && negb match rel with
            | Some (r :: rs) =>
                negb (bool_decide
                        (Dbpedia._localname (default "" (Dbpedia.p_value b)) ∈ r :: rs))
            | _ => false
            end.
Proof.
  unfold Dbpedia.passes, relation_allowed. f_equal.
  destruct rel as [[|r rs]|]; try reflexivity. now rewrite negb_involutive.
Qed.

Lemma collect_bindings_elem ew rel mx label bs : forall seen len t,
  t ∈ Dbpedia.collect_bindings ew rel mx label seen len bs ->
  exists b, b ∈ bs /\ Dbpedia.passes ew rel b = true
            /\ t = Dbpedia.shaped_binding label b
            /\ key3 t ∉ seen.
Proof.
  induction bs as [|b rest IH]; intros seen len t Ht; [inversion Ht|].
  cbn [Dbpedia.collect_bindings] in Ht. pose proof (passes_split ew rel b) as Hp.
  assert (Hrest : forall seen' len',
            seen ⊆ seen' ->
            t ∈ Dbpedia.collect_bindings ew rel mx label seen' len' rest ->
            exists b0, b0 ∈ b :: rest /\ Dbpedia.passes ew rel b0 = true
                       /\ t = Dbpedia.shaped_binding label b0 /\ key3 t ∉ seen).
  { intros seen' len' Hsub H. apply IH in H.
    destruct H as (b0 & Hb & Hpass & -> & Hk).
    exists b0. repeat split; [now right|exact Hpass|]. set_solver. }
  destruct (ew && Dbpedia._is_wiki_relation _ _); [now apply (Hrest seen len)|].
  destruct (match rel with Some (r :: rs) => _ | _ => false end);
    [now apply (Hrest seen len)|].
  case_bool_decide as Hs; [now apply (Hrest seen len)|].
  apply elem_of_cons in Ht. destruct Ht as [->|Ht].
  - exists b. repeat split; [now left|exact Hp|exact Hs].
  - destruct mx as [n|].
    + destruct (n <=? Z.of_nat (S len))%Z; [inversion Ht|].
      refine (Hrest _ (S len) _ Ht). set_solver.
    + refine (Hrest _ (S len) _ Ht). set_solver.
Qed.

Lemma collect_bindings_sublist ew rel mx label bs : forall seen len,
  Dbpedia.collect_bindings ew rel mx label seen len bs
  `sublist_of` map (Dbpedia.shaped_binding label)
                 (List.filter (Dbpedia.passes ew rel) bs).
Proof.
  induction bs as [|b rest IH]; intros seen len; [constructor|].
  cbn [Dbpedia.collect_bindings List.filter]. rewrite (passes_split ew rel b).
  destruct (ew && Dbpedia._is_wiki_relation _ _); [apply IH|].
  destruct (match rel with Some (r :: rs) => _ | _ => false end); [apply IH|].
  cbn [negb andb map].
  case_bool_decide as Hs; [apply sublist_cons, IH|].
  apply sublist_skip.
  destruct mx as [n|]; [|apply IH].
  destruct (n <=? Z.of_nat (S len))%Z; [apply sublist_nil_l|apply IH].
Qed.

Lemma collect_bindings_NoDup ew rel mx label bs : forall seen len,
  NoDup (map key3 (Dbpedia.collect_bindings ew rel mx label seen len bs)).
Proof.
  induction bs as [|b rest IH]; intros seen len; [constructor|].
  cbn [Dbpedia.collect_bindings].
  destruct (ew && Dbpedia._is_wiki_relation _ _); [apply IH|].
  destruct (match rel with Some (r :: rs) => _ | _ => false end); [apply IH|].
  case_bool_decide as Hs; [apply IH|].
  cbn [map]. apply NoDup_cons.
  assert (Hfresh : forall len',
            key3 {| source := label; relation := Dbpedia.relation_text b;
                    target := Dbpedia.target_text b; source_graph := None;
                    weight := None |}
            ∉ map key3
                (Dbpedia.collect_bindings ew rel mx label
                   ({[(PyStr.lower label, Dbpedia.relation_text b,
                       PyStr.lower (Dbpedia.target_text b))]} ∪ seen) len' rest)).
  { intros len' Hin. apply list_elem_of_fmap in Hin.
    destruct Hin as (t & Hk & Ht). apply collect_bindings_elem in Ht.
    destruct Ht as (_ & _ & _ & _ & Hn). apply Hn. rewrite <- Hk.
    unfold key3. simpl. set_solver. }
  destruct mx as [n|].
  - destruct (n <=? Z.of_nat (S len))%Z; [split; [inversion 1|constructor]|].
    split; [apply Hfresh|apply IH].
  - split; [apply Hfresh|apply IH].
Qed.

Lemma collect_bindings_complete ew rel label bs : forall seen len b,
  b ∈ bs -> Dbpedia.passes ew rel b = true ->
  key3 (Dbpedia.shaped_binding label b) ∈ seen
  \/ key3 (Dbpedia.shaped_binding label b)
     ∈ map key3 (Dbpedia.collect_bindings ew rel None label seen len bs).
Proof.
  induction bs as [|b0 rest IH]; intros seen len b Hb Hpass; [inversion Hb|].
  cbn [Dbpedia.collect_bindings]. pose proof (passes_split ew rel b0) as Hp.
  apply elem_of_cons in Hb.
  destruct (ew && Dbpedia._is_wiki_relation _ _).
  { destruct Hb as [->|Hb]; [simpl in Hp; congruence|now apply IH]. }
  destruct (match rel with Some (r :: rs) => _ | _ => false end).
  { destruct Hb as [->|Hb]; [simpl in Hp; congruence|now apply IH]. }
  case_bool_decide as Hs.
  { destruct Hb as [->|Hb]; [now left|now apply IH]. }
  destruct Hb as [->|Hb]; [right; cbn [map]; now left|].
  destruct (IH ({[(PyStr.lower label, Dbpedia.relation_text b0,
                   PyStr.lower (Dbpedia.target_text b0))]} ∪ seen) (S len) b Hb Hpass)
    as [Hin|Hin].
  - apply elem_of_union in Hin. destruct Hin as [Hin|Hin]; [|now left].
    right. cbn [map]. apply elem_of_cons. left.
    apply elem_of_singleton in Hin. exact Hin.
  - right. cbn [map]. now right.
Qed.

(** Resolution *)

Lemma first_uri_http results uri :
  Dbpedia.first_uri results = Some uri -> String.prefix "http" uri = true.
Proof.
  induction results as [|r rest IH]; [discriminate|]. simpl.
  destruct r as [s|l|d|b v]; try discriminate.
  destruct (Dbpedia.accepted_uri (Dbpedia.doc_uri d)) as [u|] eqn:E; [|exact IH].
  intros H. injection H as ->. unfold Dbpedia.accepted_uri in E.
  destruct (Dbpedia.doc_uri d) as [[s|l|d'|b v]|]; try discriminate.
  destruct (PyStr.truthy s && String.prefix "http" s) eqn:Ep; [|discriminate].
  injection E as ->. apply andb_prop in Ep. tauto.
Qed.

Lemma resolve_dbpedia_entity_http w keyword uri :
  Dbpedia.resolve_dbpedia_entity w keyword = Some uri ->
  String.prefix "http" uri = true.
Proof.
  unfold Dbpedia.resolve_dbpedia_entity.
  destruct (match Dbpedia.lookup_get w keyword with
            | Dbpedia.LookupJson data =>
                match Dbpedia.lookup_results data with
                | Some results => Dbpedia.first_uri results
                | None => None
                end
            | _ => None
            end) as [u|] eqn:E.
  - intros H. injection H as ->.
    destruct (Dbpedia.lookup_get w keyword) as [| |data]; try discriminate.
    destruct (Dbpedia.lookup_results data) as [results|]; [|discriminate].
    now apply first_uri_http with results.
  - cbn zeta. destruct (Dbpedia._check_resource_exists w _); [|discriminate].
    intros H. injection H as <-. reflexivity.
Qed.

Lemma prefix_http_truthy uri :
  String.prefix "http" uri = true -> PyStr.truthy uri = true.
Proof. destruct uri; [discriminate|reflexivity]. Qed.

Lemma fetch_dbpedia_triples_firstn w keyword relations n exclude_wiki :
  Dbpedia.fetch_dbpedia_triples w keyword relations (Some n) exclude_wiki
  = firstn (Z.to_nat (Z.max 1 n))
      (Dbpedia.fetch_dbpedia_triples w keyword relations None exclude_wiki).
Proof.
  unfold Dbpedia.fetch_dbpedia_triples.
  destruct (Dbpedia.resolve_dbpedia_entity w keyword) as [uri|];
    [|now rewrite firstn_nil].
  destruct (negb (PyStr.truthy uri)); [now rewrite firstn_nil|].
  destruct (Dbpedia.select_get w uri) as [| |bs]; try now rewrite firstn_nil.
  rewrite collect_bindings_bound. f_equal. lia.
Qed.

(** X20: how [max_num] bounds the Entity adapter.  The bounded result is the
    unbounded one cut after [max(1, max_num)] triples: the bound is tested
    after a triple has been added, so a bound of zero or less still lets one
    triple through. *)
Theorem dbpedia_truncation w keyword relations n exclude_wiki :
  let all := Dbpedia.fetch_dbpedia_triples w keyword relations None exclude_wiki in
  let out := Dbpedia.fetch_dbpedia_triples w keyword relations (Some n) exclude_wiki in
  out = firstn (Z.to_nat (Z.max 1 n)) all
  /\ length out = Nat.min (Z.to_nat (Z.max 1 n)) (length all).
Proof.
  cbn zeta. split; [apply fetch_dbpedia_triples_firstn|].
  rewrite fetch_dbpedia_triples_firstn. apply length_firstn.
Qed.

(** X21: where the triples of the Entity adapter come from.  A returned
    triple needs all three exchanges to succeed: the keyword resolves to a URI
    that starts with [http], the query for that URI gives bindings, and the
    triple is built from one of them that the filters let through; its source
    is the local name of the URI with spaces for underscores. *)
Theorem dbpedia_triple_origin w keyword relations max_num exclude_wiki t :
  t ∈ Dbpedia.fetch_dbpedia_triples w keyword relations max_num exclude_wiki ->
  exists uri bindings b,
    Dbpedia.resolve_dbpedia_entity w keyword = Some uri
    /\ String.prefix "http" uri = true
    /\ Dbpedia.select_get w uri = Dbpedia.SparqlBindings bindings
    /\ b ∈ bindings
    /\ Dbpedia.passes exclude_wiki relations b = true
    /\ t = Dbpedia.shaped_binding (Dbpedia.source_label_of uri) b.
Proof.
  unfold Dbpedia.fetch_dbpedia_triples.
  destruct (Dbpedia.resolve_dbpedia_entity w keyword) as [uri|] eqn:Er;
    [|inversion 1].
  destruct (negb (PyStr.truthy uri)); [inversion 1|].
  destruct (Dbpedia.select_get w uri) as [| |bs] eqn:Es; try (inversion 1; fail).
  intros Ht. apply collect_bindings_elem in Ht.
  destruct Ht as (b & Hb & Hp & -> & _).
  exists uri, bs, b. repeat split; try assumption.
  now apply resolve_dbpedia_entity_http with w keyword.
Qed.

(** X22: the triples of the Entity adapter are distinct and in the order of
    the response.  No two returned triples agree on the relation and, up to
    case, on the target; the result is a subsequence of the triples built from
    the bindings that pass the filters; and without a bound every such binding
    is represented in it. *)
Theorem dbpedia_triples_distinct_in_order w keyword relations max_num exclude_wiki :
  let out := Dbpedia.fetch_dbpedia_triples w keyword relations max_num exclude_wiki in
  NoDup (map key3 out)
  /\ forall uri bindings,
       Dbpedia.resolve_dbpedia_entity w keyword = Some uri ->
       Dbpedia.select_get w uri = Dbpedia.SparqlBindings bindings ->
       out `sublist_of`
         map (Dbpedia.shaped_binding (Dbpedia.source_label_of uri))
           (List.filter (Dbpedia.passes exclude_wiki relations) bindings)
       /\ (max_num = None ->
           forall b, b ∈ bindings ->
             Dbpedia.passes exclude_wiki relations b = true ->
             key3 (Dbpedia.shaped_binding (Dbpedia.source_label_of uri) b)
             ∈ map key3 out).
Proof.
  cbn zeta. unfold Dbpedia.fetch_dbpedia_triples. split.
  - destruct (Dbpedia.resolve_dbpedia_entity w keyword) as [uri|]; [|constructor].
    destruct (negb (PyStr.truthy uri)); [constructor|].
    destruct (Dbpedia.select_get w uri) as [| |bs]; try constructor.
    apply collect_bindings_NoDup.
  - intros uri bs Hr Hs. rewrite Hr.
    rewrite (prefix_http_truthy _ (resolve_dbpedia_entity_http _ _ _ Hr)).
    cbn [negb]. rewrite Hs. split; [apply collect_bindings_sublist|].
    intros -> b Hb Hp.
    destruct (collect_bindings_complete exclude_wiki relations
                (Dbpedia.source_label_of uri) bs ∅ 0 b Hb Hp) as [H|H];
      [set_solver|exact H].
Qed.

(** ** The Entity adapter in the round *)

Section EntityEvents.

Context (sv : Services).

Lemma answered_refl h : answered sv h h.
Proof. exists []. split; [reflexivity|constructor]. Qed.

Lemma answered_trans h0 h1 h2 :
  answered sv h0 h1 -> answered sv h1 h2 -> answered sv h0 h2.
Proof.
  intros (e1 & -> & H1) (e2 & -> & H2). exists (e2 ++ e1).
  split; [now rewrite app_assoc|]. apply Forall_app. auto.
Qed.

Lemma answered_one h ev : entity_from sv ev -> answered sv h (ev :: h).
Proof. intros H. exists [ev]. split; [reflexivity|]. now constructor. Qed.

Lemma expand_agent_answered cfg agent acc h acc' h' :
  expand_agent sv cfg agent acc h = (Ok acc', h') -> answered sv h h'.
Proof.
  unfold expand_agent. intros H.
  apply bind_Ok in H. destruct H as (acc1 & h1 & H1 & H).
  apply bind_Ok in H. destruct H as (acc2 & h2 & H2 & H3).
  apply answered_trans with h1; [|apply answered_trans with h2].
  - destruct (use_concept_graph cfg).
    + apply bind_Ok in H1. destruct H1 as (c & hc & Hc & Hr).
      apply ret_Ok in Hr. destruct Hr as [_ ->].
      unfold fetch_conceptnet_triples in Hc.
      destruct (conceptnet_get sv h agent); injection Hc as _ <-;
        now apply answered_one.
    + apply ret_Ok in H1. destruct H1 as [_ ->]. apply answered_refl.
  - destruct (use_entity_graph cfg).
    + apply bind_Ok in H2. destruct H2 as (c & hc & Hc & Hr).
      apply ret_Ok in Hr. destruct Hr as [_ ->].
      unfold fetch_dbpedia_triples in Hc. injection Hc as _ <-.
      apply answered_one. now exists h1.
    + apply ret_Ok in H2. destruct H2 as [_ ->]. apply answered_refl.
  - destruct (use_term_definition_graph cfg).
    + apply bind_Ok in H3. destruct H3 as (c & hc & Hc & Hr).
      assert (h' = hc) as ->
        by (destruct (include_tdg_edges cfg); apply ret_Ok in Hr; tauto).
      apply build_term_definition_triples_Ok in Hc.
      destruct Hc as (text & _ & _ & ->). now apply answered_one.
    + apply ret_Ok in H3. destruct H3 as [_ ->]. apply answered_refl.
Qed.

Lemma expand_agents_answered cfg hard_agents : forall acc h acc' h',
  expand_agents sv cfg hard_agents acc h = (Ok acc', h') -> answered sv h h'.
Proof.
  induction hard_agents as [|agent rest IH]; intros acc h acc' h' H.
  - apply ret_Ok in H. destruct H as [_ ->]. apply answered_refl.
  - simpl in H. apply bind_Ok in H. destruct H as (acc1 & h1 & H1 & H).
    apply answered_trans with h1;
      [now apply expand_agent_answered with cfg agent acc acc1|].
    now apply IH with acc1 acc'.
Qed.

Lemma expand_once_answered cfg agent_list h es fr h' :
  _expand_once sv cfg agent_list h = (Ok (es, fr), h') -> answered sv h h'.
Proof.
  unfold _expand_once. intros H.
  apply bind_Ok in H. destruct H as (picked & h1 & Hp & H).
  apply bind_Ok in H. destruct H as (acc & h2 & He & H).
  apply ret_Ok in H. destruct H as [_ ->].
  apply answered_trans with h1; [|now apply expand_agents_answered in He].
  apply pick_hard_agents_Ok in Hp.
  destruct Hp as [(_ & _ & ->)|(text & _ & _ & _ & _ & _ & _ & _ & _ & ->)];
    [apply answered_refl|now apply answered_one].
Qed.

Lemma calls_for_entity cfg agent keyword max_num :
  CallEntity keyword max_num ∈ calls_for cfg agent ->
  keyword = agent /\ max_num = entity_max cfg /\ use_entity_graph cfg = true.
Proof.
  unfold calls_for. intros H.
  destruct (use_concept_graph cfg), (use_entity_graph cfg),
    (use_term_definition_graph cfg); simpl in H;
    repeat (apply elem_of_cons in H; destruct H as [H|H];
            [try discriminate; injection H as -> ->; auto|]);
    inversion H.
Qed.

(** The Entity edges of a round: each is the normalised, tagged form of a
    triple that the service gave for an input agent and the configured
    bound. *)
Lemma expand_once_entity_edge cfg agent_list h es fr h' o :
  _expand_once sv cfg agent_list h = (Ok (es, fr), h') ->
  o ∈ es -> source_graph o = Some "entity" ->
  exists agent h0 t,
    agent ∈ agent_list /\ use_entity_graph cfg = true
    /\ t ∈ dbpedia_triples sv h0 agent (entity_max cfg)
    /\ o = canonical (tagged "entity" t).
Proof.
  intros H Ho Hsg.
  pose proof (expand_once_made sv _ _ _ _ _ _ H) as (picked & Hp & e1 & Hh1 & Hcalls).
  pose proof (expand_once_answered _ _ _ _ _ _ H) as (e2 & Hh2 & Hall).
  apply expand_once_Ok in H. destruct H as (evs & Hh & -> & _).
  assert (e1 = evs) as -> by (apply (history_suffix_unique _ _ h); congruence).
  assert (e2 = evs) as -> by (apply (history_suffix_unique _ _ h); congruence).
  apply dedup_loop_elem in Ho. destruct Ho as (e & He & _ & -> & _).
  apply in_flat_map_events in He. destruct He as (ev & Hev & He).
  assert (Hin : call_of ev ∈ map call_of (chronological evs)).
  { apply list_elem_of_fmap. exists ev. split; [reflexivity|].
    unfold chronological. rewrite list_elem_of_In, <- in_rev, <- list_elem_of_In.
    exact Hev. }
  rewrite Hcalls in Hin.
  rewrite Forall_forall in Hall. specialize (Hall ev Hev).
  destruct ev as [[m cands|m kw] out|kw out|kw mx out]; simpl in He.
  - inversion He.
  - destruct (include_tdg_edges cfg); [|inversion He].
    apply list_elem_of_fmap in He. destruct He as (t & -> & _). discriminate.
  - apply list_elem_of_fmap in He. destruct He as (t & -> & _). discriminate.
  - apply list_elem_of_fmap in He. destruct He as (t & -> & Ht).
    destruct Hall as (h0 & ->). simpl in Hin.
    apply elem_of_app in Hin. destruct Hin as [Hin|Hin].
    { destruct agent_list; [inversion Hin|].
      apply list_elem_of_singleton in Hin. discriminate. }
    rewrite list_elem_of_In, in_flat_map in Hin.
    destruct Hin as (a & Ha & Hc). rewrite <- !list_elem_of_In in *.
    apply calls_for_entity in Hc. destruct Hc as (-> & -> & Hu).
    exists a, h0, t. repeat split; try assumption.
    destruct picked as [|p ps]; [exact Ha|].
    now apply (picked_are_candidates sv _ _ _ _ Hp).
Qed.

End EntityEvents.

(** X23: the Entity edges of a round that uses the adapter.  Each is the
    normalised form, tagged [entity], of a triple the adapter returns for an
    input agent of the round with the bound [entity_max], so at most
    [max(1, entity_max)] triples per agent stand behind them. *)
Theorem round_entity_edges w sv cfg agent_list h es fr h' o :
  _expand_once (with_dbpedia w sv) cfg agent_list h = (Ok (es, fr), h') ->
  o ∈ es -> source_graph o = Some "entity" ->
  exists agent t,
    agent ∈ agent_list
    /\ t ∈ Dbpedia.fetch_dbpedia_triples w agent None (entity_max cfg) true
    /\ o = canonical (tagged "entity" t)
    /\ forall n, entity_max cfg = Some n ->
         (length (Dbpedia.fetch_dbpedia_triples w agent None (entity_max cfg) true)
          <= Z.to_nat (Z.max 1 n))%nat.
Proof.
  intros H Ho Hsg.
  destruct (expand_once_entity_edge _ _ _ _ _ _ _ _ H Ho Hsg)
    as (agent & h0 & t & Ha & _ & Ht & ->).
  exists agent, t. repeat split; try assumption.
  intros n ->.
  rewrite fetch_dbpedia_triples_firstn, length_firstn. lia.
Qed.

(** ** The term of a keyword *)

Lemma isspace_lower_char c : PyStr.isspace (PyStr.lower_char c) = PyStr.isspace c.
Proof. destruct c as [[] [] [] [] [] [] [] []]; reflexivity. Qed.

Lemma lstrip_lower s : PyStr.lstrip (PyStr.lower s) = PyStr.lower (PyStr.lstrip s).
Proof.
  induction s as [|c r IH]; [reflexivity|]. simpl.
  rewrite isspace_lower_char. now destruct (PyStr.isspace c).
Qed.

Lemma rstrip_lower s : PyStr.rstrip (PyStr.lower s) = PyStr.lower (PyStr.rstrip s).
Proof.
  induction s as [|c r IH]; [reflexivity|]. simpl. rewrite IH.
  destruct (PyStr.rstrip r); simpl; [|reflexivity].
  rewrite isspace_lower_char. now destruct (PyStr.isspace c).
Qed.

Lemma strip_lower s : PyStr.strip (PyStr.lower s) = PyStr.lower (PyStr.strip s).
Proof. unfold PyStr.strip. now rewrite lstrip_lower, rstrip_lower. Qed.

Lemma safe_non_space c : Dbpedia.is_safe c = true -> PyStr.isspace c = false.
Proof. destruct c as [[] [] [] [] [] [] [] []]; vm_compute; congruence. Qed.

Lemma hex_digit_non_space n : PyStr.isspace (Dbpedia.hex_digit n) = false.
Proof.
  unfold Dbpedia.hex_digit.
  do 16 (destruct n as [|n]; [reflexivity|]). now destruct n.
Qed.

Lemma quote_no_space s : has_space (Dbpedia.quote s) = false.
Proof.
  unfold has_space. induction s as [|c r IH]; [reflexivity|]. simpl.
  destruct (Dbpedia.is_safe c) eqn:E; simpl.
  - now rewrite (safe_non_space _ E), IH.
  - now rewrite !hex_digit_non_space, IH.
Qed.

Lemma underscore_char_lower c :
  PyStr.lower_char (if Ascii.eqb c " " then "_"%char else c)
  = if Ascii.eqb (PyStr.lower_char c) " " then "_"%char else PyStr.lower_char c.
Proof. destruct c as [[] [] [] [] [] [] [] []]; reflexivity. Qed.

Lemma underscore_char_idem c :
  (if Ascii.eqb (if Ascii.eqb c " " then "_"%char else c) " "
   then "_"%char else (if Ascii.eqb c " " then "_"%char else c))
  = if Ascii.eqb c " " then "_"%char else c.
Proof. destruct c as [[] [] [] [] [] [] [] []]; reflexivity. Qed.

Lemma underscore_char_non_space c :
  PyStr.isspace c = false ->
  PyStr.isspace (if Ascii.eqb c " " then "_"%char else c) = false.
Proof. destruct c as [[] [] [] [] [] [] [] []]; vm_compute; congruence. Qed.

Lemma lower_spaces_to_underscores s :
  PyStr.lower (spaces_to_underscores s) = spaces_to_underscores (PyStr.lower s).
Proof.
  induction s as [|c r IH]; [reflexivity|]. simpl.
  now rewrite underscore_char_lower, IH.
Qed.

Lemma spaces_to_underscores_idem s :
  spaces_to_underscores (spaces_to_underscores s) = spaces_to_underscores s.
Proof.
  induction s as [|c r IH]; [reflexivity|]. simpl.
  now rewrite underscore_char_idem, IH.
Qed.

Lemma spaces_to_underscores_trimmed s :
  PyStr.is_trimmed s = true -> PyStr.is_trimmed (spaces_to_underscores s) = true.
Proof.
  unfold PyStr.is_trimmed. intros H. apply andb_prop in H. destruct H as [Hh Hl].
  apply andb_true_intro. split.
  - destruct s as [|c r]; [reflexivity|]. simpl in *.
    apply negb_true_iff in Hh. now rewrite (underscore_char_non_space _ Hh).
  - clear Hh. induction s as [|c r IH]; [reflexivity|].
    cbn [spaces_to_underscores PyStr.last] in *.
    destruct (PyStr.last r) as [d|] eqn:Er.
    + specialize (IH Hl).
      destruct (PyStr.last (spaces_to_underscores r)) eqn:Es; [exact IH|].
      apply last_None in Es. destruct r; [discriminate|discriminate].
    + apply last_None in Er. subst r. simpl in *.
      apply negb_true_iff in Hl. now rewrite (underscore_char_non_space _ Hl).
Qed.

Lemma strip_trimmed_id s : PyStr.is_trimmed s = true -> PyStr.strip s = s.
Proof.
  unfold PyStr.is_trimmed. intros H. apply andb_prop in H. destruct H as [Hh Hl].
  unfold PyStr.strip. rewrite (lstrip_id _ Hh). now apply rstrip_id.
Qed.

(** X24: the Concept adapter's term does not depend on the case of the
    keyword or on white space around it, a space inside the keyword counts as
    an underscore, and the term holds no white space. *)
Theorem norm_term_insensitive keyword :
  _norm_term (PyStr.lower keyword) = _norm_term keyword
  /\ _norm_term (PyStr.strip keyword) = _norm_term keyword
  /\ _norm_term (spaces_to_underscores (PyStr.strip keyword)) = _norm_term keyword
  /\ has_space (_norm_term keyword) = false.
Proof.
  unfold _norm_term. repeat split.
  - now rewrite strip_lower, lower_idem.
  - now rewrite strip_idem.
  - rewrite (strip_trimmed_id _ (spaces_to_underscores_trimmed _ (strip_trimmed keyword))).
    now rewrite lower_spaces_to_underscores, spaces_to_underscores_idem.
  - apply quote_no_space.
Qed.

(** ** The further theorems at work on the scenarios *)

(** The calls of the round on [GDPR]. *)
Lemma expand_once_calls_witness :
  _expand_once answering main_config ["GDPR"] [] =
    (Ok (answering_round_edges, answering_round_frontier), answering_round_history)
  /\ made [CallFilter ["GDPR"]; CallConcept "GDPR";
           CallEntity "GDPR" (Some 3%Z); CallDefine "GDPR"]
       [] answering_round_history.
Proof.
  assert (H : _expand_once answering main_config ["GDPR"] [] =
                (Ok (answering_round_edges, answering_round_frontier),
                 answering_round_history))
    by (vm_compute; reflexivity).
  split; [exact H|].
  destruct (expand_once_calls answering _ _ _ _ _ _ H) as (picked & Hp & Hm).
  vm_compute in Hp. injection Hp as <-. exact Hm.
Defined.

(** The round on [GDPR] asks the adapters about [GDPR] only. *)
Lemma expand_once_queries_input_agents_witness :
  _expand_once answering main_config ["GDPR"] [] =
    (Ok (answering_round_edges, answering_round_frontier), answering_round_history)
  /\ exists evs,
       answering_round_history = evs ++ []
       /\ forall ev kw, ev ∈ evs -> call_keyword (call_of ev) = Some kw ->
            kw ∈ ["GDPR"].
Proof.
  assert (H : _expand_once answering main_config ["GDPR"] [] =
                (Ok (answering_round_edges, answering_round_frontier),
                 answering_round_history))
    by (vm_compute; reflexivity).
  split; [exact H|].
  exact (expand_once_queries_input_agents answering _ _ _ _ _ _ H).
Defined.

(** No edge of the two-round graph carries a weight. *)
Lemma fusion_graph_edge_origin_witness :
  build_fusion_graph answering [gdpr_event; gdpr_event] 2 main_config [] =
    (Ok answering_graph, answering_history)
  /\ forall o, o ∈ edges answering_graph -> weight o = None.
Proof.
  assert (H : build_fusion_graph answering [gdpr_event; gdpr_event] 2 main_config [] =
                (Ok answering_graph, answering_history))
    by (vm_compute; reflexivity).
  split; [exact H|].
  intros o Ho.
  exact (proj1 (fusion_graph_edge_origin answering _ _ _ _ _ _ H o Ho)).
Defined.

(** A record whose first agent-like key holds nothing gives a seed edge but
    no agent: the two rounds asked for are not run. *)
Lemma no_expansion_seed_only_witness :
  _extract_agents_from_eventic [shadowed_agent_event] = []
  /\ build_fusion_graph answering [shadowed_agent_event] 2 main_config [] =
       (Ok shadowed_agent_graph, [])
  /\ seeded [shadowed_agent_event] (edges shadowed_agent_graph).
Proof.
  assert (H : _extract_agents_from_eventic [shadowed_agent_event] = [])
    by reflexivity.
  split; [exact H|].
  destruct (no_expansion_seed_only answering [shadowed_agent_event] 2 main_config []
              (or_intror H)) as (out & Hrun & Hout & Hs & _).
  assert (out = edges shadowed_agent_graph) as ->
    by (rewrite Hout; vm_compute; reflexivity).
  split; [exact Hrun|exact Hs].
Defined.

(** The two-round run makes at most two filter calls. *)
Lemma round_budget_witness :
  build_fusion_graph answering [gdpr_event; gdpr_event] 2 main_config [] =
    (Ok answering_graph, answering_history)
  /\ exists calls, made calls [] answering_history /\ filter_calls calls <= 2.
Proof.
  assert (H : build_fusion_graph answering [gdpr_event; gdpr_event] 2 main_config [] =
                (Ok answering_graph, answering_history))
    by (vm_compute; reflexivity).
  split; [exact H|].
  exact (round_budget answering _ _ _ _ _ _ H).
Defined.

Lemma only_model_answers : model_answers only_model.
Proof.
  intros h [m cands|m keyword]; eexists; (split; [reflexivity|]).
  - intros m0 c Heq. injection Heq as _ <-. unfold filter_answer_ok.
    destruct cands as [|c0 cs]; repeat eexists; reflexivity.
  - discriminate.
Defined.

Lemma only_model_sources_down : sources_down only_model.
Proof. split; reflexivity. Defined.

(** The default configuration in the world where only the model answers. *)
Lemma degraded_sources_seed_graph_witness :
  model_answers only_model /\ sources_down only_model
  /\ exists g h',
       build_fusion_graph only_model [gdpr_event] 2 default_config [] = (Ok g, h')
       /\ edges g = _dedup_edges (_eventic_to_triples [gdpr_event]).
Proof.
  split; [exact only_model_answers|]. split; [exact only_model_sources_down|].
  destruct (degraded_sources_seed_graph only_model only_model_sources_down
              only_model_answers [gdpr_event] 2 default_config [])
    as (g & h' & Hrun & Hseed & _).
  exists g, h'. split; [exact Hrun|]. apply Hseed. reflexivity.
Defined.

(** The names in the Concept adapter's answer for [GDPR]. *)
Lemma concept_names_witness :
  gdpr_related ∈ shape_conceptnet None 4 (Some 3%Z) gdpr_concept_edges
  /\ exists edge,
       edge ∈ gdpr_concept_edges
       /\ after_last_slash (default "" (at_id (default empty_node (cn_rel edge))))
            (relation gdpr_related)
       /\ names_node (default empty_node (cn_start edge)) (source gdpr_related)
       /\ names_node (default empty_node (cn_end edge)) (target gdpr_related).
Proof.
  assert (H : gdpr_related ∈ shape_conceptnet None 4 (Some 3%Z) gdpr_concept_edges)
    by (apply list_elem_of_In; vm_compute; tauto).
  split; [exact H|].
  exact (concept_names None 4 (Some 3%Z) gdpr_concept_edges gdpr_related H).
Defined.

(** ** The Entity adapter on the world [new_york] *)

(** The keyword resolves through the fallback name; the wiki link is left out
    and the second [country] binding is a duplicate up to case. *)
Lemma dbpedia_triple_origin_witness :
  country_triple
  ∈ Dbpedia.fetch_dbpedia_triples Dbpedia.new_york "new york city" None (Some 3%Z) true
  /\ exists uri bindings b,
       Dbpedia.resolve_dbpedia_entity Dbpedia.new_york "new york city" = Some uri
       /\ String.prefix "http" uri = true
       /\ Dbpedia.select_get Dbpedia.new_york uri = Dbpedia.SparqlBindings bindings
       /\ b ∈ bindings
       /\ Dbpedia.passes true None b = true
       /\ country_triple = Dbpedia.shaped_binding (Dbpedia.source_label_of uri) b.
Proof.
  assert (H : country_triple
              ∈ Dbpedia.fetch_dbpedia_triples Dbpedia.new_york "new york city"
                  None (Some 3%Z) true)
    by (apply list_elem_of_In; vm_compute; tauto).
  split; [exact H|].
  exact (dbpedia_triple_origin Dbpedia.new_york "new york city" None (Some 3%Z)
           true country_triple H).
Defined.

(** The round on [new york city] with the adapter. *)
Lemma round_entity_edges_witness :
  _expand_once (with_dbpedia Dbpedia.new_york answering) main_config
    ["new york city"] [] =
    (Ok (new_york_round_edges, new_york_round_frontier), new_york_round_history)
  /\ tagged "entity" country_triple ∈ new_york_round_edges
  /\ exists agent t,
       agent ∈ ["new york city"]
       /\ t ∈ Dbpedia.fetch_dbpedia_triples Dbpedia.new_york agent None
                (entity_max main_config) true
       /\ tagged "entity" country_triple = canonical (tagged "entity" t)
       /\ forall n, entity_max main_config = Some n ->
            (length (Dbpedia.fetch_dbpedia_triples Dbpedia.new_york agent None
                       (entity_max main_config) true)
             <= Z.to_nat (Z.max 1 n))%nat.
Proof.
  assert (H : _expand_once (with_dbpedia Dbpedia.new_york answering) main_config
                ["new york city"] [] =
                (Ok (new_york_round_edges, new_york_round_frontier),
                 new_york_round_history))
    by (vm_compute; reflexivity).
  assert (Ho : tagged "entity" country_triple ∈ new_york_round_edges)
    by (apply list_elem_of_In; vm_compute; tauto).
  split; [exact H|]. split; [exact Ho|].
  exact (round_entity_edges Dbpedia.new_york answering main_config
           ["new york city"] [] new_york_round_edges new_york_round_frontier
           new_york_round_history (tagged "entity" country_triple) H Ho eq_refl).
Defined.

(** The fallback name of a keyword of three words. *)
Lemma normalize_keyword_for_dbr_word_witness :
  is_ascii "  new york  city " = true
  /\ Dbpedia._normalize_keyword_for_dbr "  new york  city " = "New_York_City"
  /\ let name := Dbpedia._normalize_keyword_for_dbr "  new york  city " in
     (if Dbpedia.has_alnum "  new york  city "
      then Dbpedia.is_word name = true /\ name <> "" /\ Dbpedia.quote name = name
      else name = PyStr.strip "  new york  city ")
     /\ Dbpedia._normalize_keyword_for_dbr name = name.
Proof.
  assert (H : is_ascii "  new york  city " = true) by reflexivity.
  split; [exact H|]. split; [reflexivity|].
  exact (normalize_keyword_for_dbr_word "  new york  city " H).
Defined.
